(** * vue-tsc-plus: the write interceptor of [src/index.ts]

    A shallow embedding of the module that wraps [fs.openSync],
    [fs.closeSync] and [fs.writeSync] so that every [*.vue.js]
    placeholder emitted by the checker is replaced by the compiled
    single-file component, together with the properties the specification
    states about it.

    Conventions of the embedding.
    - A JavaScript string is a [string]: a sequence of code units, here
      restricted to the 8-bit range.  A configuration file that spells a
      code unit above [00FF] with a [\u] escape is therefore outside the
      embedding: [JSON.parse] accepts it, [Json.parse] has no string to
      return for it and answers as for a malformed text.
    - [node:path] is the POSIX flavour.  Its functions are not part of the
      repository; they are modelled after Node's [lib/path.js], the
      normalisation at the level of path segments.
    - The file system, the component compiler and the three native file
      operations are the black boxes of the module.  They are the fields
      of the class [Host]; every general theorem holds for all hosts.
    - Code that can throw runs in the monad [M], a state monad over the
      interceptor state with an exception layer, so that [try]/[catch]
      reads as in the source. *)

From Stdlib Require Import ZArith String Ascii List Bool Lia.
From stdpp Require Import base option list gmap strings.

#[local] Set Warnings "-register-all".
Local Open Scope string_scope.

(** ** JavaScript string methods used by the module *)

Module JsString.

(** [s.slice(0, n)] for [0 <= n]: the first [n] code units. *)
Fixpoint take (n : nat) (s : string) : string :=
  match n, s with
  | S n', String c r => String c (take n' r)
  | _, _ => ""
  end.

(** [s.slice(n)] for [0 <= n]. *)
Fixpoint drop (n : nat) (s : string) : string :=
  match n, s with
  | S n', String _ r => drop n' r
  | _, _ => s
  end.

(** [s.slice(0, -3)]: a negative end counts from the end of the string
    and is clamped at [0]. *)
Definition slice_0_m3 (s : string) : string :=
  take (String.length s - 3) s.

(** [s.startsWith(p)]. *)
Fixpoint startsWith (s p : string) : bool :=
  match p, s with
  | "", _ => true
  | String a p', String b s' => Ascii.eqb a b && startsWith s' p'
  | String _ _, "" => false
  end.

(** [s.endsWith(p)]. *)
Definition endsWith (s p : string) : bool :=
  (String.length p <=? String.length s)%nat
  && String.eqb (drop (String.length s - String.length p) s) p.

(** [s.charCodeAt(i) === 47], false out of range. *)
Definition slashAt (s : string) (i : nat) : bool :=
  match String.get i s with
  | Some c => Ascii.eqb c "/"
  | None => false
  end.

(** JavaScript truthiness of a string: only [""] is falsy. *)
Definition truthy (s : string) : bool := negb (String.eqb s "").

End JsString.

(** ** [node:path], POSIX *)

Module Path.
Import JsString.

(** The pieces of a path between its slashes; never the empty list. *)
Fixpoint split (s : string) : list string :=
  match s with
  | "" => [""]
  | String c r =>
      if Ascii.eqb c "/" then "" :: split r
      else match split r with
           | seg :: segs => String c seg :: segs
           | [] => [String c ""]
           end
  end.

Definition joinSegs (segs : list string) : string := String.concat "/" segs.

Definition isAbsolute (p : string) : bool := slashAt p 0.

(** One step of [normalizeString]: [stack] holds the segments kept so far,
    the last one first. *)
Definition normStep (allowAboveRoot : bool) (stack : list string) (seg : string)
  : list string :=
  if String.eqb seg "" || String.eqb seg "." then stack
  else if String.eqb seg ".." then
    match stack with
    | top :: rest =>
        if String.eqb top ".." then (if allowAboveRoot then ".." :: stack else stack)
        else rest
    | [] => if allowAboveRoot then [".."] else []
    end
  else seg :: stack.

(** [normalizeString(path, allowAboveRoot, '/', isPosixPathSeparator)]:
    drops empty and [.] segments and resolves [..]. *)
Definition normalizeString (p : string) (allowAboveRoot : bool) : string :=
  joinSegs (rev (fold_left (normStep allowAboveRoot) (split p) [])).

(** [path.normalize]. *)
Definition normalize (p : string) : string :=
  if (String.length p =? 0)%nat then "."
  else
    let isAbs := isAbsolute p in
    let trailingSeparator := slashAt p (String.length p - 1) in
    let q := normalizeString p (negb isAbs) in
    if (String.length q =? 0)%nat then
      (if isAbs then "/" else if trailingSeparator then "./" else ".")
    else
      let q' := if trailingSeparator then q ++ "/" else q in
      if isAbs then "/" ++ q' else q'.

(** [path.join(...args)]: the non-empty arguments joined by a slash, then
    normalised. *)
Definition join (args : list string) : string :=
  match filter (fun a => truthy a = true) args with
  | [] => "."
  | parts => normalize (joinSegs parts)
  end.

(** The loop of [path.resolve], from the last argument to the first and
    then the working directory, until an absolute path is met. *)
Fixpoint resolveLoop (argsRev : list string) (resolvedPath : string)
  : string * bool :=
  match argsRev with
  | [] => (resolvedPath, false)
  | p :: rest =>
      if (String.length p =? 0)%nat then resolveLoop rest resolvedPath
      else
        let rp := p ++ "/" ++ resolvedPath in
        if isAbsolute p then (rp, true) else resolveLoop rest rp
  end.

(** [path.resolve(...args)] in a process whose working directory is [cwd]. *)
Definition resolve (cwd : string) (args : list string) : string :=
  let '(resolvedPath, resolvedAbsolute) := resolveLoop (rev args ++ [cwd]) "" in
  let q := normalizeString resolvedPath (negb resolvedAbsolute) in
  if resolvedAbsolute then "/" ++ q
  else if (0 <? String.length q)%nat then q else ".".

(** The segments of a resolved absolute path: none for the root. *)
Definition segmentsOf (p : string) : list string :=
  filter (fun s => truthy s = true) (split p).

Fixpoint dropCommon (xs ys : list string) : list string * list string :=
  match xs, ys with
  | x :: xs', y :: ys' =>
      if String.eqb x y then dropCommon xs' ys' else (xs, ys)
  | _, _ => (xs, ys)
  end.

(** [path.relative(from, to)]: both sides are resolved, their common
    leading segments dropped, and every segment left of [from] becomes
    a [..]. *)
Definition relative (cwd from to : string) : string :=
  if String.eqb from to then ""
  else
    let from' := resolve cwd [from] in
    let to' := resolve cwd [to] in
    if String.eqb from' to' then ""
    else
      let '(fs, ts) := dropCommon (segmentsOf from') (segmentsOf to') in
      joinSegs (map (fun _ => "..") fs ++ ts).

(** The scan of [path.dirname], from the last index down to index [1];
    [i] is the number of indices left, so the index looked at is [i]
    itself.  The result is [end], or [None] for [-1]. *)
Fixpoint dirnameScan (p : string) (i : nat) (matchedSlash : bool) : option nat :=
  match i with
  | O => None
  | S i' =>
      if slashAt p i then
        (if negb matchedSlash then Some i else dirnameScan p i' matchedSlash)
      else dirnameScan p i' false
  end.

(** [path.dirname]. *)
Definition dirname (p : string) : string :=
  if (String.length p =? 0)%nat then "."
  else
    let hasRoot := slashAt p 0 in
    match dirnameScan p (String.length p - 1) true with
    | None => if hasRoot then "/" else "."
    | Some e => if hasRoot && (e =? 1)%nat then "//" else take e p
    end.

(** The scan of [path.basename] without a suffix: index [i - 1] is looked
    at; the result is [(start, end)], [end = None] standing for [-1]. *)
Fixpoint basenameScan (p : string) (i : nat) (matchedSlash : bool)
    (e : option nat) : nat * option nat :=
  match i with
  | O => (O, e)
  | S i' =>
      if slashAt p i' then
        (if negb matchedSlash then (i, e) else basenameScan p i' matchedSlash e)
      else
        match e with
        | None => basenameScan p i' false (Some i)
        | Some _ => basenameScan p i' matchedSlash e
        end
  end.

(** [path.basename(p)]. *)
Definition basename (p : string) : string :=
  match basenameScan p (String.length p) true None with
  | (_, None) => ""
  | (start, Some e) => drop start (take e p)
  end.

End Path.

(** ** [JSON.parse] and the values it returns *)

Module Json.

Inductive JValue : Type :=
| JNull
| JBool (b : bool)
| JNum (mantissa exponent : Z)   (* the decimal [mantissa * 10 ^ exponent] *)
| JStr (s : string)
| JArr (items : list JValue)
| JObj (members : list (string * JValue)).

(** Outcome of a parsing step: the value and the text left, a
    [SyntaxError], or a recursion budget that was too small. *)
Inductive parsed : Type :=
| Ok (v : JValue) (rest : string)
| SyntaxErr
| OutOfFuel.

(** The double quote. *)
Definition dquote : ascii := "034"%char.

Arguments dquote : simpl never.

Definition isWs (c : ascii) : bool :=
  Ascii.eqb c " " || Ascii.eqb c "009" || Ascii.eqb c "010" || Ascii.eqb c "013".

Fixpoint skipWs (s : string) : string :=
  match s with
  | String c r => if isWs c then skipWs r else s
  | "" => ""
  end.

Definition digitOf (c : ascii) : option Z :=
  let n := Z.of_N (N_of_ascii c) in
  if ((48 <=? n) && (n <=? 57))%Z then Some (n - 48)%Z else None.

Definition isDigit (c : ascii) : bool :=
  match digitOf c with Some _ => true | None => false end.

Definition hexOf (c : ascii) : option Z :=
  let n := Z.of_N (N_of_ascii c) in
  if ((48 <=? n) && (n <=? 57))%Z then Some (n - 48)%Z
  else if ((65 <=? n) && (n <=? 70))%Z then Some (n - 55)%Z
  else if ((97 <=? n) && (n <=? 102))%Z then Some (n - 87)%Z
  else None.

(** The character a two-character escape stands for. *)
Definition simpleEscape (e : ascii) : option ascii :=
  if Ascii.eqb e dquote then Some dquote
  else if Ascii.eqb e "\" then Some "\"%char
  else if Ascii.eqb e "/" then Some "/"%char
  else if Ascii.eqb e "b" then Some "008"%char
  else if Ascii.eqb e "f" then Some "012"%char
  else if Ascii.eqb e "n" then Some "010"%char
  else if Ascii.eqb e "r" then Some "013"%char
  else if Ascii.eqb e "t" then Some "009"%char
  else None.

Definition hex4 (a b c d : ascii) : option Z :=
  match hexOf a, hexOf b, hexOf c, hexOf d with
  | Some x, Some y, Some z, Some w => Some (((x * 16 + y) * 16 + z) * 16 + w)%Z
  | _, _, _, _ => None
  end.

Definition consChar (c : ascii) (r : option (string * string))
  : option (string * string) :=
  match r with
  | Some (s, rest) => Some (String c s, rest)
  | None => None
  end.

(** The characters of a string literal after its opening quote, up to
    and including the closing quote.  A [\u] escape above [00FF]
    denotes a code unit outside the 8-bit strings of this model and is
    not accepted. *)
Fixpoint parseChars (s : string) : option (string * string) :=
  match s with
  | "" => None
  | String c r =>
      if Ascii.eqb c dquote then Some ("", r)
      else if Ascii.eqb c "\" then
        match r with
        | String e r' =>
            match simpleEscape e with
            | Some ch => consChar ch (parseChars r')
            | None =>
                if Ascii.eqb e "u" then
                  match r' with
                  | String h1 (String h2 (String h3 (String h4 r''))) =>
                      match hex4 h1 h2 h3 h4 with
                      | Some n =>
                          if (n <? 256)%Z
                          then consChar (ascii_of_N (Z.to_N n)) (parseChars r'')
                          else None
                      | None => None
                      end
                  | _ => None
                  end
                else None
            end
        | "" => None
        end
      else if (N_of_ascii c <? 32)%N then None
      else consChar c (parseChars r)
  end.

(** The longest run of decimal digits at the head of [s], as the number
    it denotes, its length, and the text after it. *)
Fixpoint takeDigits (acc : Z) (n : nat) (s : string) : Z * nat * string :=
  match s with
  | String c r =>
      match digitOf c with
      | Some d => takeDigits (acc * 10 + d) (S n) r
      | None => (acc, n, s)
      end
  | "" => (acc, n, s)
  end.

(** The integer part: a single [0], or a digit run that starts with
    [1]..[9]. *)
Definition parseInt (s : string) : option (Z * string) :=
  match s with
  | String c r =>
      match digitOf c with
      | Some 0%Z => Some (0%Z, r)
      | Some _ => let '(v, _, rest) := takeDigits 0 0 s in Some (v, rest)
      | None => None
      end
  | "" => None
  end.

(** The fraction, folded into the mantissa: [(mantissa, digits, rest)]. *)
Definition parseFrac (int : Z) (s : string) : option (Z * nat * string) :=
  match s with
  | String c r =>
      if Ascii.eqb c "." then
        match takeDigits int 0 r with
        | (_, O, _) => None
        | res => Some res
        end
      else Some (int, O, s)
  | "" => Some (int, O, s)
  end.

Definition parseExp (s : string) : option (Z * string) :=
  match s with
  | String c r =>
      if Ascii.eqb c "e" || Ascii.eqb c "E" then
        let '(neg, r1) :=
          match r with
          | String sg r' =>
              if Ascii.eqb sg "-" then (true, r')
              else if Ascii.eqb sg "+" then (false, r')
              else (false, r)
          | "" => (false, r)
          end in
        match takeDigits 0 0 r1 with
        | (_, O, _) => None
        | (v, _, rest) => Some (if neg then (- v)%Z else v, rest)
        end
      else Some (0%Z, s)
  | "" => Some (0%Z, s)
  end.

Definition parseNumber (s : string) : option (JValue * string) :=
  let '(neg, s1) :=
    match s with
    | String c r => if Ascii.eqb c "-" then (true, r) else (false, s)
    | "" => (false, s)
    end in
  match parseInt s1 with
  | Some (int, s2) =>
      match parseFrac int s2 with
      | Some (mant, fracDigits, s3) =>
          match parseExp s3 with
          | Some (e, s4) =>
              Some (JNum (if neg then (- mant)%Z else mant)
                         (e - Z.of_nat fracDigits)%Z, s4)
          | None => None
          end
      | None => None
      end
  | None => None
  end.

Definition parseLiteral (s : string) : option (JValue * string) :=
  if JsString.startsWith s "true" then Some (JBool true, JsString.drop 4 s)
  else if JsString.startsWith s "false" then Some (JBool false, JsString.drop 5 s)
  else if JsString.startsWith s "null" then Some (JNull, JsString.drop 4 s)
  else None.

Definition ofOption (r : option (JValue * string)) : parsed :=
  match r with
  | Some (v, rest) => Ok v rest
  | None => SyntaxErr
  end.

(** Recursive descent.  [parseMembers] and [parseElements] read what
    follows the opening bracket of a non-empty object or array; [acc]
    holds what was read so far. *)
Fixpoint parseValue (fuel : nat) (s : string) : parsed :=
  match fuel with
  | O => OutOfFuel
  | S f =>
      match skipWs s with
      | "" => SyntaxErr
      | String c r =>
          if Ascii.eqb c "{" then
            match skipWs r with
            | String c' r' =>
                if Ascii.eqb c' "}" then Ok (JObj []) r' else parseMembers f r []
            | "" => SyntaxErr
            end
          else if Ascii.eqb c "[" then
            match skipWs r with
            | String c' r' =>
                if Ascii.eqb c' "]" then Ok (JArr []) r' else parseElements f r []
            | "" => SyntaxErr
            end
          else if Ascii.eqb c dquote then
            match parseChars r with
            | Some (str, rest) => Ok (JStr str) rest
            | None => SyntaxErr
            end
          else if Ascii.eqb c "-" || isDigit c then
            ofOption (parseNumber (String c r))
          else ofOption (parseLiteral (String c r))
      end
  end
with parseMembers (fuel : nat) (s : string) (acc : list (string * JValue)) : parsed :=
  match fuel with
  | O => OutOfFuel
  | S f =>
      match skipWs s with
      | "" => SyntaxErr
      | String c r =>
          if Ascii.eqb c dquote then
            match parseChars r with
            | None => SyntaxErr
            | Some (key, r1) =>
                match skipWs r1 with
                | "" => SyntaxErr
                | String c1 r2 =>
                    if Ascii.eqb c1 ":" then
                      match parseValue f r2 with
                      | Ok v r3 =>
                          match skipWs r3 with
                          | "" => SyntaxErr
                          | String c3 r4 =>
                              if Ascii.eqb c3 "," then
                                parseMembers f r4 (acc ++ [(key, v)])
                              else if Ascii.eqb c3 "}" then
                                Ok (JObj (acc ++ [(key, v)])) r4
                              else SyntaxErr
                          end
                      | SyntaxErr => SyntaxErr
                      | OutOfFuel => OutOfFuel
                      end
                    else SyntaxErr
                end
            end
          else SyntaxErr
      end
  end
with parseElements (fuel : nat) (s : string) (acc : list JValue) : parsed :=
  match fuel with
  | O => OutOfFuel
  | S f =>
      match parseValue f s with
      | Ok v r1 =>
          match skipWs r1 with
          | "" => SyntaxErr
          | String c r2 =>
              if Ascii.eqb c "," then parseElements f r2 (acc ++ [v])
              else if Ascii.eqb c "]" then Ok (JArr (acc ++ [v])) r2
              else SyntaxErr
          end
      | SyntaxErr => SyntaxErr
      | OutOfFuel => OutOfFuel
      end
  end.

(** [JSON.parse(text)]: one value, white space around it, nothing else.
    [None] is the [SyntaxError]; the budget is never exhausted, see
    [JsonFuel.parse_None]. *)
Definition parseWith (fuel : nat) (text : string) : parsed :=
  match parseValue fuel text with
  | Ok v rest => if String.eqb (skipWs rest) "" then Ok v "" else SyntaxErr
  | r => r
  end.

Definition parse (text : string) : option JValue :=
  match parseWith (2 * String.length text + 2) text with
  | Ok v _ => Some v
  | _ => None
  end.

(** *** What the module does with a parsed value *)

(** [v[key]] for [v] a value that [JSON.parse] returned and [key] one of
    the four option names the module reads, none of which lives on a
    prototype: [inl tt] is the [TypeError] of reading a property of
    [null], [inr None] is [undefined].  The last member with the key wins,
    as when [JSON.parse] builds the object. *)
Fixpoint lookupMember (members : list (string * JValue)) (key : string)
  : option JValue :=
  match members with
  | [] => None
  | (k, v) :: rest =>
      match lookupMember rest key with
      | Some v' => Some v'
      | None => if String.eqb k key then Some v else None
      end
  end.

Definition prop (v : JValue) (key : string) : unit + option JValue :=
  match v with
  | JNull => inl tt
  | JObj members => inr (lookupMember members key)
  | _ => inr None
  end.

(** A number literal stands for the double nearest to it; that double is
    zero when the literal is zero or at most half the least positive
    double, [2 ^ -1075]. *)
Definition isZeroNumber (m e : Z) : bool :=
  ((m =? 0) || ((e <? 0) && (Z.abs m * 2 ^ 1075 <=? 10 ^ (- e))))%Z.

(** Truthiness of a value or [undefined]. *)
Definition truthy (v : option JValue) : bool :=
  match v with
  | None => false
  | Some JNull => false
  | Some (JBool b) => b
  | Some (JNum m e) => negb (isZeroNumber m e)
  | Some (JStr s) => JsString.truthy s
  | Some (JArr _) => true
  | Some (JObj _) => true
  end.

End Json.

(** ** The comment-stripping replacement of [getTsConfigPaths]

  [text.replace(/\/\*[\s\S]*?\*\/|\/\/.*/g, '')]: at every position, from
  left to right, the first alternative that matches is removed. *)

Module CommentRegex.

(** [.] matches everything but a line terminator. *)
Definition isLineTerminator (c : ascii) : bool :=
  Ascii.eqb c "010" || Ascii.eqb c "013".

(** Length of the shortest [[\s\S]*?\*\/] at the head of [s]. *)
Fixpoint blockEnd (s : string) : option nat :=
  match s with
  | "" => None
  | String a r =>
      match r with
      | "" => None
      | String b _ =>
          if Ascii.eqb a "*" && Ascii.eqb b "/" then Some 2
          else option_map S (blockEnd r)
      end
  end.

(** Length of the greedy [.*] at the head of [s]. *)
Fixpoint lineLength (s : string) : nat :=
  match s with
  | "" => 0
  | String c r => if isLineTerminator c then 0 else S (lineLength r)
  end.

(** Length of the match of the whole pattern at the head of [s]. *)
Definition matchLength (s : string) : option nat :=
  match s with
  | String a (String b r) =>
      if Ascii.eqb a "/" && Ascii.eqb b "*" then option_map (fun n => 2 + n) (blockEnd r)
      else if Ascii.eqb a "/" && Ascii.eqb b "/" then Some (2 + lineLength r)
      else None
  | _ => None
  end.

(** The global replacement by the empty string; [skip] code units of a
    match are still to be dropped. *)
Fixpoint replaceGo (skip : nat) (s : string) : string :=
  match s with
  | "" => ""
  | String c r =>
      match skip with
      | S k => replaceGo k r
      | O =>
          match matchLength s with
          | Some (S k) => replaceGo k r
          | _ => String c (replaceGo 0 r)
          end
      end
  end.

Definition removeComments (text : string) : string := replaceGo 0 text.

End CommentRegex.

(** ** Arguments and results of the wrapped operations *)

(** [fs.PathLike]. *)
Inductive PathLike : Type :=
| PathString (s : string)
| PathBuffer (bytes : string)
| PathURL (href : string).

(** The [data] argument of [fs.writeSync]: a string or a buffer view. *)
Inductive Payload : Type :=
| TextData (s : string)
| BinaryData (bytes : string).

(** The optional arguments (flags, mode, position, encoding). *)
Inductive Arg : Type :=
| ArgString (s : string)
| ArgNumber (n : Z)
| ArgNull
| ArgUndefined.

Record OpenArgs : Type := { o_path : PathLike; o_rest : list Arg }.
Record WriteArgs : Type := { w_fd : Z; w_data : Payload; w_rest : list Arg }.

(** A call of one of the three native, unwrapped operations. *)
Inductive NativeCall : Type :=
| CallOpen (a : OpenArgs)
| CallWrite (a : WriteArgs)
| CallClose (fd : Z).

(** The settings record of [getTsConfigPaths]. *)
Record TsPaths : Type := { outDir : string; rootDir : string; sourceMap : bool }.

(** The options handed to [compileVueSFC]. *)
Inductive ScriptTarget : Type := ES2020.
Inductive ModuleKind : Type := ESNext.
Inductive JsxEmit : Type := ReactJSX.

Record TsCompilerOptions : Type :=
  { ts_target : ScriptTarget; ts_module : ModuleKind; ts_jsx : JsxEmit;
    ts_sourceMap : bool }.

Record CompileOptions : Type :=
  { opt_root : string; opt_filename : string; opt_autoImportCss : bool;
    opt_autoResolveImports : bool; opt_isProd : bool;
    opt_tsCompilerOptions : TsCompilerOptions }.

(** ** The black boxes *)

Class Host : Type :=
  { (** the file system and whatever else the black boxes can see *)
    World : Type;
    (** the values the black boxes throw; [isError e] is [e instanceof Error] *)
    HostExn : Type;
    isError : HostExn -> bool;
    (** raw source maps and compiler diagnostics *)
    SourceMap : Type;
    Diagnostic : Type;
    (** [process.cwd()] *)
    cwd : World -> string;
    existsSync : World -> string -> bool;
    (** [fs.readFileSync(path, 'utf-8')] *)
    readFileSync : World -> string -> HostExn + string;
    nativeOpenSync : World -> OpenArgs -> (HostExn + Z) * World;
    nativeWriteSync : World -> WriteArgs -> (HostExn + Z) * World;
    nativeCloseSync : World -> Z -> (HostExn + unit) * World;
    (** [JSON.stringify] of a source map *)
    stringify : SourceMap -> HostExn + string }.

(** The part of a compilation result that the module reads. *)
Record CompiledJs `{Host} : Type :=
  { js_code : string; js_sourceMap : option SourceMap }.

Record CompiledCss `{Host} : Type :=
  { css_filename : string; css_code : string; css_sourceMap : option SourceMap }.

Record CompileResult `{Host} : Type :=
  { r_js : CompiledJs; r_css : list CompiledCss; r_errors : list Diagnostic }.

(** [compile] of vue-simple-compiler. *)
Class Compiler `{Host} : Type :=
  { compileVueSFC : World -> string -> CompileOptions
                    -> (HostExn + CompileResult) * World }.

(** ** Interceptor state and the monad of the module *)

Section Interceptor.
Context `{Compiler}.

(** What a [throw] carries. *)
Inductive JsExn : Type :=
| SyntaxError                 (* [JSON.parse] *)
| TypeError                   (* a property of [null], a non-string path *)
| HostThrown (e : HostExn).

Definition instanceofError (e : JsExn) : bool :=
  match e with
  | SyntaxError | TypeError => true
  | HostThrown e' => isError e'
  end.

(** One argument of a [console.error] call. *)
Inductive LogArg : Type :=
| LogText (s : string)
| LogThrown (e : JsExn)       (* the thrown value itself *)
| LogMessage (e : JsExn)      (* [err.message] *)
| LogDiagnostic (d : Diagnostic).

(** The two module-level maps, the world of the black boxes, the lines
    written by [console.error] and, as an observation device only, the
    native calls made so far. *)
Record State : Type :=
  { fdToPath : gmap Z string;
    tsconfigCache : gmap string TsPaths;
    world : World;
    console : list (list LogArg);
    nativeCalls : list NativeCall }.

Definition setFdToPath (m : gmap Z string) (st : State) : State :=
  {| fdToPath := m; tsconfigCache := tsconfigCache st; world := world st;
     console := console st; nativeCalls := nativeCalls st |}.

Definition setTsconfigCache (c : gmap string TsPaths) (st : State) : State :=
  {| fdToPath := fdToPath st; tsconfigCache := c; world := world st;
     console := console st; nativeCalls := nativeCalls st |}.

Definition setWorld (w : World) (st : State) : State :=
  {| fdToPath := fdToPath st; tsconfigCache := tsconfigCache st; world := w;
     console := console st; nativeCalls := nativeCalls st |}.

Definition addLog (line : list LogArg) (st : State) : State :=
  {| fdToPath := fdToPath st; tsconfigCache := tsconfigCache st;
     world := world st; console := console st ++ [line];
     nativeCalls := nativeCalls st |}.

Definition addCall (c : NativeCall) (st : State) : State :=
  {| fdToPath := fdToPath st; tsconfigCache := tsconfigCache st;
     world := world st; console := console st;
     nativeCalls := nativeCalls st ++ [c] |}.

(** A computation either throws or returns; the state it leaves behind
    is kept in both cases. *)
Definition M (A : Type) : Type := State -> (JsExn + A) * State.

#[global] Instance M_ret : MRet M := fun A a st => (inr a, st).

#[global] Instance M_bind : MBind M := fun A B f m st =>
  match m st with
  | (inr a, st') => f a st'
  | (inl e, st') => (inl e, st')
  end.

#[global] Instance M_throw : MThrow JsExn M := fun A e st => (inl e, st).

(** [try { body } catch (err) { handler(err) }]. *)
Definition tryCatch {A} (body : M A) (handler : JsExn -> M A) : M A :=
  fun st =>
    match body st with
    | (inl e, st') => handler e st'
    | r => r
    end.

Definition gets {A} (f : State -> A) : M A := fun st => (inr (f st), st).
Definition modify (f : State -> State) : M unit := fun st => (inr tt, f st).

(** [console.error(...line)]. *)
Definition consoleError (line : list LogArg) : M unit := modify (addLog line).

(** A result of a black box as a computation. *)
Definition ofHost {A} (r : HostExn + A) : M A :=
  match r with
  | inl e => mthrow (HostThrown e)
  | inr a => mret a
  end.

Definition callReadFileSync (p : string) : M string :=
  w ← gets world; ofHost (readFileSync w p).

Definition callNativeOpenSync (a : OpenArgs) : M Z :=
  fun st =>
    let '(r, w') := nativeOpenSync (world st) a in
    ofHost r (addCall (CallOpen a) (setWorld w' st)).

Definition callNativeWriteSync (a : WriteArgs) : M Z :=
  fun st =>
    let '(r, w') := nativeWriteSync (world st) a in
    ofHost r (addCall (CallWrite a) (setWorld w' st)).

Definition callNativeCloseSync (fd : Z) : M unit :=
  fun st =>
    let '(r, w') := nativeCloseSync (world st) fd in
    ofHost r (addCall (CallClose fd) (setWorld w' st)).

Definition callCompileVueSFC (code : string) (opts : CompileOptions)
  : M CompileResult :=
  fun st =>
    let '(r, w') := compileVueSFC (world st) code opts in
    ofHost r (setWorld w' st).

(** ** The configuration resolver *)

(** The [while] loop of [findTsConfig]; [None] when [fuel] iterations
    were not enough, [Some r] when the loop ended with result [r]. *)
Fixpoint findTsConfigLoop (fuel : nat) (w : World) (dir : string)
  : option (option string) :=
  match fuel with
  | O => None
  | S fuel' =>
      if negb (String.eqb dir (Path.dirname dir)) then
        let tsconfigPath := Path.join [dir; "tsconfig.json"] in
        if existsSync w tsconfigPath then Some (Some tsconfigPath)
        else findTsConfigLoop fuel' w (Path.dirname dir)
      else Some None
  end.

(** [findTsConfig]; the budget is never exhausted, see
    [findTsConfigLoop_terminates]. *)
Definition findTsConfig (w : World) (filePath : string) : option string :=
  match findTsConfigLoop (String.length filePath + 3) w (Path.dirname filePath) with
  | Some r => r
  | None => None
  end.

(** [path.resolve(projectRoot, value)] for a truthy [value] read from the
    configuration: a [TypeError] unless it is a string. *)
Definition resolveOption (projectRoot : string) (value : option Json.JValue)
  : M string :=
  match value with
  | Some (Json.JStr s) =>
      w ← gets world; mret (Path.resolve (cwd w) [projectRoot; s])
  | _ => mthrow TypeError
  end.

Definition readProp (v : Json.JValue) (key : string) : M (option Json.JValue) :=
  match Json.prop v key with
  | inl _ => mthrow TypeError
  | inr r => mret r
  end.

(** The body of the [try] block of [getTsConfigPaths]. *)
Definition loadTsConfig (tsconfigPath : string) : M (option TsPaths) :=
  tsconfigContent ← callReadFileSync tsconfigPath;
  let jsonContent := CommentRegex.removeComments tsconfigContent in
  tsconfig ← match Json.parse jsonContent with
             | Some v => mret v
             | None => mthrow SyntaxError
             end;
  co ← readProp tsconfig "compilerOptions";
  let compilerOptions :=
    match co with
    | Some v => if Json.truthy co then v else Json.JObj []
    | None => Json.JObj []
    end in
  let projectRoot := Path.dirname tsconfigPath in
  outDirOption ← readProp compilerOptions "outDir";
  outDir ← (if Json.truthy outDirOption
            then resolveOption projectRoot outDirOption
            else mret projectRoot);
  rootDirOption ← readProp compilerOptions "rootDir";
  rootDir ← (if Json.truthy rootDirOption
             then resolveOption projectRoot rootDirOption
             else mret projectRoot);
  sourceMapOption ← readProp compilerOptions "sourceMap";
  let sourceMap :=
    match sourceMapOption with
    | Some (Json.JBool true) => true
    | _ => false
    end in
  let result := {| outDir := outDir; rootDir := rootDir; sourceMap := sourceMap |} in
  modify (fun st => setTsconfigCache (<[tsconfigPath := result]> (tsconfigCache st)) st);;
  mret (Some result).

Definition getTsConfigPaths (filePath : string) : M (option TsPaths) :=
  w ← gets world;
  match findTsConfig w filePath with
  | None => mret None
  | Some tsconfigPath =>
      if negb (JsString.truthy tsconfigPath) then mret None
      else
        cached ← gets (fun st => tsconfigCache st !! tsconfigPath);
        match cached with
        | Some r => mret (Some r)
        | None =>
            tryCatch (loadTsConfig tsconfigPath)
              (fun err =>
                 consoleError [LogText "Failed to parse tsconfig.json:"; LogThrown err];;
                 mret None)
        end
  end.

(** ** The path mapper *)

Definition resolveVueFilePath (jsFilePath : string) : M (option string) :=
  paths ← getTsConfigPaths jsFilePath;
  match paths with
  | None => mret (Some (JsString.slice_0_m3 jsFilePath))
  | Some paths =>
      if negb (JsString.startsWith jsFilePath (outDir paths)) then
        mret (Some (JsString.slice_0_m3 jsFilePath))
      else
        w ← gets world;
        let relativePath := Path.relative (cwd w) (outDir paths) jsFilePath in
        let vueFilePath :=
          JsString.slice_0_m3 (Path.join [rootDir paths; relativePath]) in
        mret (Some vueFilePath)
  end.

Definition shouldGenerateSourceMap (jsFilePath : string) : M bool :=
  paths ← getTsConfigPaths jsFilePath;
  mret (match paths with
        | Some p => sourceMap p
        | None => true
        end).

(** ** The wrapped operations *)

(** [fs.openSync]. *)
Definition openSync (args : OpenArgs) : M Z :=
  fd ← callNativeOpenSync args;
  match o_path args with
  | PathString filePath =>
      modify (fun st => setFdToPath (<[fd := filePath]> (fdToPath st)) st)
  | _ => mret tt
  end;;
  mret fd.

(** [fs.closeSync]. *)
Definition closeSync (fd : Z) : M unit :=
  modify (fun st => setFdToPath (delete fd (fdToPath st)) st);;
  callNativeCloseSync fd.

(** The guard of the interception,
    [filePath && filePath.endsWith('.vue.js') && typeof data === 'string']:
    the recorded path when it holds. *)
Definition placeholderPath (filePath : option string) (data : Payload)
  : option string :=
  match filePath, data with
  | Some p, TextData _ =>
      if JsString.truthy p && JsString.endsWith p ".vue.js" then Some p else None
  | _, _ => None
  end.

Definition compileOptions (srcDir filename : string) (sourceMap : bool)
  : CompileOptions :=
  {| opt_root := srcDir; opt_filename := filename; opt_autoImportCss := true;
     opt_autoResolveImports := true; opt_isProd := true;
     opt_tsCompilerOptions :=
       {| ts_target := ES2020; ts_module := ESNext; ts_jsx := ReactJSX;
          ts_sourceMap := sourceMap |} |}.

(** An open, write, close of [text] to [path] with the native
    operations. *)
Definition writeFileNatively (path text : string) : M unit :=
  fd ← callNativeOpenSync {| o_path := PathString path; o_rest := [ArgString "w"] |};
  callNativeWriteSync {| w_fd := fd; w_data := TextData text; w_rest := [] |};;
  callNativeCloseSync fd.

(** The compiled script with its source map: the code to write, after
    the map file was written when there is one to write. *)
Definition emitJs (filePath : string) (sourceMap : bool) (js : CompiledJs)
  : M string :=
  let jsFileName := Path.basename filePath in
  match js_sourceMap js with
  | Some map =>
      if sourceMap then
        let jsCode :=
          js_code js ++ String "010" "//# sourceMappingURL=" ++ jsFileName ++ ".map" in
        let mapPath := filePath ++ ".map" in
        mapFd ← callNativeOpenSync
                  {| o_path := PathString mapPath; o_rest := [ArgString "w"] |};
        text ← ofHost (stringify map);
        callNativeWriteSync {| w_fd := mapFd; w_data := TextData text; w_rest := [] |};;
        callNativeCloseSync mapFd;;
        mret jsCode
      else mret (js_code js)
  | None => mret (js_code js)
  end.

(** One turn of the loop over [result.css]. *)
Definition emitCss (filePath : string) (sourceMap : bool) (cssFile : CompiledCss)
  : M unit :=
  w ← gets world;
  let cssPath := Path.resolve (cwd w) [Path.dirname filePath; css_filename cssFile] in
  let cssFileName := Path.basename cssPath in
  cssCode ← match css_sourceMap cssFile with
            | Some map =>
                if sourceMap then
                  let cssCode :=
                    css_code cssFile
                    ++ String "010" "/*# sourceMappingURL=" ++ cssFileName ++ ".map */" in
                  let cssMapPath := cssPath ++ ".map" in
                  cssMapFd ← callNativeOpenSync
                               {| o_path := PathString cssMapPath;
                                  o_rest := [ArgString "w"] |};
                  text ← ofHost (stringify map);
                  callNativeWriteSync
                    {| w_fd := cssMapFd; w_data := TextData text; w_rest := [] |};;
                  callNativeCloseSync cssMapFd;;
                  mret cssCode
                else mret (css_code cssFile)
            | None => mret (css_code cssFile)
            end;
  writeFileNatively cssPath cssCode.

Fixpoint forEach {A} (f : A -> M unit) (l : list A) : M unit :=
  match l with
  | [] => mret tt
  | x :: rest => f x;; forEach f rest
  end.

(** What follows a compilation that was asked for [sourceMap]: [Some r]
    when the [try] block returns [r]. *)
Definition afterCompile (args : WriteArgs) (filePath vueFilePath : string)
    (sourceMap : bool) (result : CompileResult) : M (option Z) :=
  if (0 <? length (r_errors result))%nat then
    consoleError [LogText "Errors compiling Vue SFC:"; LogText vueFilePath];;
    forEach (fun err => consoleError [LogDiagnostic err]) (r_errors result);;
    r ← callNativeWriteSync args;
    mret (Some r)
  else
    jsCode ← emitJs filePath sourceMap (r_js result);
    forEach (emitCss filePath sourceMap) (r_css result);;
    let modifiedArgs :=
      {| w_fd := w_fd args; w_data := TextData jsCode; w_rest := w_rest args |} in
    r ← callNativeWriteSync modifiedArgs;
    mret (Some r).

(** The body of the [try] block of the write wrapper: [Some r] when it
    returns [r], [None] when control leaves the block at its end. *)
Definition tryBody (args : WriteArgs) (filePath vueFilePath : string)
  : M (option Z) :=
  w ← gets world;
  if existsSync w vueFilePath then
    vueCode ← callReadFileSync vueFilePath;
    let srcDir := Path.dirname vueFilePath in
    let filename := Path.basename vueFilePath in
    sourceMap ← shouldGenerateSourceMap filePath;
    result ← callCompileVueSFC vueCode (compileOptions srcDir filename sourceMap);
    afterCompile args filePath vueFilePath sourceMap result
  else mret None.

(** The [catch] block of the write wrapper; control then leaves the
    [if]. *)
Definition catchBlock (err : JsExn) : M (option Z) :=
  (if instanceofError err
   then consoleError [LogText "Failed to compile Vue SFC:"; LogMessage err]
   else consoleError [LogText "Failed to compile Vue SFC:"; LogThrown err]);;
  mret None.

(** The branch taken when [!vueFilePath]. *)
Definition unresolved (args : WriteArgs) (filePath : string) : M (option Z) :=
  consoleError [LogText "Could not resolve Vue file path for:"; LogText filePath];;
  r ← callNativeWriteSync args;
  mret (Some r).

(** The [if] block of the write wrapper for a placeholder path. *)
Definition intercept (args : WriteArgs) (filePath : string) : M (option Z) :=
  vueFilePath ← resolveVueFilePath filePath;
  match vueFilePath with
  | Some vue =>
      if JsString.truthy vue
      then tryCatch (tryBody args filePath vue) catchBlock
      else unresolved args filePath
  | None => unresolved args filePath
  end.

(** [fs.writeSync]. *)
Definition writeSync (args : WriteArgs) : M Z :=
  filePath ← gets (fun st => fdToPath st !! w_fd args);
  returned ← match placeholderPath filePath (w_data args) with
             | Some filePath => intercept args filePath
             | None => mret None
             end;
  match returned with
  | Some r => mret r
  | None => callNativeWriteSync args
  end.

End Interceptor.

(** ** A host in memory

  A small file system with regular files only, used to run the module on
  concrete inputs.  Opening with the flag ['w'] creates or truncates the
  file and, as POSIX does, returns the lowest descriptor that is free;
  writing appends to the file.  The compiler of this host throws on an
  empty source, reports one diagnostic for a source without a
  [<template>], and otherwise returns a fixed script and no style. *)

Module MemHost.

Record MemWorld : Type :=
  { files : gmap string string;
    handles : gmap Z string;
    workDir : string }.

Inductive MemExn : Type := ENOENT | EBADF | CompilerCrash.

(** The lowest descriptor from [candidate] on that is not in use. *)
Fixpoint lowestFree (used : gmap Z string) (candidate : Z) (fuel : nat) : Z :=
  match fuel with
  | O => candidate
  | S fuel' =>
      if bool_decide (is_Some (used !! candidate))
      then lowestFree used (candidate + 1)%Z fuel'
      else candidate
  end.

Definition memOpen (w : MemWorld) (a : OpenArgs) : (MemExn + Z) * MemWorld :=
  match o_path a with
  | PathString p | PathBuffer p | PathURL p =>
      let writing :=
        match o_rest a with
        | ArgString flag :: _ => String.eqb flag "w"
        | _ => false
        end in
      if writing || bool_decide (is_Some (files w !! p)) then
        let fd := lowestFree (handles w) 3 (size (handles w)) in
        (inr fd,
         {| files := if writing then <[p := ""]> (files w) else files w;
            handles := <[fd := p]> (handles w);
            workDir := workDir w |})
      else (inl ENOENT, w)
  end.

Definition textOf (d : Payload) : string :=
  match d with TextData s | BinaryData s => s end.

Definition memWrite (w : MemWorld) (a : WriteArgs) : (MemExn + Z) * MemWorld :=
  match handles w !! w_fd a with
  | Some p =>
      (inr (Z.of_nat (String.length (textOf (w_data a)))),
       {| files := <[p := default "" (files w !! p) ++ textOf (w_data a)]> (files w);
          handles := handles w; workDir := workDir w |})
  | None => (inl EBADF, w)
  end.

Definition memClose (w : MemWorld) (fd : Z) : (MemExn + unit) * MemWorld :=
  match handles w !! fd with
  | Some _ =>
      (inr tt,
       {| files := files w; handles := delete fd (handles w);
          workDir := workDir w |})
  | None => (inl EBADF, w)
  end.

#[global] Instance memHost : Host :=
  {| World := MemWorld;
     HostExn := MemExn;
     isError := fun _ => true;
     SourceMap := string;
     Diagnostic := string;
     cwd := workDir;
     existsSync := fun w p => bool_decide (is_Some (files w !! p));
     readFileSync := fun w p =>
       match files w !! p with Some s => inr s | None => inl ENOENT end;
     nativeOpenSync := memOpen;
     nativeWriteSync := memWrite;
     nativeCloseSync := memClose;
     stringify := fun m => inr m |}.

Fixpoint contains (s sub : string) : bool :=
  JsString.startsWith s sub
  || match s with
     | String _ r => contains r sub
     | "" => false
     end.

Definition memCompile (w : MemWorld) (code : string) (opts : CompileOptions)
  : (MemExn + CompileResult) * MemWorld :=
  if String.eqb code "" then (inl CompilerCrash, w)
  else if contains code "<template>" then
    (inr {| r_js := {| js_code := "export default {}"; js_sourceMap := None |};
            r_css := []; r_errors := [] |}, w)
  else
    (inr {| r_js := {| js_code := ""; js_sourceMap := None |};
            r_css := []; r_errors := ["missing template"] |}, w).

#[global] Instance memCompiler : Compiler := {| compileVueSFC := memCompile |}.

(** A world with the given files, no open handle, and [/work] as the
    working directory. *)
Definition worldOf (fs : list (string * string)) : MemWorld :=
  {| files := list_to_map fs; handles := ∅; workDir := "/work" |}.

(** The state of a freshly loaded module in that world. *)
Definition initial (fs : list (string * string)) : State :=
  {| fdToPath := ∅; tsconfigCache := ∅; world := worldOf fs;
     console := []; nativeCalls := [] |}.

End MemHost.

(** ** Notions used to state the properties *)

Section Notions.
Context `{Compiler}.

(** A result of a native operation as the wrapped caller sees it. *)
Definition seenBy {A} (r : HostExn + A) : JsExn + A :=
  match r with
  | inl e => inl (HostThrown e)
  | inr a => inr a
  end.

(** [tsconfig.compilerOptions || {}] for a parsed, non-null [tsconfig]. *)
Definition compilerOptionsOf (tsconfig : Json.JValue) : Json.JValue :=
  match Json.prop tsconfig "compilerOptions" with
  | inr (Some v) => if Json.truthy (Some v) then v else Json.JObj []
  | _ => Json.JObj []
  end.

(** The directory an option of the configuration stands for: the project
    root when the option is falsy, its resolution against the project
    root when it is a string, and a [TypeError] otherwise. *)
Definition directoryOf (w : World) (projectRoot : string)
    (option : unit + option Json.JValue) : JsExn + string :=
  match option with
  | inl _ => inl TypeError
  | inr value =>
      if Json.truthy value then
        match value with
        | Some (Json.JStr s) => inr (Path.resolve (cwd w) [projectRoot; s])
        | _ => inl TypeError
        end
      else inr projectRoot
  end.

Definition isTrue (option : unit + option Json.JValue) : bool :=
  match option with
  | inr (Some (Json.JBool true)) => true
  | _ => false
  end.

(** The settings a parsed configuration yields, as a function of the
    world: what the [try] block of [getTsConfigPaths] computes after
    [JSON.parse]. *)
Definition settingsOfJson (w : World) (projectRoot : string)
    (tsconfig : Json.JValue) : JsExn + TsPaths :=
  match Json.prop tsconfig "compilerOptions" with
  | inl _ => inl TypeError
  | inr _ =>
      let compilerOptions := compilerOptionsOf tsconfig in
      match directoryOf w projectRoot (Json.prop compilerOptions "outDir") with
      | inl e => inl e
      | inr o =>
          match directoryOf w projectRoot (Json.prop compilerOptions "rootDir") with
          | inl e => inl e
          | inr r =>
              inr {| outDir := o; rootDir := r;
                     sourceMap := isTrue (Json.prop compilerOptions "sourceMap") |}
          end
      end
  end.

(** The same for a configuration file: read, strip, parse, extract. *)
Definition settingsOf (w : World) (tsconfigPath : string) : JsExn + TsPaths :=
  match readFileSync w tsconfigPath with
  | inl e => inl (HostThrown e)
  | inr content =>
      match Json.parse (CommentRegex.removeComments content) with
      | None => inl SyntaxError
      | Some tsconfig => settingsOfJson w (Path.dirname tsconfigPath) tsconfig
      end
  end.

(** The directory an option of a well-typed configuration stands for:
    [options] are the members of [compilerOptions]. *)
Definition directoryOption (w : World) (projectRoot : string)
    (options : list (string * Json.JValue)) (key : string) : string :=
  match Json.lookupMember options key with
  | Some (Json.JStr s) =>
      if JsString.truthy s then Path.resolve (cwd w) [projectRoot; s] else projectRoot
  | _ => projectRoot
  end.

(** Every cached record is what its file yields in the current world:
    the cache is never stale. *)
Definition cacheConsistent (st : State) : Prop :=
  forall tsconfigPath r,
    tsconfigCache st !! tsconfigPath = Some r ->
    settingsOf (world st) tsconfigPath = inr r.

(** Every cached record was computed from its configuration file, in the
    world of some earlier moment. *)
Definition cacheProvenance (st : State) : Prop :=
  forall tp r, tsconfigCache st !! tp = Some r -> exists w, settingsOf w tp = inr r.

(** A computation that keeps that property of the cache. *)
Definition keepsProvenance {A} (m : M A) : Prop :=
  forall st, cacheProvenance st -> cacheProvenance (m st).2.

(** The value a configuration text gives to [compilerOptions.sourceMap],
    [None] when there is none to read. *)
Definition declaredSourceMap (content : string) : option Json.JValue :=
  match Json.parse (CommentRegex.removeComments content) with
  | Some tsconfig =>
      match Json.prop (compilerOptionsOf tsconfig) "sourceMap" with
      | inr v => v
      | inl _ => None
      end
  | None => None
  end.

(** The line the [catch] block of the write wrapper logs for [e]. *)
Definition failedToCompile (e : JsExn) : list LogArg :=
  [LogText "Failed to compile Vue SFC:";
   if instanceofError e then LogMessage e else LogThrown e].

(** The state after the diagnostics of a failed compilation were logged. *)
Definition logDiagnostics (vueFilePath : string) (errs : list Diagnostic)
    (st : State) : State :=
  fold_left (fun s err => addLog [LogDiagnostic err] s) errs
    (addLog [LogText "Errors compiling Vue SFC:"; LogText vueFilePath] st).

(** A computation that leaves the handle table as it found it. *)
Definition keepsTable {A} (m : M A) : Prop :=
  forall st, fdToPath (m st).2 = fdToPath st.

(** The calls the checker makes on the wrapped module, and what the
    handle table can learn from each. *)
Inductive FsCall : Type :=
| DoOpen (a : OpenArgs)
| DoClose (fd : Z)
| DoWrite (a : WriteArgs).

Inductive Outcome : Type :=
| Opened (path : PathLike) (fd : Z)   (* the real open returned [fd] *)
| Closed (fd : Z)                     (* [closeSync fd] was called *)
| Other.                              (* a failed open, a write *)

Definition stepCall (c : FsCall) (st : State) : Outcome * State :=
  match c with
  | DoOpen a =>
      match openSync a st with
      | (inr fd, st') => (Opened (o_path a) fd, st')
      | (inl _, st') => (Other, st')
      end
  | DoClose fd => (Closed fd, (closeSync fd st).2)
  | DoWrite a => (Other, (writeSync a st).2)
  end.

(** A run of calls from [st]: what happened, and the state reached. *)
Fixpoint runCalls (calls : list FsCall) (st : State) : list Outcome * State :=
  match calls with
  | [] => ([], st)
  | c :: rest =>
      let '(o, st') := stepCall c st in
      let '(os, st'') := runCalls rest st' in
      (o :: os, st'')
  end.

(** The handle table as a function of what happened. *)
Definition applyOutcome (m : gmap Z string) (o : Outcome) : gmap Z string :=
  match o with
  | Opened (PathString p) fd => <[fd := p]> m
  | Closed fd => delete fd m
  | _ => m
  end.

Definition tableAfter (history : list Outcome) (m : gmap Z string)
  : gmap Z string :=
  fold_left applyOutcome history m.

(** An outcome that neither closes [fd] nor opens it with a string path. *)
Definition neutral (o : Outcome) (fd : Z) : Prop :=
  o <> Closed fd /\ forall q, o <> Opened (PathString q) fd.

(** In [history], [fd] was last opened with the string path [p] at
    position [i], and was not closed since. *)
Definition openedAndNotClosed (history : list Outcome) (fd : Z) (p : string)
  : Prop :=
  exists i,
    history !! i = Some (Opened (PathString p) fd)
    /\ forall j o, (i < j)%nat -> history !! j = Some o ->
                   o <> Closed fd /\ forall q, o <> Opened (PathString q) fd.

(** The write with the arguments [args] in the state [st] is the write
    on a file whose recorded path is [p]: when [p] ends in [.vue.js] and
    the payload is a string it is the interception for the path [p],
    followed by the real write unless the interception returned; in every
    other case it is the real write alone. *)
Definition attributedTo (p : string) (args : WriteArgs) (st : State) : Prop :=
  (JsString.endsWith p ".vue.js" = true ->
   (exists payload, w_data args = TextData payload) ->
   writeSync args st =
   match intercept args p st with
   | (inl e, st') => (inl e, st')
   | (inr (Some r), st') => (inr r, st')
   | (inr None, st') => callNativeWriteSync args st'
   end)
  /\ (JsString.endsWith p ".vue.js" = false
      \/ (exists bytes, w_data args = BinaryData bytes) ->
      writeSync args st = callNativeWriteSync args st).

(** The value a configuration text gives to the option [key] of
    [compilerOptions], [None] when there is none to read. *)
Definition declaredOption (content key : string) : option Json.JValue :=
  match Json.parse (CommentRegex.removeComments content) with
  | Some tsconfig =>
      match Json.prop (compilerOptionsOf tsconfig) key with
      | inr v => v
      | inl _ => None
      end
  | None => None
  end.

(** From [st] to [st'] nothing was taken back: the cache holds the
    records it held, and the console and the trace of native calls were
    only appended to. *)
Definition advances (st st' : State) : Prop :=
  tsconfigCache st ⊆ tsconfigCache st'
  /\ console st `prefix_of` console st'
  /\ nativeCalls st `prefix_of` nativeCalls st'.

Definition onlyAdds {A} (m : M A) : Prop :=
  forall st, advances st (m st).2.

(** The native calls made from [st] on end with a real write that has
    the descriptor and the optional arguments of [args], and [out] is what
    that write returned or threw. *)
Definition endsWithRealWrite (args : WriteArgs) (st : State)
    (out : (JsExn + Z) * State) : Prop :=
  exists calls a w r,
    nativeCalls out.2 = (nativeCalls st ++ calls ++ [CallWrite a])%list
    /\ w_fd a = w_fd args /\ w_rest a = w_rest args
    /\ (w_data a = w_data args \/ exists script, w_data a = TextData script)
    /\ nativeWriteSync w a = (r, world out.2)
    /\ out.1 = seenBy r.

(** The files that belong to a compilation result for the output file
    [filePath], [sm] being the answer of the source-map policy.  [a]
    opens the map of the script for writing: only when source maps are on
    and the script has one. *)
Definition opensScriptMap (filePath : string) (sm : bool) (result : CompileResult)
    (a : OpenArgs) : Prop :=
  o_rest a = [ArgString "w"]
  /\ sm = true /\ is_Some (js_sourceMap (r_js result))
  /\ o_path a = PathString (filePath ++ ".map").

(** [a] opens for writing the file of the style [css], its name resolved
    against the directory of the output file in the world [w], or the map
    of that style: the map only when source maps are on and the style
    has one. *)
Definition opensStyle (filePath : string) (sm : bool) (w : World)
    (css : CompiledCss) (a : OpenArgs) : Prop :=
  o_rest a = [ArgString "w"]
  /\ let cssPath :=
       Path.resolve (cwd w) [Path.dirname filePath; css_filename css] in
     o_path a = PathString cssPath
     \/ (sm = true /\ is_Some (css_sourceMap css)
         /\ o_path a = PathString (cssPath ++ ".map")).

(** The state in which turn [k] of the loop over the styles starts, [st]
    being the state in which the compiler returned [result]: the map of
    the script and the styles before the one of index [k] were dealt
    with. *)
Definition turnStart (filePath : string) (sm : bool) (result : CompileResult)
    (st : State) (k : nat) : State :=
  (forEach (emitCss filePath sm) (take k (r_css result))
     (emitJs filePath sm (r_js result) st).2).2.

(** [a] opens a file of the result: the map of the script, or the file
    or the map of one of the styles, in the world in which the turn of
    that style starts. *)
Definition opensFileOf (filePath : string) (sm : bool) (result : CompileResult)
    (st : State) (a : OpenArgs) : Prop :=
  opensScriptMap filePath sm result a
  \/ exists k css,
       r_css result !! k = Some css
       /\ opensStyle filePath sm (world (turnStart filePath sm result st k)) css a.

(** A computation whose native calls open only files that satisfy [Q]. *)
Definition opensOnly (Q : OpenArgs -> Prop) {A} (m : M A) : Prop :=
  forall st, exists new,
    nativeCalls (m st).2 = (nativeCalls st ++ new)%list
    /\ forall a, CallOpen a ∈ new -> Q a.

(** What a call of the checker gives back, on the wrapped module and on
    the native operations: the value returned, if any, or the exception
    thrown. *)
Definition wrapped (c : FsCall) : M (option Z) :=
  match c with
  | DoOpen a => fd ← openSync a; mret (Some fd)
  | DoClose fd => closeSync fd;; mret None
  | DoWrite a => n ← writeSync a; mret (Some n)
  end.

Definition unwrapped (c : FsCall) : M (option Z) :=
  match c with
  | DoOpen a => fd ← callNativeOpenSync a; mret (Some fd)
  | DoClose fd => callNativeCloseSync fd;; mret None
  | DoWrite a => n ← callNativeWriteSync a; mret (Some n)
  end.

(** A run of calls by a caller that goes on after an exception: what
    each call gave back, and the state reached. *)
Fixpoint runWith (op : FsCall -> M (option Z)) (calls : list FsCall) (st : State)
  : list (JsExn + option Z) * State :=
  match calls with
  | [] => ([], st)
  | c :: rest =>
      let '(r, st') := op c st in
      let '(rs, st'') := runWith op rest st' in
      (r :: rs, st'')
  end.

(** Two states that differ at most in the handle table. *)
Definition sameButTable (st st' : State) : Prop :=
  world st = world st' /\ console st = console st'
  /\ nativeCalls st = nativeCalls st' /\ tsconfigCache st = tsconfigCache st'.

(** No recorded path is a placeholder path. *)
Definition noPlaceholder (table : gmap Z string) : Prop :=
  forall fd p, table !! fd = Some p -> JsString.endsWith p ".vue.js" = false.

End Notions.

(** Absolute paths in normal form: a slash, then segments that are not
    empty, not [.], not [..] and hold no slash. *)

Fixpoint noSlash (s : string) : Prop :=
  match s with
| "" => True
| String c r => c <> "/"%char /\ noSlash r
  end.

Definition cleanSegment (s : string) : Prop :=
  noSlash s /\ s <> "" /\ s <> "." /\ s <> "..".

Definition absPath (segs : list string) : string := "/" ++ Path.joinSegs segs.

(** A segment that normalisation drops or keeps as it is, and a path made
    of such segments: no [.] and no [..]. *)
Definition plainSegment (s : string) : Prop := s = "" \/ cleanSegment s.

Definition plainPath (p : string) : Prop := Forall plainSegment (Path.split p).

Abbreviation nonEmpty := (fun s : string => JsString.truthy s = true).

(** [p] ends with a slash. *)
Definition trailingSlash (p : string) : bool :=
  JsString.slashAt p (String.length p - 1).

(** The measure that [path.dirname] decreases until it reaches one of its
    two fixed points, [.] and [/]. *)
Definition dirMeasure (d : string) : nat :=
  if String.eqb d "." || String.eqb d "/" then 0 else S (String.length d).

(** The file the loop of [findTsConfig] looks for in [dir], and the
    directories it looks into when it starts at [dir] with [fuel]
    iterations at most: [dir] and the directories above it, as long as
    [path.dirname] still moves. *)
Definition candidate (dir : string) : string := Path.join [dir; "tsconfig.json"].

Fixpoint ancestors (fuel : nat) (dir : string) : list string :=
  match fuel with
  | O => []
  | S fuel' =>
      if negb (String.eqb dir (Path.dirname dir))
      then dir :: ancestors fuel' (Path.dirname dir)
      else []
  end.

(** The directories above a file, nearest first and without the root
    directory, each as its list of segments; [reversed] holds the segments
    of the directory of the file, the last one first.  For [c; b; a] they
    are [a; b; c], [a; b] and [a]. *)
Fixpoint upward (reversed : list string) : list (list string) :=
  match reversed with
  | [] => []
  | _ :: above => rev reversed :: upward above
  end.

(** A text in which no [//] and no [/*] occurs. *)
Fixpoint noCommentStart (s : string) : Prop :=
  match s with
  | "" => True
  | String a r =>
      match r with
      | String b _ => ~ (a = "/"%char /\ (b = "/"%char \/ b = "*"%char))
      | "" => True
      end
      /\ noCommentStart r
  end.

(** A text in which no [*/] occurs, a text that holds no line terminator,
    and a text that is empty or begins with one. *)
Fixpoint noBlockEnd (s : string) : Prop :=
  match s with
  | "" => True
  | String a r =>
      match r with
      | String b _ => ~ (a = "*"%char /\ b = "/"%char)
      | "" => True
      end
      /\ noBlockEnd r
  end.

Fixpoint noLineTerminator (s : string) : Prop :=
  match s with
  | "" => True
  | String c r => CommentRegex.isLineTerminator c = false /\ noLineTerminator r
  end.

Definition atLineEnd (s : string) : Prop :=
  match s with
  | "" => True
  | String c _ => CommentRegex.isLineTerminator c = true
  end.

(** ** Concrete inputs

    Worlds and calls of the host in memory on which the module is run
    below. *)

Module Scenario.
Import MemHost.

Definition openForWriting (p : string) : FsCall :=
  DoOpen {| o_path := PathString p; o_rest := [ArgString "w"] |}.

Definition textWrite (fd : Z) (text : string) : WriteArgs :=
  {| w_fd := fd; w_data := TextData text; w_rest := [] |}.

(** The state after the checker opened [p] for writing from [st]. *)
Definition afterOpening (p : string) (st : State) : State :=
  (runCalls [openForWriting p] st).2.

(** A JSON text written with single quotes in place of double quotes. *)
Fixpoint jsonText (s : string) : string :=
  match s with
  | String c r => String (if Ascii.eqb c "'" then Json.dquote else c) (jsonText r)
  | "" => ""
  end.

(** A project in [/proj] that compiles [src] into [dist], with one
    component whose source text is [vueSource]. *)
Definition projectConfig : string :=
  jsonText "{'compilerOptions':{'outDir':'dist','rootDir':'src'}}".

Definition project (vueSource : string) : State :=
  initial [("/proj/tsconfig.json", projectConfig); ("/proj/src/Foo.vue", vueSource)].

Definition placeholder : string := "/proj/dist/Foo.vue.js".

(** The same project with source maps switched on, the option being
    followed by a comment. *)
Definition projectWithMaps : State :=
  initial
    [("/proj/tsconfig.json",
      jsonText "{'compilerOptions':{'outDir':'dist','sourceMap':true /* maps */}}");
     ("/proj/src/Foo.vue", "<template><p/></template>")].

(** A project whose configuration names only the output directory, and
    an output path in a sibling directory whose name starts alike, as a
    second build configuration of the same project produces. *)
Definition projectWithSibling : State :=
  initial [("/proj/tsconfig.json", jsonText "{'compilerOptions':{'outDir':'dist'}}")].

Definition siblingOutput : string := "/proj/dist-app/Foo.vue.js".

(** A configuration in the root directory of the file system. *)
Definition rootProject : MemWorld := worldOf [("/tsconfig.json", "{}")].

(** A configuration without comments that holds a URL. *)
Definition schemaConfig : string :=
  jsonText
    ("{'$schema':'https://json.schemastore.org/tsconfig',"
     ++ "'compilerOptions':{'outDir':'dist','rootDir':'src'}}").

Definition projectWithSchema : State :=
  initial [("/proj/tsconfig.json", schemaConfig)].

(** A configuration whose output directory is the placeholder path itself
    and whose source root is the root directory. *)
Definition degenerateProject : State :=
  initial
    [("/d/tsconfig.json",
      jsonText "{'compilerOptions':{'outDir':'a.vue.js','rootDir':'/'}}")].

Definition degeneratePlaceholder : string := "/d/a.vue.js".

(** Sources the compiler of the host accepts, rejects with a diagnostic,
    and crashes on. *)
Definition goodSource : string := "<template><p/></template>".
Definition badSource : string := "<script/>".
Definition crashingSource : string := "".

(** The project after the checker opened an ordinary output file, and
    after it opened the placeholder of the component. *)
Definition scriptOpened : State :=
  afterOpening "/proj/dist/main.js" (project goodSource).

Definition placeholderOpened (vueSource : string) : State :=
  afterOpening placeholder (project vueSource).

Definition degenerateOpened : State :=
  afterOpening degeneratePlaceholder degenerateProject.

(** The write of the placeholder text on the descriptor just opened. *)
Definition placeholderWrite : WriteArgs := textWrite 3 "placeholder".

(** A descriptor that is opened, closed, and handed out again. *)
Definition reuse : list FsCall :=
  [openForWriting "/proj/dist/main.js"; DoClose 3; openForWriting placeholder].

(** The other way round: the descriptor of the placeholder is closed and
    handed out again for an ordinary script. *)
Definition reuseForScript : list FsCall :=
  [openForWriting placeholder; DoClose 3; openForWriting "/proj/dist/main.js"].

(** A second component of the project, a project whose [outDir] is a
    number, a project that emits in place, and a project without the
    source of its component. *)
Definition otherPlaceholder : string := "/proj/dist/Bar.vue.js".

Definition numericOutDirProject : State :=
  initial [("/proj/tsconfig.json", jsonText "{'compilerOptions':{'outDir':1}}")].

Definition inPlaceProject : State :=
  initial [("/proj/tsconfig.json", "{}"); ("/proj/a/Foo.vue", goodSource)].

Definition sourcelessOpened : State := afterOpening placeholder projectWithSibling.

(** A project with source maps switched on, and a compiler for the host
    in memory that returns a script with its source map. *)
Definition mappedProject : State :=
  initial
    [("/proj/tsconfig.json",
      jsonText "{'compilerOptions':{'outDir':'dist','rootDir':'src','sourceMap':true}}");
     ("/proj/src/Foo.vue", goodSource)].

Definition mappedOpened : State := afterOpening placeholder mappedProject.

Definition mappedResult : CompileResult :=
  {| r_js := {| js_code := "export default {}"; js_sourceMap := Some "{}" |};
     r_css := []; r_errors := [] |}.

Definition mappingCompiler : Compiler :=
  {| compileVueSFC := fun w _ _ => (inr mappedResult, w) |}.

(** The map file of the placeholder, the write of the script with the
    comment that names the map, and the worlds after each of the four
    native calls that write the map and the script. *)
Definition mapFile : OpenArgs :=
  {| o_path := PathString "/proj/dist/Foo.vue.js.map"; o_rest := [ArgString "w"] |}.

Definition mappedWrite : WriteArgs :=
  textWrite 3
    ("export default {}" ++ String "010" "//# sourceMappingURL=Foo.vue.js.map").

Definition mapOpened : MemWorld := (memOpen (world mappedOpened) mapFile).2.
Definition mapWritten : MemWorld := (memWrite mapOpened (textWrite 4 "{}")).2.
Definition mapClosed : MemWorld := (memClose mapWritten 4).2.
Definition scriptWritten : MemWorld := (memWrite mapClosed mappedWrite).2.

(** A style of a compilation result. *)
Definition style : CompiledCss :=
  {| css_filename := "Foo.vue.css"; css_code := "p{color:red}";
     css_sourceMap := None |}.

(** A style that names an absolute path, and the placeholder opened with
    a [Buffer] for its path. *)
Definition strayStyle : CompiledCss :=
  {| css_filename := "/tmp/Foo.css"; css_code := "p{color:red}";
     css_sourceMap := None |}.

Definition bufferOpen : OpenArgs :=
  {| o_path := PathBuffer placeholder; o_rest := [ArgString "w"] |}.

(** The calls of a program that writes an ordinary script. *)
Definition ordinaryRun : list FsCall :=
  [openForWriting "/proj/dist/main.js"; DoWrite (textWrite 3 "console.log(1)");
   DoClose 3].

End Scenario.

(** ** A host whose disk is full

    Every path exists and reads as one configuration text that switches
    source maps on; a file can be opened, and every write throws. *)

Module FullDisk.

Inductive DiskExn : Type := ENOSPC.

Definition configuration : string :=
  Scenario.jsonText "{'compilerOptions':{'sourceMap':true}}".

Definition fullDiskHost : Host :=
  {| World := unit;
     HostExn := DiskExn;
     isError := fun _ => true;
     SourceMap := string;
     Diagnostic := string;
     cwd := fun _ => "/";
     existsSync := fun _ _ => true;
     readFileSync := fun _ _ => inr configuration;
     nativeOpenSync := fun w _ => (inr 9%Z, w);
     nativeWriteSync := fun w _ => (inl ENOSPC, w);
     nativeCloseSync := fun w _ => (inr tt, w);
     stringify := fun m => inr m |}.

#[local] Existing Instance fullDiskHost.

Definition fullDiskResult : @CompileResult fullDiskHost :=
  {| r_js := {| js_code := "export default {}"; js_sourceMap := Some "{}" |};
     r_css := []; r_errors := [] |}.

Definition fullDiskCompiler : @Compiler fullDiskHost :=
  {| compileVueSFC := fun w _ _ => (inr fullDiskResult, w) |}.

(** The module after the checker opened a placeholder as descriptor 3. *)
Definition opened : @State fullDiskHost :=
  {| fdToPath := {[ 3%Z := "/p/Foo.vue.js" ]}; tsconfigCache := ∅; world := tt;
     console := []; nativeCalls := [] |}.

End FullDisk.


(** * Properties *)

(** ** Strings and [path.dirname] *)

Lemma length_take n s : String.length (JsString.take n s) = Nat.min n (String.length s).
Proof.
  revert s; induction n as [|n IH]; intros [|c r]; simpl; auto.
Qed.

Lemma dirnameScan_bounds p i m e :
  Path.dirnameScan p i m = Some e ->
  (1 <= e <= i)%nat /\ (m = true -> (e < i)%nat).
Proof.
  revert m; induction i as [|i IH]; intros m; simpl; [discriminate|].
  destruct (JsString.slashAt p (S i)).
  - destruct m; simpl.
    + intros Hs. apply IH in Hs. lia.
    + intros [= <-]. split; [lia | discriminate].
  - intros Hs. apply IH in Hs. lia.
Qed.

Lemma dirname_decreases d :
  Path.dirname d <> d -> (dirMeasure (Path.dirname d) < dirMeasure d)%nat.
Proof.
  unfold Path.dirname.
  destruct d as [|c d'] eqn:Hd; [simpl; unfold dirMeasure; simpl; lia|].
  rewrite <- Hd.
  replace (String.length d =? 0)%nat with false
    by (subst d; reflexivity).
  destruct (Path.dirnameScan d (String.length d - 1) true) as [e|] eqn:Hscan.
  - apply dirnameScan_bounds in Hscan as [He1 He2]. specialize (He2 eq_refl).
    assert (Hlen : (3 <= String.length d)%nat) by lia.
    assert (Hmu : dirMeasure d = S (String.length d)).
    { unfold dirMeasure. destruct d as [|a [|b [|c0 r]]]; simpl in Hlen; try lia.
      destruct (String.eqb_spec (String a (String b (String c0 r))) ".");
        [discriminate|].
      destruct (String.eqb_spec (String a (String b (String c0 r))) "/");
        [discriminate|]. reflexivity. }
    rewrite Hmu.
    destruct (JsString.slashAt d 0 && (e =? 1)%nat); intros _.
    + unfold dirMeasure; simpl. lia.
    + unfold dirMeasure.
      destruct (String.eqb _ "." || String.eqb _ "/"); [lia|].
      rewrite length_take. lia.
  - destruct (JsString.slashAt d 0) eqn:Hroot; intros Hne.
    + unfold dirMeasure at 1; simpl.
      unfold dirMeasure.
      destruct (String.eqb_spec d "/"); [congruence|].
      rewrite orb_false_r. destruct (String.eqb_spec d "."); [|lia].
      subst d. rewrite e in Hroot. discriminate.
    + unfold dirMeasure at 1; simpl.
      unfold dirMeasure.
      destruct (String.eqb_spec d "."); [congruence|]. simpl.
      destruct (String.eqb_spec d "/"); [|lia].
      rewrite e in Hroot. discriminate.
Qed.

Lemma dirMeasure_dirname p :
  (dirMeasure (Path.dirname p) <= S (String.length p))%nat.
Proof.
  unfold Path.dirname.
  destruct (String.length p =? 0)%nat; [unfold dirMeasure; simpl; lia|].
  destruct (Path.dirnameScan p (String.length p - 1) true) as [e|] eqn:Hscan.
  - apply dirnameScan_bounds in Hscan as [He1 He2]. specialize (He2 eq_refl).
    destruct (JsString.slashAt p 0 && (e =? 1)%nat).
    + unfold dirMeasure; simpl. lia.
    + unfold dirMeasure. destruct (_ || _); [lia|]. rewrite length_take. lia.
  - destruct (JsString.slashAt p 0); unfold dirMeasure; simpl; lia.
Qed.

(** ** The recursion budget of [Json.parse] *)

Module JsonFuel.
Import Json.

Abbreviation len := String.length.

Lemma skipWs_length s : (len (skipWs s) <= len s)%nat.
Proof.
  induction s as [|c r IH]; simpl; [lia|]. destruct (isWs c); simpl; lia.
Qed.

Lemma skipWs_cons s c r : skipWs s = String c r -> (len r < len s)%nat.
Proof.
  intros Hs. pose proof (skipWs_length s) as Hl. rewrite Hs in Hl. simpl in Hl. lia.
Qed.

Lemma consChar_Some c r k rest :
  consChar c r = Some (k, rest) -> exists k', r = Some (k', rest).
Proof. destruct r as [[k' rest']|]; simpl; [|done]. intros [= _ <-]. eauto. Qed.

Lemma parseChars_length s k r :
  parseChars s = Some (k, r) -> (len r < len s)%nat.
Proof.
  remember (len s) as n eqn:Hn. revert s k r Hn.
  induction n as [n IH] using lt_wf_ind. intros s k r -> Hp.
  assert (Hrec : forall t k', (len t < len s)%nat ->
                   parseChars t = Some (k', r) -> (len r < len s)%nat).
  { intros t k' Hlt Ht. specialize (IH (len t) Hlt t k' r eq_refl Ht). lia. }
  destruct s as [|c s]; simpl in Hp; [done|].
  destruct (Ascii.eqb c dquote).
  { injection Hp as <- <-. simpl. lia. }
  destruct (Ascii.eqb c "\").
  - destruct s as [|e s']; [done|].
    destruct (simpleEscape e).
    + apply consChar_Some in Hp as [k' Hp].
      apply (Hrec s' k'); [simpl; lia | done].
    + destruct (Ascii.eqb e "u"); [|done].
      destruct s' as [|h1 [|h2 [|h3 [|h4 s'']]]]; try done.
      destruct (hex4 h1 h2 h3 h4) as [code|]; [|done].
      destruct (code <? 256)%Z; [|done].
      apply consChar_Some in Hp as [k' Hp].
      apply (Hrec s'' k'); [simpl; lia | done].
  - destruct (N_of_ascii c <? 32)%N; [done|].
    apply consChar_Some in Hp as [k' Hp].
    apply (Hrec s k'); [simpl; lia | done].
Qed.

Lemma takeDigits_length acc n s :
  (len (takeDigits acc n s).2 <= len s)%nat.
Proof.
  revert acc n; induction s as [|c r IH]; intros acc n; simpl; [lia|].
  destruct (digitOf c); simpl; [|lia]. specialize (IH (acc * 10 + z)%Z (S n)). lia.
Qed.

Lemma parseInt_length s v r : parseInt s = Some (v, r) -> (len r < len s)%nat.
Proof.
  destruct s as [|c s]; [done|]. unfold parseInt.
  destruct (digitOf c) as [d|] eqn:Hd; [|done].
  assert (Hgen : (let '(v, _, rest) := takeDigits 0 0 (String c s) in Some (v, rest))
                 = Some (v, r) -> (len r < len (String c s))%nat).
  { simpl. rewrite Hd.
    pose proof (takeDigits_length (0 * 10 + d) 1 s) as Hl.
    destruct (takeDigits _ _ s) as [[v' m] rest]. simpl in Hl.
    intros [= _ <-]. lia. }
  destruct d; [|exact Hgen..].
  intros [= _ <-]. simpl. lia.
Qed.

Lemma parseFrac_length int s m d r :
  parseFrac int s = Some (m, d, r) -> (len r <= len s)%nat.
Proof.
  destruct s as [|c s]; simpl; [by intros [= _ _ <-]|].
  destruct (Ascii.eqb c ".").
  - pose proof (takeDigits_length int 0 s) as Hl.
    destruct (takeDigits int 0 s) as [[v' [|k]] rest]; [done|].
    simpl in Hl. intros [= _ _ <-]. lia.
  - by intros [= _ _ <-].
Qed.

Lemma parseExp_length s e r : parseExp s = Some (e, r) -> (len r <= len s)%nat.
Proof.
  destruct s as [|c s]; simpl; [by intros [= _ <-]|].
  destruct (Ascii.eqb c "e" || Ascii.eqb c "E"); [|by intros [= _ <-]].
  assert (Hsign : forall neg r1, (len r1 <= len s)%nat ->
    match takeDigits 0 0 r1 with
    | (_, 0%nat, _) => None
    | (v, _, rest) => Some (if neg : bool then (- v)%Z else v, rest)
    end = Some (e, r) -> (len r <= S (len s))%nat).
  { intros neg r1 Hr1. pose proof (takeDigits_length 0 0 r1) as Hl.
    destruct (takeDigits 0 0 r1) as [[v' [|k]] rest]; [done|].
    simpl in Hl. intros [= _ <-]. lia. }
  destruct s as [|sg s']; [apply (Hsign false ""); simpl; lia|].
  destruct (Ascii.eqb sg "-"); [apply (Hsign true s'); simpl; lia|].
  destruct (Ascii.eqb sg "+");
    [apply (Hsign false s') | apply (Hsign false (String sg s'))]; simpl; lia.
Qed.

Lemma parseNumber_length s v r :
  parseNumber s = Some (v, r) -> (len r < len s)%nat.
Proof.
  unfold parseNumber.
  assert (Hbody : forall neg s1, (len s1 <= len s)%nat ->
    match parseInt s1 with
    | Some (int, s2) =>
        match parseFrac int s2 with
        | Some (mant, fracDigits, s3) =>
            match parseExp s3 with
            | Some (e, s4) =>
                Some (JNum (if neg : bool then (- mant)%Z else mant)
                           (e - Z.of_nat fracDigits)%Z, s4)
            | None => None
            end
        | None => None
        end
    | None => None
    end = Some (v, r) -> (len r < len s)%nat).
  { intros neg s1 Hs1.
    destruct (parseInt s1) as [[int s2]|] eqn:Hi; [|done].
    apply parseInt_length in Hi.
    destruct (parseFrac int s2) as [[[mant fd] s3]|] eqn:Hf; [|done].
    apply parseFrac_length in Hf.
    destruct (parseExp s3) as [[e s4]|] eqn:He; [|done].
    apply parseExp_length in He. intros [= _ <-]. lia. }
  destruct s as [|c s']; [apply (Hbody false ""); lia|].
  destruct (Ascii.eqb c "-");
    [apply (Hbody true s') | apply (Hbody false (String c s'))]; simpl; lia.
Qed.

Lemma startsWith_length s p :
  JsString.startsWith s p = true -> (len p <= len s)%nat.
Proof.
  revert s; induction p as [|a p IH]; intros [|b s]; simpl; try done; try lia.
  intros [_ Hs]%andb_true_iff. apply IH in Hs. lia.
Qed.

Lemma length_drop n s : len (JsString.drop n s) = (len s - n)%nat.
Proof. revert s; induction n as [|n IH]; intros [|c s]; simpl; auto. Qed.

Lemma parseLiteral_length s v r :
  parseLiteral s = Some (v, r) -> (len r < len s)%nat.
Proof.
  unfold parseLiteral.
  destruct (JsString.startsWith s "true") eqn:Ht.
  { intros Heq. assert (Hr : JsString.drop 4 s = r) by congruence.
    apply startsWith_length in Ht. rewrite <- Hr, length_drop.
    simpl in Ht. lia. }
  destruct (JsString.startsWith s "false") eqn:Hf.
  { intros Heq. assert (Hr : JsString.drop 5 s = r) by congruence.
    apply startsWith_length in Hf. rewrite <- Hr, length_drop.
    simpl in Hf. lia. }
  destruct (JsString.startsWith s "null") eqn:Hn; [|done].
  intros Heq. assert (Hr : JsString.drop 4 s = r) by congruence.
  apply startsWith_length in Hn. rewrite <- Hr, length_drop.
  simpl in Hn. lia.
Qed.

Lemma ofOption_length o s v r :
  (forall v r, o = Some (v, r) -> (len r < len s)%nat) ->
  ofOption o = Ok v r -> (len r < len s)%nat.
Proof. intros Ho. destruct o as [[v' r']|]; simpl; [|done]. intros [= <- <-]. eauto. Qed.

(** What is left after a value is shorter than what was given. *)
Lemma parse_consumes fuel :
  (forall s v r, parseValue fuel s = Ok v r -> (len r < len s)%nat)
  /\ (forall s acc v r, parseMembers fuel s acc = Ok v r -> (len r < len s)%nat)
  /\ (forall s acc v r, parseElements fuel s acc = Ok v r -> (len r < len s)%nat).
Proof.
  induction fuel as [|f (IHv & IHm & IHe)]; [by repeat split|].
  split; [|split].
  - intros s v r. simpl.
    destruct (skipWs s) as [|c t] eqn:Hs; [done|]. apply skipWs_cons in Hs.
    destruct (Ascii.eqb c "{").
    { destruct (skipWs t) as [|c' t'] eqn:Ht; [done|]. apply skipWs_cons in Ht.
      destruct (Ascii.eqb c' "}").
      - intros [= _ <-]. lia.
      - intros Hm%IHm. lia. }
    destruct (Ascii.eqb c "[").
    { destruct (skipWs t) as [|c' t'] eqn:Ht; [done|]. apply skipWs_cons in Ht.
      destruct (Ascii.eqb c' "]").
      - intros [= _ <-]. lia.
      - intros Hm%IHe. lia. }
    destruct (Ascii.eqb c dquote).
    { destruct (parseChars t) as [[str rest]|] eqn:Hc; [|done].
      apply parseChars_length in Hc. intros [= _ <-]. lia. }
    destruct (Ascii.eqb c "-" || isDigit c).
    + intros Ho. eapply ofOption_length in Ho.
      * instantiate (1 := String c t) in Ho. simpl in Ho. lia.
      * apply parseNumber_length.
    + intros Ho. eapply ofOption_length in Ho.
      * instantiate (1 := String c t) in Ho. simpl in Ho. lia.
      * apply parseLiteral_length.
  - intros s acc v r. simpl.
    destruct (skipWs s) as [|c t] eqn:Hs; [done|]. apply skipWs_cons in Hs.
    destruct (Ascii.eqb c dquote); [|done].
    destruct (parseChars t) as [[key r1]|] eqn:Hc; [|done].
    apply parseChars_length in Hc.
    destruct (skipWs r1) as [|c1 r2] eqn:H1; [done|]. apply skipWs_cons in H1.
    destruct (Ascii.eqb c1 ":"); [|done].
    destruct (parseValue f r2) as [v' r3| |] eqn:Hv; [|done..].
    apply IHv in Hv.
    destruct (skipWs r3) as [|c3 r4] eqn:H3; [done|]. apply skipWs_cons in H3.
    destruct (Ascii.eqb c3 ",").
    + intros Hm%IHm. lia.
    + destruct (Ascii.eqb c3 "}"); [|done]. intros [= _ <-]. lia.
  - intros s acc v r. simpl.
    destruct (parseValue f s) as [v' r1| |] eqn:Hv; [|done..].
    apply IHv in Hv.
    destruct (skipWs r1) as [|c r2] eqn:H1; [done|]. apply skipWs_cons in H1.
    destruct (Ascii.eqb c ",").
    + intros Hm%IHe. lia.
    + destruct (Ascii.eqb c "]"); [|done]. intros [= _ <-]. lia.
Qed.

(** A budget of twice the length of the text is never exhausted. *)
Lemma parse_fuel fuel :
  (forall s, (2 * len s + 1 <= fuel)%nat -> parseValue fuel s <> OutOfFuel)
  /\ (forall s acc, (2 * len s + 1 <= fuel)%nat ->
                    parseMembers fuel s acc <> OutOfFuel)
  /\ (forall s acc, (2 * len s + 2 <= fuel)%nat ->
                    parseElements fuel s acc <> OutOfFuel).
Proof.
  induction fuel as [|f (IHv & IHm & IHe)]; [repeat split; intros; lia|].
  destruct (parse_consumes f) as (Cv & Cm & Ce).
  split; [|split].
  - intros s Hl. simpl.
    destruct (skipWs s) as [|c t] eqn:Hs; [done|]. apply skipWs_cons in Hs.
    destruct (Ascii.eqb c "{").
    { destruct (skipWs t) as [|c' t'] eqn:Ht; [done|].
      destruct (Ascii.eqb c' "}"); [done|]. apply IHm. lia. }
    destruct (Ascii.eqb c "[").
    { destruct (skipWs t) as [|c' t'] eqn:Ht; [done|].
      destruct (Ascii.eqb c' "]"); [done|]. apply IHe. lia. }
    destruct (Ascii.eqb c dquote).
    { destruct (parseChars t) as [[str rest]|]; done. }
    destruct (Ascii.eqb c "-" || isDigit c).
    + destruct (parseNumber (String c t)) as [[v r]|]; done.
    + destruct (parseLiteral (String c t)) as [[v r]|]; done.
  - intros s acc Hl. simpl.
    destruct (skipWs s) as [|c t] eqn:Hs; [done|]. apply skipWs_cons in Hs.
    destruct (Ascii.eqb c dquote); [|done].
    destruct (parseChars t) as [[key r1]|] eqn:Hc; [|done].
    apply parseChars_length in Hc.
    destruct (skipWs r1) as [|c1 r2] eqn:H1; [done|]. apply skipWs_cons in H1.
    destruct (Ascii.eqb c1 ":"); [|done].
    destruct (parseValue f r2) as [v' r3| |] eqn:Hv; [|done|].
    + apply Cv in Hv.
      destruct (skipWs r3) as [|c3 r4] eqn:H3; [done|]. apply skipWs_cons in H3.
      destruct (Ascii.eqb c3 ","); [apply IHm; lia|].
      destruct (Ascii.eqb c3 "}"); done.
    + exfalso. revert Hv. apply IHv. lia.
  - intros s acc Hl. simpl.
    destruct (parseValue f s) as [v' r1| |] eqn:Hv; [|done|].
    + apply Cv in Hv.
      destruct (skipWs r1) as [|c r2] eqn:H1; [done|]. apply skipWs_cons in H1.
      destruct (Ascii.eqb c ","); [apply IHe; lia|].
      destruct (Ascii.eqb c "]"); done.
    + exfalso. revert Hv. apply IHv. lia.
Qed.

(** [Json.parse] fails on a syntax error only. *)
Lemma parse_None text :
  parse text = None -> parseWith (2 * len text + 2) text = SyntaxErr.
Proof.
  unfold parse, parseWith.
  destruct (parse_fuel (2 * len text + 2)) as (Hv & _).
  specialize (Hv text ltac:(lia)).
  destruct (parseValue _ text) as [v r| |]; [|done..].
  destruct (String.eqb (skipWs r) ""); done.
Qed.
End JsonFuel.

(** ** The comment replacement *)

(** A text without [//] and [/*] is left as it is. *)
Lemma removeComments_plain s :
  noCommentStart s -> CommentRegex.removeComments s = s.
Proof.
  unfold CommentRegex.removeComments.
  induction s as [|a r IH]; [reflexivity|]. intros [Hhead Hrest].
  assert (Hnone : CommentRegex.matchLength (String a r) = None).
  { destruct r as [|b r']; [reflexivity|]. unfold CommentRegex.matchLength.
    destruct (Ascii.eqb_spec a "/") as [->|Ha]; simpl; [|reflexivity].
    destruct (Ascii.eqb_spec b "*") as [->|Hb1]; [exfalso; apply Hhead; auto|].
    destruct (Ascii.eqb_spec b "/") as [->|Hb2]; [exfalso; apply Hhead; auto|].
    reflexivity. }
  change (CommentRegex.replaceGo 0 (String a r))
    with (match CommentRegex.matchLength (String a r) with
          | Some (S k) => CommentRegex.replaceGo k r
          | _ => String a (CommentRegex.replaceGo 0 r)
          end).
  rewrite Hnone, IH by done. reflexivity.
Qed.

(** ** Paths in normal form *)

Lemma append_cons x (a b : string) : String x a ++ b = String x (a ++ b).
Proof. reflexivity. Qed.

Lemma append_assoc (a b c : string) : (a ++ b) ++ c = a ++ (b ++ c).
Proof.
  induction a as [|x a IH]; [reflexivity|]. by rewrite !append_cons, IH.
Qed.

Lemma append_empty_r (a : string) : a ++ "" = a.
Proof. induction a as [|x a IH]; [reflexivity|]. by rewrite append_cons, IH. Qed.

Lemma length_append (a b : string) :
  String.length (a ++ b) = (String.length a + String.length b)%nat.
Proof.
  induction a as [|x a IH]; [reflexivity|]. rewrite append_cons. simpl. by rewrite IH.
Qed.

Lemma split_nonempty s : Path.split s <> [].
Proof.
  destruct s as [|c r]; simpl; [done|].
  destruct (Ascii.eqb c "/"); [done|]. destruct (Path.split r); done.
Qed.

Lemma split_noSlash s : noSlash s -> Path.split s = [s].
Proof.
  induction s as [|c r IH]; simpl; [done|]. intros [Hc Hr].
  destruct (Ascii.eqb_spec c "/"); [done|]. by rewrite (IH Hr).
Qed.

Lemma split_append a b :
  Path.split (a ++ "/" ++ b) = (Path.split a ++ Path.split b)%list.
Proof.
  induction a as [|c a IH]; [reflexivity|].
  rewrite append_cons. simpl.
  destruct (Ascii.eqb c "/"); simpl.
  - by rewrite <- IH.
  - rewrite IH.
    pose proof (split_nonempty a). destruct (Path.split a); done.
Qed.

Lemma joinSegs_cons x l :
  l <> [] -> Path.joinSegs (x :: l) = x ++ "/" ++ Path.joinSegs l.
Proof. destruct l; done. Qed.

Lemma joinSegs_app a b :
  a <> [] -> b <> [] ->
  Path.joinSegs (a ++ b) = Path.joinSegs a ++ "/" ++ Path.joinSegs b.
Proof.
  intros Ha Hb. induction a as [|x a IH]; [done|].
  destruct a as [|y a].
  - simpl app. by rewrite joinSegs_cons.
  - change ((x :: y :: a) ++ b)%list with (x :: ((y :: a) ++ b))%list.
    rewrite joinSegs_cons by done. rewrite IH by done.
    rewrite (joinSegs_cons x (y :: a)) by done.
    by rewrite !append_assoc.
Qed.

Lemma segmentsOf_append a b :
  Path.segmentsOf (a ++ "/" ++ b) = (Path.segmentsOf a ++ Path.segmentsOf b)%list.
Proof. unfold Path.segmentsOf. by rewrite split_append, filter_app. Qed.

Lemma cleanSegment_nonEmpty s : cleanSegment s -> JsString.truthy s = true.
Proof. intros (_ & Hne & _). destruct s; done. Qed.

Lemma segmentsOf_clean s : cleanSegment s -> Path.segmentsOf s = [s].
Proof.
  intros Hc. unfold Path.segmentsOf. rewrite split_noSlash by apply Hc.
  rewrite filter_cons_True by by apply cleanSegment_nonEmpty. done.
Qed.

Lemma segmentsOf_joinSegs segs :
  Forall cleanSegment segs -> Path.segmentsOf (Path.joinSegs segs) = segs.
Proof.
  induction 1 as [|x l Hx Hl IH]; [done|].
  destruct l as [|y l]; [by apply segmentsOf_clean|].
  rewrite joinSegs_cons by done.
  by rewrite segmentsOf_append, IH, segmentsOf_clean.
Qed.

Lemma segmentsOf_absPath segs :
  Forall cleanSegment segs -> Path.segmentsOf (absPath segs) = segs.
Proof.
  intros Hs. unfold absPath.
  change ("/" ++ Path.joinSegs segs) with ("" ++ "/" ++ Path.joinSegs segs).
  by rewrite segmentsOf_append, segmentsOf_joinSegs.
Qed.

Lemma plainPath_append a b : plainPath a -> plainPath b -> plainPath (a ++ "/" ++ b).
Proof. unfold plainPath. rewrite split_append. apply Forall_app_2. Qed.

Lemma plainPath_empty : plainPath "".
Proof. constructor; [by left | constructor]. Qed.

Lemma plainPath_joinSegs segs : Forall cleanSegment segs -> plainPath (Path.joinSegs segs).
Proof.
  induction 1 as [|x l Hx Hl IH]; [apply plainPath_empty|].
  destruct l as [|y l].
  - unfold plainPath. simpl. rewrite split_noSlash by apply Hx.
    constructor; [by right | constructor].
  - rewrite joinSegs_cons by done. apply plainPath_append; [|done].
    unfold plainPath. rewrite split_noSlash by apply Hx.
    constructor; [by right | constructor].
Qed.

Lemma plainPath_absPath segs : Forall cleanSegment segs -> plainPath (absPath segs).
Proof.
  intros Hs. unfold absPath.
  change ("/" ++ Path.joinSegs segs) with ("" ++ "/" ++ Path.joinSegs segs).
  apply plainPath_append; [apply plainPath_empty | by apply plainPath_joinSegs].
Qed.

Lemma normStep_plain b stack segs :
  Forall plainSegment segs ->
  fold_left (Path.normStep b) segs stack
  = (rev (filter nonEmpty segs) ++ stack)%list.
Proof.
  intros Hs. revert stack. induction Hs as [|x l Hx Hl IH]; intros stack; [done|].
  simpl. rewrite IH. destruct Hx as [-> | (Hns & Hne & Hd & Hdd)].
  - rewrite filter_cons_False by done. reflexivity.
  - rewrite filter_cons_True by (destruct x; done).
    unfold Path.normStep.
    destruct (String.eqb_spec x ""); [done|].
    destruct (String.eqb_spec x "."); [done|].
    destruct (String.eqb_spec x ".."); [done|].
    simpl. by rewrite <- app_assoc.
Qed.

(** Normalising a plain path only drops its empty segments. *)
Lemma normalizeString_plain p b :
  plainPath p -> Path.normalizeString p b = Path.joinSegs (Path.segmentsOf p).
Proof.
  intros Hp. unfold Path.normalizeString, Path.segmentsOf.
  rewrite normStep_plain by done. by rewrite app_nil_r, rev_involutive.
Qed.

Lemma isAbsolute_absPath segs x : Path.isAbsolute (absPath segs ++ x) = true.
Proof. reflexivity. Qed.

(** A path in normal form resolves to itself. *)
Lemma resolve_absPath cwd segs :
  Forall cleanSegment segs -> Path.resolve cwd [absPath segs] = absPath segs.
Proof.
  intros Hs. unfold Path.resolve. simpl.
  change (Path.isAbsolute (absPath segs)) with true. cbv beta iota.
  rewrite normalizeString_plain.
  - change ("/" ++ Path.joinSegs segs ++ "/" ++ "")
      with ("/" ++ (Path.joinSegs segs ++ "/" ++ "")).
    change (absPath segs ++ "/" ++ "") with ("" ++ "/" ++ (Path.joinSegs segs ++ "/" ++ "")).
    by rewrite !segmentsOf_append, segmentsOf_joinSegs, app_nil_r.
  - change (absPath segs ++ "/" ++ "") with ("" ++ "/" ++ (Path.joinSegs segs ++ "/" ++ "")).
    apply plainPath_append; [apply plainPath_empty|].
    apply plainPath_append; [by apply plainPath_joinSegs | apply plainPath_empty].
Qed.

Lemma startsWith_append a b : JsString.startsWith (a ++ b) a = true.
Proof.
  induction a as [|c a IH]; [by destruct b|].
  rewrite append_cons. simpl. by rewrite Ascii.eqb_refl, IH.
Qed.

Lemma take_append a b : JsString.take (String.length a) (a ++ b) = a.
Proof.
  induction a as [|c a IH]; [by destruct b|].
  rewrite append_cons. simpl. by rewrite IH.
Qed.

(** Stripping three code units undoes appending [.js]. *)
Lemma slice_0_m3_js x : JsString.slice_0_m3 (x ++ ".js") = x.
Proof.
  unfold JsString.slice_0_m3. rewrite length_append. simpl.
  replace (String.length x + 3 - 3)%nat with (String.length x) by lia.
  apply take_append.
Qed.

Lemma joinSegs_snoc_append l name ext :
  Path.joinSegs (l ++ [name ++ ext]) = Path.joinSegs (l ++ [name]) ++ ext.
Proof.
  induction l as [|x l IH]; [reflexivity|].
  rewrite <- !app_comm_cons.
  rewrite !joinSegs_cons by (by destruct l).
  by rewrite IH, !append_assoc.
Qed.

Lemma absPath_app_prefix os rel :
  exists x, absPath (os ++ rel) = absPath os ++ x.
Proof.
  unfold absPath. destruct os as [|o os].
  - exists (Path.joinSegs rel). reflexivity.
  - destruct rel as [|r rel].
    + exists "". by rewrite app_nil_r, append_empty_r.
    + exists ("/" ++ Path.joinSegs (r :: rel)).
      rewrite joinSegs_app by done. by rewrite !append_assoc.
Qed.

Lemma absPath_inj a b :
  Forall cleanSegment a -> Forall cleanSegment b -> absPath a = absPath b -> a = b.
Proof.
  intros Ha Hb Heq.
  rewrite <- (segmentsOf_absPath a Ha), <- (segmentsOf_absPath b Hb). by rewrite Heq.
Qed.

Lemma dropCommon_app os rel : Path.dropCommon os (os ++ rel) = ([], rel).
Proof.
  induction os as [|o os IH]; [by destruct rel|].
  simpl. by rewrite String.eqb_refl.
Qed.

(** From a directory in normal form to a path below it. *)
Lemma relative_below cwd os rel :
  Forall cleanSegment os -> Forall cleanSegment rel -> rel <> [] ->
  Path.relative cwd (absPath os) (absPath (os ++ rel)) = Path.joinSegs rel.
Proof.
  intros Ho Hr Hne.
  assert (Hor : Forall cleanSegment (os ++ rel)) by by apply Forall_app_2.
  assert (Hdiff : absPath os <> absPath (os ++ rel)).
  { intros Heq%absPath_inj; [|done..].
    apply (f_equal length) in Heq. rewrite length_app in Heq.
    destruct rel; [done|]. simpl in Heq. lia. }
  unfold Path.relative.
  destruct (String.eqb_spec (absPath os) (absPath (os ++ rel))); [done|].
  rewrite !resolve_absPath by done.
  destruct (String.eqb_spec (absPath os) (absPath (os ++ rel))); [done|].
  rewrite !segmentsOf_absPath by done.
  by rewrite dropCommon_app.
Qed.

Lemma noSlash_slashAt s i : noSlash s -> JsString.slashAt s i = false.
Proof.
  unfold JsString.slashAt. revert i; induction s as [|c s IH]; intros i; [done|].
  intros [Hc Hs]. destruct i as [|i]; simpl.
  - by destruct (Ascii.eqb_spec c "/").
  - by apply IH.
Qed.

Lemma trailingSlash_append a b :
  b <> "" -> trailingSlash (a ++ b) = trailingSlash b.
Proof.
  intros Hb. unfold trailingSlash.
  induction a as [|c a IH]; [reflexivity|].
  rewrite append_cons. simpl String.length.
  assert (Hl : (0 < String.length (a ++ b))%nat).
  { rewrite length_append. destruct b; [done|]. simpl. lia. }
  replace (S (String.length (a ++ b)) - 1)%nat
    with (S (String.length (a ++ b) - 1)) by lia.
  exact IH.
Qed.

Lemma joinSegs_nonEmpty l :
  Forall cleanSegment l -> l <> [] -> Path.joinSegs l <> "".
Proof.
  intros Hl Hne. destruct Hl as [|x l Hx Hl]; [done|].
  destruct Hx as (_ & Hx & _). destruct x as [|c x]; [done|].
  destruct l; [done|]. by rewrite joinSegs_cons.
Qed.

Lemma trailingSlash_joinSegs l :
  Forall cleanSegment l -> l <> [] -> trailingSlash (Path.joinSegs l) = false.
Proof.
  induction 1 as [|x l Hx Hl IH]; [done|]. intros _.
  destruct l as [|y l].
  - apply noSlash_slashAt, Hx.
  - rewrite joinSegs_cons by done.
    rewrite trailingSlash_append.
    + change ("/" ++ Path.joinSegs (y :: l)) with (String "/" "" ++ Path.joinSegs (y :: l)).
      rewrite trailingSlash_append; [by apply IH|].
      by apply joinSegs_nonEmpty.
    + done.
Qed.

(** Joining a directory in normal form and a clean relative path. *)
Lemma join_below rs rel :
  Forall cleanSegment rs -> Forall cleanSegment rel -> rel <> [] ->
  Path.join [absPath rs; Path.joinSegs rel] = absPath (rs ++ rel).
Proof.
  intros Hrs Hrel Hne.
  pose proof (joinSegs_nonEmpty rel Hrel Hne) as Hj.
  unfold Path.join.
  rewrite filter_cons_True by done.
  rewrite filter_cons_True by (by destruct (Path.joinSegs rel)).
  rewrite filter_nil.
  change (Path.joinSegs [absPath rs; Path.joinSegs rel])
    with (absPath rs ++ "/" ++ Path.joinSegs rel).
  set (p := absPath rs ++ "/" ++ Path.joinSegs rel).
  assert (Hsegs : Path.segmentsOf p = (rs ++ rel)%list).
  { subst p. by rewrite segmentsOf_append, segmentsOf_absPath, segmentsOf_joinSegs. }
  assert (Hplain : plainPath p).
  { subst p. apply plainPath_append;
      [by apply plainPath_absPath | by apply plainPath_joinSegs]. }
  assert (Htrail : trailingSlash p = false).
  { subst p. rewrite trailingSlash_append by done.
    change ("/" ++ Path.joinSegs rel) with (String "/" "" ++ Path.joinSegs rel).
    rewrite trailingSlash_append by done. by apply trailingSlash_joinSegs. }
  unfold Path.normalize. fold (trailingSlash p). rewrite Htrail.
  assert (Hlen : (String.length p =? 0)%nat = false).
  { subst p. reflexivity. }
  rewrite Hlen. change (Path.isAbsolute p) with true. cbv beta iota zeta.
  rewrite normalizeString_plain, Hsegs by done.
  assert (Hq : Path.joinSegs (rs ++ rel) <> "").
  { apply joinSegs_nonEmpty; [by apply Forall_app_2 | by destruct rs]. }
  unfold absPath.
  destruct (Path.joinSegs (rs ++ rel)) eqn:Hjoin; [done|]. reflexivity.
Qed.

Lemma cleanSegment_js name : noSlash name -> cleanSegment (name ++ ".js").
Proof.
  intros Hn. split; [|split; [|split]].
  - induction name as [|c name IH]; [by repeat split|].
    rewrite append_cons. destruct Hn as [Hc Hn]. split; [done | by apply IH].
  - by destruct name.
  - destruct name as [|c [|d name]]; done.
  - destruct name as [|c [|d [|e name]]]; done.
Qed.

(** ** The interceptor *)

(** Unfolds the monad so that a computation applied to a state reduces. *)
Ltac unfoldM :=
  cbv beta iota zeta delta
    [mbind M_bind mret M_ret mthrow M_throw gets modify consoleError ofHost
     tryCatch].

Create HintDb table discriminated.
Create HintDb provenance discriminated.
Create HintDb adds discriminated.
Create HintDb opens discriminated.

Section Properties.
Context `{Compiler}.

Lemma findTsConfigLoop_terminates w fuel dir :
  (dirMeasure dir < fuel)%nat -> findTsConfigLoop fuel w dir <> None.
Proof.
  revert dir; induction fuel as [|fuel IH]; intros dir Hlt; [lia|].
  simpl. destruct (String.eqb_spec dir (Path.dirname dir)) as [Heq|Hne]; simpl.
  - discriminate.
  - destruct (existsSync w _); [discriminate|].
    apply IH. assert (Hd := dirname_decreases dir). 
    assert (Path.dirname dir <> dir) by congruence. specialize (Hd H1). lia.
Qed.

Lemma findTsConfigLoop_more_fuel w fuel fuel' dir r :
  findTsConfigLoop fuel w dir = Some r -> (fuel <= fuel')%nat ->
  findTsConfigLoop fuel' w dir = Some r.
Proof.
  revert fuel' dir; induction fuel as [|fuel IH]; intros fuel' dir; [discriminate|].
  destruct fuel' as [|fuel']; [lia|]. simpl.
  destruct (negb _); [|auto]. destruct (existsSync w _); [auto|].
  intros Hr Hle. apply IH; [assumption | lia].
Qed.

(** [findTsConfig] returns what the loop returns: the budget it is given
    always suffices. *)
Lemma findTsConfig_loop w filePath :
  findTsConfigLoop (String.length filePath + 3) w (Path.dirname filePath)
  = Some (findTsConfig w filePath).
Proof.
  unfold findTsConfig.
  destruct (findTsConfigLoop _ w _) as [r|] eqn:Hloop; [reflexivity|].
  exfalso. revert Hloop. apply findTsConfigLoop_terminates.
  pose proof (dirMeasure_dirname filePath). lia.
Qed.

Lemma normalize_nonempty p : Path.normalize p <> "".
Proof.
  unfold Path.normalize.
  destruct (String.length p =? 0)%nat; [discriminate|].
  destruct (String.length (Path.normalizeString p _) =? 0)%nat eqn:Hq.
  - destruct (Path.isAbsolute p); [discriminate|].
    destruct (JsString.slashAt p _); discriminate.
  - destruct (Path.normalizeString p _) as [|c q]; [discriminate|].
    destruct (JsString.slashAt p _), (Path.isAbsolute p); discriminate.
Qed.

Lemma join_tsconfig_truthy dir :
  JsString.truthy (Path.join [dir; "tsconfig.json"]) = true.
Proof.
  unfold Path.join, JsString.truthy.
  destruct (filter _ _) as [|a l]; [reflexivity|].
  destruct (String.eqb_spec (Path.normalize (Path.joinSegs (a :: l))) "") as [E|E];
    [|reflexivity].
  exfalso; revert E; apply normalize_nonempty.
Qed.

Lemma findTsConfigLoop_truthy w fuel dir tp :
  findTsConfigLoop fuel w dir = Some (Some tp) -> JsString.truthy tp = true.
Proof.
  revert dir; induction fuel as [|fuel IH]; intros dir; simpl; [discriminate|].
  destruct (negb _); [|discriminate].
  destruct (existsSync w _) eqn:Hex.
  - intros [= <-]. apply join_tsconfig_truthy.
  - apply IH.
Qed.

Lemma findTsConfig_truthy w filePath tp :
  findTsConfig w filePath = Some tp -> JsString.truthy tp = true.
Proof.
  intros Hf. pose proof (findTsConfig_loop w filePath) as Hl.
  rewrite Hf in Hl. eapply findTsConfigLoop_truthy; eassumption.
Qed.

(** The loop of [findTsConfig] returns the first candidate that exists
    among the directories of its walk. *)
Lemma findTsConfigLoop_ancestors w fuel dir r :
  findTsConfigLoop fuel w dir = Some r ->
  r = head (filter (fun c => existsSync w c = true)
              (map candidate (ancestors fuel dir))).
Proof.
  revert dir; induction fuel as [|fuel IH]; intros dir; simpl; [discriminate|].
  destruct (negb (String.eqb dir (Path.dirname dir))); [|by intros [= <-]].
  simpl. fold (candidate dir).
  destruct (existsSync w (candidate dir)) eqn:Hex.
  - intros [= <-]. by rewrite filter_cons_True.
  - intros Hloop. rewrite filter_cons_False by (by rewrite Hex). by apply IH.
Qed.

Lemma findTsConfig_ancestors w filePath :
  findTsConfig w filePath
  = head (filter (fun c => existsSync w c = true)
            (map candidate
               (ancestors (String.length filePath + 3) (Path.dirname filePath)))).
Proof. apply findTsConfigLoop_ancestors, findTsConfig_loop. Qed.

(** The walk never holds a directory that is its own parent: neither the
    root directory nor [.] is looked into. *)
Lemma ancestors_move fuel dir d :
  d ∈ ancestors fuel dir -> Path.dirname d <> d.
Proof.
  revert dir; induction fuel as [|fuel IH]; intros dir; simpl;
    [by intros ?%elem_of_nil|].
  destruct (String.eqb_spec dir (Path.dirname dir)) as [Heq|Hne]; simpl;
    [by intros ?%elem_of_nil|].
  intros [->|Hin]%elem_of_cons; [congruence | by eapply IH].
Qed.

(** The [try] block of [getTsConfigPaths] computes [settingsOf] and
    stores a record it obtains; it leaves the state alone when it
    throws. *)
Lemma loadTsConfig_settingsOf tp st :
  loadTsConfig tp st =
  match settingsOf (world st) tp with
  | inl e => (inl e, st)
  | inr r => (inr (Some r), setTsconfigCache (<[tp := r]> (tsconfigCache st)) st)
  end.
Proof.
  unfold loadTsConfig, settingsOf, callReadFileSync, readProp, resolveOption.
  unfoldM.
  destruct (readFileSync (world st) tp) as [e|content]; cbv beta iota; [reflexivity|].
  destruct (Json.parse _) as [tsconfig|]; cbv beta iota; [|reflexivity].
  unfold settingsOfJson, compilerOptionsOf.
  destruct (Json.prop tsconfig "compilerOptions") as [[]|co]; cbv beta iota;
    [reflexivity|].
  replace (match co with Some v => if Json.truthy co then v else Json.JObj []
                    | None => Json.JObj [] end)
    with (match co with Some v => if Json.truthy (Some v) then v else Json.JObj []
                   | None => Json.JObj [] end)
    by (destruct co; reflexivity).
  set (compilerOptions := match co with Some v => _ | None => _ end).
  assert (Hobj : forall key, exists o, Json.prop compilerOptions key = inr o).
  { intros key. subst compilerOptions.
    destruct co as [[]|]; simpl; eauto; destruct (_ : bool); simpl; eauto. }
  unfold directoryOf.
  destruct (Hobj "outDir") as [od ->], (Hobj "rootDir") as [rd ->],
    (Hobj "sourceMap") as [sm ->].
  cbv beta iota.
  destruct (Json.truthy od);
    [destruct od as [[]|]; cbv beta iota; try reflexivity|];
    (destruct (Json.truthy rd);
     [destruct rd as [[]|]; cbv beta iota; try reflexivity|];
     destruct sm as [[| [] | | | |]|]; reflexivity).
Qed.

(** [getTsConfigPaths] never throws.  It returns the cached record when
    there is one, else the settings of the nearest configuration file,
    which it then caches; a file that fails to load is logged. *)
Lemma getTsConfigPaths_cases filePath st :
  getTsConfigPaths filePath st =
  match findTsConfig (world st) filePath with
  | None => (inr None, st)
  | Some tp =>
      match tsconfigCache st !! tp with
      | Some r => (inr (Some r), st)
      | None =>
          match settingsOf (world st) tp with
          | inr r =>
              (inr (Some r), setTsconfigCache (<[tp := r]> (tsconfigCache st)) st)
          | inl e =>
              (inr None,
               addLog [LogText "Failed to parse tsconfig.json:"; LogThrown e] st)
          end
      end
  end.
Proof.
  unfold getTsConfigPaths. unfoldM.
  destruct (findTsConfig (world st) filePath) as [tp|] eqn:Hfind; [|reflexivity].
  rewrite (findTsConfig_truthy _ _ _ Hfind). simpl.
  destruct (tsconfigCache st !! tp); [reflexivity|].
  rewrite loadTsConfig_settingsOf.
  destruct (settingsOf (world st) tp); reflexivity.
Qed.

(** What [getTsConfigPaths] leaves untouched, and that it keeps the
    cache consistent. *)
Lemma getTsConfigPaths_frame filePath st :
  exists r st',
    getTsConfigPaths filePath st = (inr r, st')
    /\ world st' = world st /\ fdToPath st' = fdToPath st
    /\ nativeCalls st' = nativeCalls st
    /\ (cacheConsistent st -> cacheConsistent st').
Proof.
  rewrite getTsConfigPaths_cases.
  destruct (findTsConfig (world st) filePath) as [tp|]; [|by eauto 10].
  destruct (tsconfigCache st !! tp) as [r|] eqn:Hc; [by eauto 10|].
  destruct (settingsOf (world st) tp) as [e|r] eqn:Hs.
  - eexists _, _; repeat split; eauto.
  - eexists _, _; repeat split; eauto.
    intros Hcons tp' r'. simpl.
    destruct (decide (tp = tp')) as [<-|Hne].
    + rewrite lookup_insert_eq. intros [= <-]. exact Hs.
    + rewrite lookup_insert_ne by done. apply Hcons.
Qed.

(** A state whose cache is empty is consistent. *)
Lemma cacheConsistent_empty st : tsconfigCache st = ∅ -> cacheConsistent st.
Proof. intros Hc tp r. by rewrite Hc, lookup_empty. Qed.

(** The record of a configuration that is an object whose
    [compilerOptions] is an object and whose [outDir] and [rootDir] are
    strings where they are given: each directory is resolved against the
    project root, which is also the default, and the flag is the option
    compared with [true]. *)
Lemma settingsOfJson_wellFormed w projectRoot members options :
  Json.lookupMember members "compilerOptions" = Some (Json.JObj options) ->
  (forall key, key = "outDir" \/ key = "rootDir" ->
               Json.lookupMember options key = None
               \/ exists s, Json.lookupMember options key = Some (Json.JStr s)) ->
  settingsOfJson w projectRoot (Json.JObj members)
  = inr {| outDir := directoryOption w projectRoot options "outDir";
           rootDir := directoryOption w projectRoot options "rootDir";
           sourceMap := isTrue (inr (Json.lookupMember options "sourceMap")) |}.
Proof.
  intros Hco Hdirs. unfold settingsOfJson, compilerOptionsOf, directoryOption.
  simpl. rewrite Hco. simpl.
  destruct (Hdirs "outDir" (or_introl eq_refl)) as [-> | [o ->]],
    (Hdirs "rootDir" (or_intror eq_refl)) as [-> | [r ->]]; simpl;
    try destruct (JsString.truthy o); try destruct (JsString.truthy r); reflexivity.
Qed.

(** On its first lookup, a well-typed configuration in which no [//] and
    no [/*] occurs yields that record. *)
Lemma getTsConfigPaths_plain_configuration
    filePath st tp content members options :
  findTsConfig (world st) filePath = Some tp ->
  tsconfigCache st !! tp = None ->
  readFileSync (world st) tp = inr content ->
  noCommentStart content ->
  Json.parse content = Some (Json.JObj members) ->
  Json.lookupMember members "compilerOptions" = Some (Json.JObj options) ->
  (forall key, key = "outDir" \/ key = "rootDir" ->
               Json.lookupMember options key = None
               \/ exists s, Json.lookupMember options key = Some (Json.JStr s)) ->
  (getTsConfigPaths filePath st).1
  = inr (Some {| outDir := directoryOption (world st) (Path.dirname tp) options "outDir";
                 rootDir := directoryOption (world st) (Path.dirname tp) options "rootDir";
                 sourceMap := isTrue (inr (Json.lookupMember options "sourceMap")) |}).
Proof.
  intros Hfind Hcache Hread Hplain Hparse Hco Hdirs.
  rewrite getTsConfigPaths_cases, Hfind, Hcache.
  unfold settingsOf. rewrite Hread, (removeComments_plain _ Hplain), Hparse.
  by rewrite (settingsOfJson_wellFormed _ _ _ _ Hco Hdirs).
Qed.

Lemma endsWith_length s p :
  JsString.endsWith s p = true -> (String.length p <= String.length s)%nat.
Proof.
  unfold JsString.endsWith. intros [Hl _]%andb_true_iff.
  by apply Nat.leb_le.
Qed.

Lemma truthy_length s : JsString.truthy s = true <-> (0 < String.length s)%nat.
Proof.
  unfold JsString.truthy. destruct s; simpl; split; intros; try done; lia.
Qed.

Lemma placeholder_truthy p :
  JsString.endsWith p ".vue.js" = true -> JsString.truthy p = true.
Proof.
  intros Hl%endsWith_length. apply truthy_length. simpl in Hl. lia.
Qed.

(** Stripping three code units from a placeholder path leaves a
    non-empty string. *)
Lemma placeholder_stem_truthy p :
  JsString.endsWith p ".vue.js" = true ->
  JsString.truthy (JsString.slice_0_m3 p) = true.
Proof.
  intros Hl%endsWith_length. apply truthy_length.
  unfold JsString.slice_0_m3. rewrite length_take. simpl in Hl. lia.
Qed.

(** The three ways of [resolveVueFilePath]. *)
Lemma resolveVueFilePath_cases jsFilePath st :
  resolveVueFilePath jsFilePath st =
  match getTsConfigPaths jsFilePath st with
  | (inl e, st') => (inl e, st')
  | (inr None, st') => (inr (Some (JsString.slice_0_m3 jsFilePath)), st')
  | (inr (Some paths), st') =>
      if JsString.startsWith jsFilePath (outDir paths) then
        (inr (Some (JsString.slice_0_m3
                      (Path.join [rootDir paths;
                                  Path.relative (cwd (world st')) (outDir paths)
                                    jsFilePath]))), st')
      else (inr (Some (JsString.slice_0_m3 jsFilePath)), st')
  end.
Proof.
  unfold resolveVueFilePath. unfoldM.
  destruct (getTsConfigPaths jsFilePath st) as [[e|[paths|]] st']; try reflexivity.
  destruct (JsString.startsWith jsFilePath (outDir paths)); reflexivity.
Qed.

(** [resolveVueFilePath] never throws and never returns [null]. *)
Lemma resolveVueFilePath_frame jsFilePath st :
  exists vue st',
    resolveVueFilePath jsFilePath st = (inr (Some vue), st')
    /\ world st' = world st /\ fdToPath st' = fdToPath st
    /\ nativeCalls st' = nativeCalls st
    /\ (cacheConsistent st -> cacheConsistent st').
Proof.
  rewrite resolveVueFilePath_cases.
  destruct (getTsConfigPaths_frame jsFilePath st)
    as (r & st' & -> & Hw & Hf & Hn & Hc).
  destruct r as [paths|]; [|by eauto 10].
  destruct (JsString.startsWith _ _); eauto 10.
Qed.

Lemma shouldGenerateSourceMap_frame jsFilePath st :
  exists b st',
    shouldGenerateSourceMap jsFilePath st = (inr b, st')
    /\ world st' = world st /\ fdToPath st' = fdToPath st
    /\ nativeCalls st' = nativeCalls st.
Proof.
  unfold shouldGenerateSourceMap. unfoldM.
  destruct (getTsConfigPaths_frame jsFilePath st)
    as (r & st' & -> & Hw & Hf & Hn & _).
  eauto 10.
Qed.

Lemma callNativeWriteSync_eq a st :
  callNativeWriteSync a st =
  let '(r, w') := nativeWriteSync (world st) a in
  (seenBy r, addCall (CallWrite a) (setWorld w' st)).
Proof.
  unfold callNativeWriteSync. destruct (nativeWriteSync _ _) as [[e|n] w']; reflexivity.
Qed.

Lemma placeholderPath_Some filePath data p :
  placeholderPath filePath data = Some p <->
  filePath = Some p /\ JsString.endsWith p ".vue.js" = true
  /\ exists s, data = TextData s.
Proof.
  unfold placeholderPath. split.
  - destruct filePath as [q|], data as [s|b]; try discriminate.
    destruct (JsString.truthy q); simpl; [|discriminate].
    destruct (JsString.endsWith q ".vue.js") eqn:He; [|discriminate].
    intros [= <-]. eauto.
  - intros (-> & He & s & ->). rewrite He, (placeholder_truthy _ He). reflexivity.
Qed.

Lemma forEach_log (errs : list Diagnostic) st :
  forEach (fun err => consoleError [LogDiagnostic err]) errs st =
  (inr tt, fold_left (fun s err => addLog [LogDiagnostic err] s) errs st).
Proof.
  revert st; induction errs as [|d errs IH]; intros st; [reflexivity|].
  simpl. unfoldM. fold (forEach (fun err : Diagnostic => consoleError [LogDiagnostic err])).
  unfold consoleError, modify in IH. rewrite IH. reflexivity.
Qed.

Lemma writeSync_not_placeholder args st :
  placeholderPath (fdToPath st !! w_fd args) (w_data args) = None ->
  writeSync args st = callNativeWriteSync args st.
Proof.
  intros Hp. unfold writeSync. unfoldM. rewrite Hp. reflexivity.
Qed.

Lemma writeSync_placeholder args st filePath :
  placeholderPath (fdToPath st !! w_fd args) (w_data args) = Some filePath ->
  writeSync args st =
  match intercept args filePath st with
  | (inl e, st') => (inl e, st')
  | (inr (Some r), st') => (inr r, st')
  | (inr None, st') => callNativeWriteSync args st'
  end.
Proof.
  intros Hp. unfold writeSync. unfoldM. rewrite Hp.
  destruct (intercept args filePath st) as [[e|[r|]] st']; reflexivity.
Qed.

(** Claim C1.  A write on a descriptor that has no recorded path, or whose
    recorded path does not end with [.vue.js], or whose payload is not a
    string, is the real write: the native operation is called once, with
    the arguments of the call, on the world of the call; what it returns
    or throws is what the wrapper returns or throws, and nothing else of
    the state changes. *)
Theorem writeSync_passes_through (st : State) (args : WriteArgs) :
  fdToPath st !! w_fd args = None
  \/ (exists p, fdToPath st !! w_fd args = Some p
                /\ JsString.endsWith p ".vue.js" = false)
  \/ (exists bytes, w_data args = BinaryData bytes) ->
  writeSync args st =
  let '(r, w') := nativeWriteSync (world st) args in
  (seenBy r, addCall (CallWrite args) (setWorld w' st)).
Proof.
  intros Hcase. rewrite <- callNativeWriteSync_eq.
  apply writeSync_not_placeholder.
  destruct (placeholderPath _ _) as [q|] eqn:Hq; [|reflexivity].
  apply placeholderPath_Some in Hq as (Hq & He & s & Hs).
  destruct Hcase as [Hn | [(p & Hp & Hne) | (b & Hb)]]; congruence.
Qed.

Lemma catchBlock_eq e st :
  catchBlock e st = (inr None, addLog (failedToCompile e) st).
Proof.
  unfold catchBlock, failedToCompile. unfoldM. destruct (instanceofError e); reflexivity.
Qed.

(** The write wrapper on a placeholder whose source path is truthy. *)
Lemma writeSync_intercepted args st filePath vue st1 :
  placeholderPath (fdToPath st !! w_fd args) (w_data args) = Some filePath ->
  resolveVueFilePath filePath st = (inr (Some vue), st1) ->
  JsString.truthy vue = true ->
  writeSync args st =
  match tryBody args filePath vue st1 with
  | (inl e, st2) => callNativeWriteSync args (addLog (failedToCompile e) st2)
  | (inr (Some r), st2) => (inr r, st2)
  | (inr None, st2) => callNativeWriteSync args st2
  end.
Proof.
  intros Hp Hr Ht. rewrite (writeSync_placeholder _ _ _ Hp).
  unfold intercept. unfoldM. rewrite Hr, Ht.
  destruct (tryBody args filePath vue st1) as [[e|[r|]] st2]; try reflexivity.
  rewrite catchBlock_eq. reflexivity.
Qed.

Lemma writeSync_unresolved args st filePath st1 :
  placeholderPath (fdToPath st !! w_fd args) (w_data args) = Some filePath ->
  resolveVueFilePath filePath st = (inr (Some ""), st1) ->
  writeSync args st =
  callNativeWriteSync args
    (addLog [LogText "Could not resolve Vue file path for:"; LogText filePath] st1).
Proof.
  intros Hp Hr. rewrite (writeSync_placeholder _ _ _ Hp).
  unfold intercept, unresolved. unfoldM. rewrite Hr. simpl.
  destruct (callNativeWriteSync args _) as [[e|r] st2]; reflexivity.
Qed.

Lemma fold_addLog_frame (errs : list Diagnostic) st :
  let st' := fold_left (fun s err => addLog [LogDiagnostic err] s) errs st in
  world st' = world st /\ fdToPath st' = fdToPath st
  /\ nativeCalls st' = nativeCalls st /\ tsconfigCache st' = tsconfigCache st.
Proof.
  revert st; induction errs as [|d errs IH]; intros st; simpl; [done|].
  destruct (IH (addLog [LogDiagnostic d] st)) as (? & ? & ? & ?). done.
Qed.

Lemma tryBody_compile_errors args filePath vue st1 code sm st2 result w3 :
  existsSync (world st1) vue = true ->
  readFileSync (world st1) vue = inr code ->
  shouldGenerateSourceMap filePath st1 = (inr sm, st2) ->
  compileVueSFC (world st2) code
    (compileOptions (Path.dirname vue) (Path.basename vue) sm) = (inr result, w3) ->
  r_errors result <> [] ->
  tryBody args filePath vue st1 =
  match callNativeWriteSync args
          (logDiagnostics vue (r_errors result) (setWorld w3 st2)) with
  | (inl e, st') => (inl e, st')
  | (inr r, st') => (inr (Some r), st')
  end.
Proof.
  intros Hex Hread Hsm Hcomp Herr.
  unfold tryBody, callReadFileSync, callCompileVueSFC. unfoldM.
  rewrite Hex, Hread, Hsm, Hcomp.
  unfold afterCompile. unfoldM.
  destruct (r_errors result) as [|d errs] eqn:He; [done|].
  change (0 <? length (d :: errs))%nat with true. cbv beta iota.
  pose proof (forEach_log (d :: errs)) as Hlog. unfold consoleError, modify in Hlog.
  rewrite Hlog. unfold logDiagnostics.
  destruct (callNativeWriteSync args _) as [[e|r] st']; reflexivity.
Qed.

Lemma logDiagnostics_frame vue (errs : list Diagnostic) st :
  world (logDiagnostics vue errs st) = world st
  /\ fdToPath (logDiagnostics vue errs st) = fdToPath st
  /\ nativeCalls (logDiagnostics vue errs st) = nativeCalls st.
Proof.
  unfold logDiagnostics.
  destruct (fold_addLog_frame errs
              (addLog [LogText "Errors compiling Vue SFC:"; LogText vue] st))
    as (? & ? & ? & ?).
  done.
Qed.

(** Claim C2.  When the write of a placeholder reaches the component
    compiler and the compiler returns at least one diagnostic, the wrapper
    logs the diagnostics and calls the real write with the arguments it
    was given, so the original payload is written verbatim.  That call
    stands inside the [try] block: if it throws, the [catch] block logs it
    and the real write is called once more with the same arguments.  In
    both cases the native calls of the wrapper are one or two writes with
    the unmodified arguments and nothing else: no file is opened, so no
    style file, style map or script map is written. *)
Theorem compile_errors_keep_payload
    (st : State) (args : WriteArgs) (filePath payload vue code : string)
    (st1 st2 : State) (sm : bool) (result : CompileResult) (w3 : World) :
  fdToPath st !! w_fd args = Some filePath ->
  JsString.endsWith filePath ".vue.js" = true ->
  w_data args = TextData payload ->
  resolveVueFilePath filePath st = (inr (Some vue), st1) ->
  JsString.truthy vue = true ->
  existsSync (world st1) vue = true ->
  readFileSync (world st1) vue = inr code ->
  shouldGenerateSourceMap filePath st1 = (inr sm, st2) ->
  compileVueSFC (world st2) code
    (compileOptions (Path.dirname vue) (Path.basename vue) sm) = (inr result, w3) ->
  r_errors result <> [] ->
  let logged := logDiagnostics vue (r_errors result) (setWorld w3 st2) in
  writeSync args st =
    match nativeWriteSync w3 args with
    | (inr n, w4) => (inr n, addCall (CallWrite args) (setWorld w4 logged))
    | (inl e, w4) =>
        let caught :=
          addLog (failedToCompile (HostThrown e))
            (addCall (CallWrite args) (setWorld w4 logged)) in
        let '(r, w5) := nativeWriteSync w4 args in
        (seenBy r, addCall (CallWrite args) (setWorld w5 caught))
    end
  /\ exists n, (n = 1 \/ n = 2)%nat
       /\ nativeCalls (writeSync args st).2
          = (nativeCalls st ++ replicate n (CallWrite args))%list.
Proof.
  intros Hfd Hends Hdata Hres Htruthy Hex Hread Hsm Hcomp Herr logged.
  assert (Hp : placeholderPath (fdToPath st !! w_fd args) (w_data args)
               = Some filePath).
  { apply placeholderPath_Some. eauto. }
  assert (Hcalls : nativeCalls logged = nativeCalls st).
  { destruct (resolveVueFilePath_frame filePath st)
      as (v' & s1 & Hr' & _ & _ & Hn1 & _).
    rewrite Hres in Hr'. injection Hr' as <- <-.
    destruct (shouldGenerateSourceMap_frame filePath st1)
      as (b' & s2 & Hs' & _ & _ & Hn2).
    rewrite Hsm in Hs'. injection Hs' as <- <-.
    subst logged.
    destruct (logDiagnostics_frame vue (r_errors result) (setWorld w3 st2))
      as (_ & _ & ->). simpl. congruence. }
  assert (Hworld : world logged = w3).
  { subst logged.
    destruct (logDiagnostics_frame vue (r_errors result) (setWorld w3 st2))
      as (-> & _ & _). reflexivity. }
  assert (Heq : writeSync args st =
    match nativeWriteSync w3 args with
    | (inr n, w4) => (inr n, addCall (CallWrite args) (setWorld w4 logged))
    | (inl e, w4) =>
        let caught :=
          addLog (failedToCompile (HostThrown e))
            (addCall (CallWrite args) (setWorld w4 logged)) in
        let '(r, w5) := nativeWriteSync w4 args in
        (seenBy r, addCall (CallWrite args) (setWorld w5 caught))
    end).
  { rewrite (writeSync_intercepted _ _ _ _ _ Hp Hres Htruthy).
    rewrite (tryBody_compile_errors _ _ _ _ _ _ _ _ _ Hex Hread Hsm Hcomp Herr).
    fold logged. rewrite callNativeWriteSync_eq, Hworld.
    destruct (nativeWriteSync w3 args) as [[e|n] w4]; simpl; [|reflexivity].
    rewrite callNativeWriteSync_eq. reflexivity. }
  split; [exact Heq|].
  rewrite Heq.
  destruct (nativeWriteSync w3 args) as [[e|n] w4].
  - exists 2%nat. split; [by right|]. cbv zeta.
    destruct (nativeWriteSync w4 args) as [r w5]. simpl.
    rewrite Hcalls, <- app_assoc. reflexivity.
  - exists 1%nat. split; [by left|]. simpl. by rewrite Hcalls.
Qed.

Lemma callNativeWriteSync_throws a st e st' :
  callNativeWriteSync a st = (inl e, st') ->
  exists hostExn,
    e = HostThrown hostExn
    /\ nativeWriteSync (world st) a = (inl hostExn, world st').
Proof.
  rewrite callNativeWriteSync_eq.
  destruct (nativeWriteSync (world st) a) as [[x|n] w']; simpl; [|discriminate].
  intros [= <- <-]. eauto.
Qed.

(** Claim C4.  For a placeholder write whose mapped source path is not
    empty, an exception thrown anywhere in the [try] block (the existence
    check, reading the source, the source-map policy, the compiler, the
    writes of the extra files, the write of the compiled script) is caught:
    the wrapper logs it and calls the real write with the original
    arguments, whose outcome is the outcome of the call.  And whatever the
    state and the arguments, an exception that leaves the wrapper was
    thrown by a real write of the original arguments, never by the
    interception logic. *)
Theorem pipeline_exceptions_are_caught (st : State) (args : WriteArgs) :
  (forall filePath payload vue st1 e st2,
      fdToPath st !! w_fd args = Some filePath ->
      JsString.endsWith filePath ".vue.js" = true ->
      w_data args = TextData payload ->
      resolveVueFilePath filePath st = (inr (Some vue), st1) ->
      JsString.truthy vue = true ->
      tryBody args filePath vue st1 = (inl e, st2) ->
      writeSync args st =
      let '(r, w') := nativeWriteSync (world st2) args in
      (seenBy r,
       addCall (CallWrite args) (setWorld w' (addLog (failedToCompile e) st2))))
  /\ (forall e st',
         writeSync args st = (inl e, st') ->
         exists w hostExn,
           e = HostThrown hostExn
           /\ nativeWriteSync w args = (inl hostExn, world st')).
Proof.
  split.
  - intros filePath payload vue st1 e st2 Hfd Hends Hdata Hres Htruthy Hbody.
    assert (Hp : placeholderPath (fdToPath st !! w_fd args) (w_data args)
                 = Some filePath).
    { apply placeholderPath_Some. eauto. }
    rewrite (writeSync_intercepted _ _ _ _ _ Hp Hres Htruthy), Hbody.
    rewrite callNativeWriteSync_eq. reflexivity.
  - intros e st' Hthrow.
    destruct (placeholderPath (fdToPath st !! w_fd args) (w_data args))
      as [filePath|] eqn:Hp.
    + destruct (resolveVueFilePath_frame filePath st) as (vue & st1 & Hres & _).
      destruct (JsString.truthy vue) eqn:Htruthy.
      * rewrite (writeSync_intercepted _ _ _ _ _ Hp Hres Htruthy) in Hthrow.
        destruct (tryBody args filePath vue st1) as [[x|[r|]] st2];
          [ | discriminate | ];
          apply callNativeWriteSync_throws in Hthrow as (hostExn & -> & Hn); eauto.
      * assert (vue = "") as ->.
        { destruct vue; [reflexivity | discriminate]. }
        rewrite (writeSync_unresolved _ _ _ _ Hp Hres) in Hthrow.
        apply callNativeWriteSync_throws in Hthrow as (hostExn & -> & Hn); eauto.
    + rewrite (writeSync_not_placeholder _ _ Hp) in Hthrow.
      apply callNativeWriteSync_throws in Hthrow as (hostExn & -> & Hn); eauto.
Qed.

Lemma keepsTable_ret {A} (a : A) : keepsTable (mret a).
Proof. by intros st. Qed.

Lemma keepsTable_throw {A} (e : JsExn) : keepsTable (mthrow e : M A).
Proof. by intros st. Qed.

Lemma keepsTable_bind {A B} (m : M A) (f : A -> M B) :
  keepsTable m -> (forall a, keepsTable (f a)) -> keepsTable (m ≫= f).
Proof.
  intros Hm Hf st. unfoldM. specialize (Hm st).
  destruct (m st) as [[e|a] st']; simpl in *; [done|].
  rewrite Hf. done.
Qed.

Lemma keepsTable_tryCatch {A} (m : M A) (h : JsExn -> M A) :
  keepsTable m -> (forall e, keepsTable (h e)) -> keepsTable (tryCatch m h).
Proof.
  intros Hm Hh st. unfoldM. specialize (Hm st).
  destruct (m st) as [[e|a] st']; simpl in *; [|done].
  rewrite Hh. done.
Qed.

Lemma keepsTable_gets {A} (f : State -> A) : keepsTable (gets f).
Proof. by intros st. Qed.

Lemma keepsTable_consoleError line : keepsTable (consoleError line).
Proof. by intros st. Qed.

Lemma keepsTable_ofHost {A} (r : HostExn + A) : keepsTable (ofHost r).
Proof. intros st. by destruct r. Qed.

Lemma keepsTable_setCache (f : State -> gmap string TsPaths) :
  keepsTable (modify (fun st => setTsconfigCache (f st) st)).
Proof. by intros st. Qed.

Lemma keepsTable_open a : keepsTable (callNativeOpenSync a).
Proof.
  intros st. unfold callNativeOpenSync.
  destruct (nativeOpenSync _ _) as [[e|fd] w']; reflexivity.
Qed.

Lemma keepsTable_write a : keepsTable (callNativeWriteSync a).
Proof.
  intros st. unfold callNativeWriteSync.
  destruct (nativeWriteSync _ _) as [[e|fd] w']; reflexivity.
Qed.

Lemma keepsTable_close fd : keepsTable (callNativeCloseSync fd).
Proof.
  intros st. unfold callNativeCloseSync.
  destruct (nativeCloseSync _ _) as [[e|[]] w']; reflexivity.
Qed.

Lemma keepsTable_compile code opts : keepsTable (callCompileVueSFC code opts).
Proof.
  intros st. unfold callCompileVueSFC.
  destruct (compileVueSFC _ _ _) as [[e|r] w']; reflexivity.
Qed.

Hint Resolve keepsTable_ret keepsTable_throw keepsTable_gets
  keepsTable_consoleError keepsTable_ofHost keepsTable_setCache keepsTable_open
  keepsTable_write keepsTable_close keepsTable_compile : table.

(** Splits a computation along its binds and branches. *)
Ltac table :=
  repeat first
    [ progress (intros)
    | solve [eauto with table]
    | match goal with
      | |- keepsTable (mbind _ _) => apply keepsTable_bind
      | |- keepsTable (tryCatch _ _) => apply keepsTable_tryCatch
      | |- keepsTable (match ?x with _ => _ end) => destruct x
      | |- keepsTable (if ?b then _ else _) => destruct b
      end ].

Lemma keepsTable_read p : keepsTable (callReadFileSync p).
Proof. unfold callReadFileSync. table. Qed.

Lemma keepsTable_getTsConfigPaths p : keepsTable (getTsConfigPaths p).
Proof.
  intros st. destruct (getTsConfigPaths_frame p st) as (r & st' & -> & _ & Hf & _).
  exact Hf.
Qed.

Hint Resolve keepsTable_read keepsTable_getTsConfigPaths : table.

Lemma keepsTable_shouldGenerateSourceMap p : keepsTable (shouldGenerateSourceMap p).
Proof. unfold shouldGenerateSourceMap. table. Qed.

Lemma keepsTable_resolveVueFilePath p : keepsTable (resolveVueFilePath p).
Proof. unfold resolveVueFilePath. table. Qed.

Lemma keepsTable_forEach {A} (f : A -> M unit) l :
  (forall a, keepsTable (f a)) -> keepsTable (forEach f l).
Proof. intros Hf. induction l as [|a l IH]; simpl; table. Qed.

Lemma keepsTable_writeFileNatively p text : keepsTable (writeFileNatively p text).
Proof. unfold writeFileNatively. table. Qed.

Hint Resolve keepsTable_shouldGenerateSourceMap keepsTable_resolveVueFilePath
  keepsTable_writeFileNatively : table.

Lemma keepsTable_emitJs p sm js : keepsTable (emitJs p sm js).
Proof. unfold emitJs. table. Qed.

Lemma keepsTable_emitCss p sm css : keepsTable (emitCss p sm css).
Proof. unfold emitCss. table. Qed.

Hint Resolve keepsTable_emitJs keepsTable_emitCss : table.

Lemma keepsTable_afterCompile args p vue sm result :
  keepsTable (afterCompile args p vue sm result).
Proof.
  unfold afterCompile. table; apply keepsTable_forEach; table.
Qed.

Hint Resolve keepsTable_afterCompile : table.

Lemma keepsTable_tryBody args p vue : keepsTable (tryBody args p vue).
Proof. unfold tryBody. table. Qed.

Lemma keepsTable_catchBlock e : keepsTable (catchBlock e).
Proof. unfold catchBlock. table. Qed.

Lemma keepsTable_unresolved args p : keepsTable (unresolved args p).
Proof. unfold unresolved. table. Qed.

Hint Resolve keepsTable_tryBody keepsTable_catchBlock keepsTable_unresolved : table.

Lemma keepsTable_intercept args p : keepsTable (intercept args p).
Proof. unfold intercept. table. Qed.

Hint Resolve keepsTable_intercept : table.

(** The write wrapper only reads the handle table. *)
Lemma keepsTable_writeSync args : keepsTable (writeSync args).
Proof. unfold writeSync. table. Qed.

Lemma openSync_table a st :
  match openSync a st with
  | (inr fd, st') => fdToPath st' = applyOutcome (fdToPath st) (Opened (o_path a) fd)
  | (inl _, st') => fdToPath st' = fdToPath st
  end.
Proof.
  unfold openSync. unfoldM.
  pose proof (keepsTable_open a st) as Hk.
  destruct (callNativeOpenSync a st) as [[e|fd] st']; simpl in *; [done|].
  destruct (o_path a); simpl; by rewrite ?Hk.
Qed.

Lemma closeSync_table fd st :
  fdToPath (closeSync fd st).2 = delete fd (fdToPath st).
Proof.
  unfold closeSync. unfoldM.
  exact (keepsTable_close fd (setFdToPath (delete fd (fdToPath st)) st)).
Qed.

Lemma stepCall_table c st :
  fdToPath (stepCall c st).2 = applyOutcome (fdToPath st) (stepCall c st).1.
Proof.
  destruct c as [a|fd|a]; simpl.
  - pose proof (openSync_table a st) as Ho.
    destruct (openSync a st) as [[e|fd] st']; exact Ho.
  - apply closeSync_table.
  - apply keepsTable_writeSync.
Qed.

Lemma runCalls_table calls st :
  fdToPath (runCalls calls st).2 = tableAfter (runCalls calls st).1 (fdToPath st).
Proof.
  revert st; induction calls as [|c calls IH]; intros st; simpl; [reflexivity|].
  pose proof (stepCall_table c st) as Hs.
  destruct (stepCall c st) as [o st']. specialize (IH st').
  destruct (runCalls calls st') as [os st'']. simpl in *.
  unfold tableAfter in *. simpl. rewrite <- Hs. exact IH.
Qed.

Lemma neutral_applyOutcome m o fd :
  neutral o fd -> applyOutcome m o !! fd = m !! fd.
Proof.
  intros [Hc Ho]. destruct o as [[q| |] fd'|fd'|]; simpl; try done.
  - apply lookup_insert_ne. intros ->. by eapply Ho.
  - apply lookup_delete_ne. intros ->. by apply Hc.
Qed.

Lemma openedAndNotClosed_snoc history o fd p :
  openedAndNotClosed (history ++ [o])%list fd p <->
  o = Opened (PathString p) fd
  \/ (neutral o fd /\ openedAndNotClosed history fd p).
Proof.
  split.
  - intros (i & Hi & Hafter).
    destruct (decide (i < length history)%nat) as [Hlt|Hge].
    + right. rewrite lookup_app_l in Hi by done.
      assert (Hlast : ((history ++ [o])%list !! length history) = Some o).
      { rewrite lookup_app_r by lia. by rewrite Nat.sub_diag. }
      split; [exact (Hafter _ _ Hlt Hlast)|].
      exists i. split; [done|]. intros j o' Hj Ho'.
      apply (Hafter j o' Hj). rewrite lookup_app_l; [done|].
      by eapply lookup_lt_Some.
    + left. rewrite lookup_app_r in Hi by lia.
      destruct (i - length history)%nat; simpl in Hi; [congruence|].
      by rewrite lookup_nil in Hi.
  - intros [-> | [[Hc Ho] (i & Hi & Hafter)]].
    + exists (length history). split.
      * rewrite lookup_app_r by lia. by rewrite Nat.sub_diag.
      * intros j o' Hj Ho'. apply lookup_lt_Some in Ho'.
        rewrite length_app in Ho'. simpl in Ho'. lia.
    + exists i. split.
      * rewrite lookup_app_l; [done|]. by eapply lookup_lt_Some.
      * intros j o' Hj Ho'.
        destruct (decide (j < length history)%nat) as [Hlt|Hge].
        -- rewrite lookup_app_l in Ho' by done. by eapply Hafter.
        -- rewrite lookup_app_r in Ho' by lia.
           destruct (j - length history)%nat; simpl in Ho';
             [|by rewrite lookup_nil in Ho'].
           injection Ho' as <-. done.
Qed.

Lemma neutral_dec o fd :
  neutral o fd \/ o = Closed fd \/ exists q, o = Opened (PathString q) fd.
Proof.
  destruct o as [[q| |] fd'|fd'|].
  - destruct (decide (fd' = fd)) as [->|Hne]; [eauto|].
    left. split; [done|]. intros q' [= _ ?]. done.
  - left. split; [done|]. intros q' [=].
  - left. split; [done|]. intros q' [=].
  - destruct (decide (fd' = fd)) as [->|Hne]; [eauto|].
    left. split; [|done]. intros [= ?]. done.
  - left. split; done.
Qed.

Lemma tableAfter_lookup history fd p :
  tableAfter history ∅ !! fd = Some p <-> openedAndNotClosed history fd p.
Proof.
  induction history as [|o history IH] using rev_ind.
  - unfold tableAfter. simpl. rewrite lookup_empty.
    split; [done|]. by intros (i & Hi & _).
  - unfold tableAfter. rewrite fold_left_app. simpl.
    fold (tableAfter history ∅). rewrite openedAndNotClosed_snoc.
    destruct (neutral_dec o fd) as [Hn | [-> | [q ->]]].
    + rewrite (neutral_applyOutcome _ _ _ Hn), IH.
      split; [by right|]. intros [-> | [_ Ho]]; [|done].
      destruct Hn as [_ Hn]. by destruct (Hn p).
    + simpl. rewrite lookup_delete_eq. split; [done|].
      intros [[=] | [[Hc _] _]]. done.
    + simpl. rewrite lookup_insert_eq. split.
      * intros [= ->]. by left.
      * intros [[= ->] | [[_ Ho] _]]; [done|]. by destruct (Ho q).
Qed.

(** A write on a descriptor is attributed to the path the table holds
    for it, and is the real write when the table holds none. *)
Lemma attributedTo_recorded st args p :
  fdToPath st !! w_fd args = Some p -> attributedTo p args st.
Proof.
  intros Hfd. split.
  - intros Hends Hdata. apply writeSync_placeholder.
    apply placeholderPath_Some. by rewrite Hfd.
  - intros Hcase. apply writeSync_not_placeholder.
    destruct (placeholderPath _ _) as [q|] eqn:Hq; [|reflexivity].
    apply placeholderPath_Some in Hq as (Hq & He & s & Hs).
    destruct Hcase as [Hne | (b & Hb)]; congruence.
Qed.

Lemma writeSync_unrecorded st args :
  fdToPath st !! w_fd args = None ->
  writeSync args st = callNativeWriteSync args st.
Proof.
  intros Hfd. apply writeSync_not_placeholder. by rewrite Hfd.
Qed.

(** Claim C9.  After any run of wrapped calls from a state whose handle
    table is empty, the table maps [fd] to [p] exactly when [fd] was last
    opened with the string path [p] by a real open that succeeded, and
    [closeSync fd] was not called since.  A write on [fd] is then
    attributed to that path [p]: it is intercepted for [p] when [p] is a
    placeholder path and the payload a string, and is the real write
    otherwise; when [fd] was never opened so, or closed since, the write
    is the real write.  In particular, once [fd] was closed and a later
    open with the path [p2] returned the same [fd], the table gives [p2]
    and a write on [fd] is attributed to [p2], whatever path was recorded
    before the close. *)
Theorem handle_table_tracks_open_handles
    (st0 : State) (calls : list FsCall) (fd : Z) :
  let run := runCalls calls (setFdToPath ∅ st0) in
  (forall p, fdToPath run.2 !! fd = Some p <-> openedAndNotClosed run.1 fd p)
  /\ (forall args, w_fd args = fd ->
        (forall p, openedAndNotClosed run.1 fd p -> attributedTo p args run.2)
        /\ ((forall p, ~ openedAndNotClosed run.1 fd p) ->
            writeSync args run.2 = callNativeWriteSync args run.2))
  /\ (forall before between rest p2,
         run.1 = (before ++ Closed fd :: between
                  ++ Opened (PathString p2) fd :: rest)%list ->
         Forall (fun o => neutral o fd) rest ->
         fdToPath run.2 !! fd = Some p2
         /\ forall args, w_fd args = fd -> attributedTo p2 args run.2).
Proof.
  intros run.
  assert (Hiff : forall p,
             fdToPath run.2 !! fd = Some p <-> openedAndNotClosed run.1 fd p).
  { intros p. subst run. rewrite runCalls_table. apply tableAfter_lookup. }
  assert (Hreuse : forall before between rest p2,
             run.1 = (before ++ Closed fd :: between
                      ++ Opened (PathString p2) fd :: rest)%list ->
             Forall (fun o => neutral o fd) rest ->
             fdToPath run.2 !! fd = Some p2).
  { intros before between rest p2 Hhistory Hrest. apply Hiff. rewrite Hhistory.
    clear Hhistory Hiff.
    induction rest as [|o rest IH] using rev_ind.
    - rewrite app_comm_cons, app_assoc. apply openedAndNotClosed_snoc. by left.
    - apply Forall_app in Hrest as [Hrest Ho%Forall_inv].
      rewrite app_comm_cons, (app_assoc before), app_comm_cons, app_assoc.
      apply openedAndNotClosed_snoc. right. split; [exact Ho|].
      rewrite <- app_assoc, <- !app_comm_cons. by apply IH. }
  split; [exact Hiff|]. split.
  - intros args <-. split.
    + intros p Hp%Hiff. by apply attributedTo_recorded.
    + intros Hnone. apply writeSync_unrecorded.
      destruct (fdToPath run.2 !! w_fd args) as [p|] eqn:Hfd; [|reflexivity].
      by destruct (Hnone p); apply Hiff.
  - intros before between rest p2 Hhistory Hrest.
    pose proof (Hreuse _ _ _ _ Hhistory Hrest) as Hp2.
    split; [exact Hp2|]. intros args <-. by apply attributedTo_recorded.
Qed.

(** Claim C3.  When a configuration resolves for the output path and the
    path begins with its [outDir], the mapped source is the path relative
    to [outDir], joined to [rootDir], less its last three code units.  For
    directories in normal form this is the re-rooting itself: the output
    [outDir/rel] maps to [rootDir/rel] less three code units, and
    [outDir/dirs/name.js] maps to [rootDir/dirs/name]; with the output
    directory [/proj/dist] and the source root [/proj/src],
    [/proj/dist/a/b/Foo.vue.js] maps to [/proj/src/a/b/Foo.vue]. *)
Theorem mapToSource_reroots
    (st : State) (jsFilePath : string) (paths : TsPaths) (st' : State) :
  getTsConfigPaths jsFilePath st = (inr (Some paths), st') ->
  (JsString.startsWith jsFilePath (outDir paths) = true ->
   resolveVueFilePath jsFilePath st =
   (inr (Some (JsString.slice_0_m3
                 (Path.join [rootDir paths;
                             Path.relative (cwd (world st')) (outDir paths)
                               jsFilePath]))), st'))
  /\ (forall os rs rel,
         Forall cleanSegment os -> Forall cleanSegment rs ->
         Forall cleanSegment rel -> rel <> [] ->
         outDir paths = absPath os -> rootDir paths = absPath rs ->
         jsFilePath = absPath (os ++ rel) ->
         resolveVueFilePath jsFilePath st =
         (inr (Some (JsString.slice_0_m3 (absPath (rs ++ rel)))), st'))
  /\ (forall os rs dirs name,
         Forall cleanSegment os -> Forall cleanSegment rs ->
         Forall cleanSegment dirs -> noSlash name ->
         outDir paths = absPath os -> rootDir paths = absPath rs ->
         jsFilePath = absPath (os ++ dirs ++ [name ++ ".js"]) ->
         resolveVueFilePath jsFilePath st =
         (inr (Some (absPath (rs ++ dirs ++ [name]))), st')).
Proof.
  intros Hcfg.
  assert (Hformula : JsString.startsWith jsFilePath (outDir paths) = true ->
    resolveVueFilePath jsFilePath st =
    (inr (Some (JsString.slice_0_m3
                  (Path.join [rootDir paths;
                              Path.relative (cwd (world st')) (outDir paths)
                                jsFilePath]))), st')).
  { intros Hs. by rewrite resolveVueFilePath_cases, Hcfg, Hs. }
  assert (Hsegments : forall os rs rel,
         Forall cleanSegment os -> Forall cleanSegment rs ->
         Forall cleanSegment rel -> rel <> [] ->
         outDir paths = absPath os -> rootDir paths = absPath rs ->
         jsFilePath = absPath (os ++ rel) ->
         resolveVueFilePath jsFilePath st =
         (inr (Some (JsString.slice_0_m3 (absPath (rs ++ rel)))), st')).
  { intros os rs rel Hos Hrs Hrel Hne Ho Hr Hp.
    rewrite Hformula.
    - rewrite Ho, Hr, Hp, relative_below, join_below by done. reflexivity.
    - rewrite Ho, Hp. destruct (absPath_app_prefix os rel) as [x ->].
      apply startsWith_append. }
  split; [exact Hformula|]. split; [exact Hsegments|].
  intros os rs dirs name Hos Hrs Hdirs Hname Ho Hr Hp.
  rewrite (Hsegments os rs (dirs ++ [(name ++ ".js")%string])%list); try done.
  - rewrite app_assoc. unfold absPath.
    rewrite joinSegs_snoc_append, <- append_assoc, slice_0_m3_js.
    by rewrite <- app_assoc.
  - apply Forall_app_2; [done|]. constructor; [by apply cleanSegment_js | constructor].
  - by destruct dirs.
Qed.

Lemma isTrue_true option :
  isTrue option = true <-> option = inr (Some (Json.JBool true)).
Proof.
  split; [|by intros ->].
  destruct option as [[]|[[|[]| | | |]|]]; done.
Qed.

(** The flag of a record that was obtained is the declared option,
    compared with [true]. *)
Lemma settingsOf_sourceMap w tp r :
  settingsOf w tp = inr r ->
  exists content,
    readFileSync w tp = inr content
    /\ (sourceMap r = true <-> declaredSourceMap content = Some (Json.JBool true)).
Proof.
  unfold settingsOf, declaredSourceMap.
  destruct (readFileSync w tp) as [e|content]; [done|].
  intros Hs. exists content. split; [done|].
  destruct (Json.parse _) as [tsconfig|]; [|done].
  unfold settingsOfJson in Hs.
  destruct (Json.prop tsconfig "compilerOptions") as [[]|co]; [done|].
  destruct (directoryOf w _ (Json.prop _ "outDir")) as [e|o]; [done|].
  destruct (directoryOf w _ (Json.prop _ "rootDir")) as [e|rd]; [done|].
  injection Hs as <-. simpl. rewrite isTrue_true.
  destruct (Json.prop (compilerOptionsOf tsconfig) "sourceMap") as [[]|v];
    [done|].
  split; [by intros [= ->] | by intros ->].
Qed.

Lemma cacheProvenance_same st st' :
  tsconfigCache st' = tsconfigCache st -> cacheProvenance st -> cacheProvenance st'.
Proof. intros Hc Hp tp r. rewrite Hc. apply Hp. Qed.

Lemma cacheProvenance_empty st : cacheProvenance (setTsconfigCache ∅ st).
Proof. intros tp r. simpl. by rewrite lookup_empty. Qed.

Lemma keepsProvenance_ret {A} (a : A) : keepsProvenance (mret a).
Proof. by intros st. Qed.

Lemma keepsProvenance_throw {A} (e : JsExn) : keepsProvenance (mthrow e : M A).
Proof. by intros st. Qed.

Lemma keepsProvenance_bind {A B} (m : M A) (f : A -> M B) :
  keepsProvenance m -> (forall a, keepsProvenance (f a)) -> keepsProvenance (m ≫= f).
Proof.
  intros Hm Hf st Hst. unfoldM. specialize (Hm st Hst).
  destruct (m st) as [[e|a] st']; simpl in *; [done|]. by apply Hf.
Qed.

Lemma keepsProvenance_tryCatch {A} (m : M A) (h : JsExn -> M A) :
  keepsProvenance m -> (forall e, keepsProvenance (h e)) ->
  keepsProvenance (tryCatch m h).
Proof.
  intros Hm Hh st Hst. unfoldM. specialize (Hm st Hst).
  destruct (m st) as [[e|a] st']; simpl in *; [|done]. by apply Hh.
Qed.

Lemma keepsProvenance_gets {A} (f : State -> A) : keepsProvenance (gets f).
Proof. by intros st. Qed.

Lemma keepsProvenance_consoleError line : keepsProvenance (consoleError line).
Proof. by intros st. Qed.

Lemma keepsProvenance_ofHost {A} (r : HostExn + A) : keepsProvenance (ofHost r).
Proof. intros st. by destruct r. Qed.

Lemma keepsProvenance_setTable (f : State -> gmap Z string) :
  keepsProvenance (modify (fun st => setFdToPath (f st) st)).
Proof. by intros st. Qed.

Lemma keepsProvenance_open a : keepsProvenance (callNativeOpenSync a).
Proof.
  intros st. unfold callNativeOpenSync.
  destruct (nativeOpenSync _ _) as [[e|fd] w']; by apply cacheProvenance_same.
Qed.

Lemma keepsProvenance_write a : keepsProvenance (callNativeWriteSync a).
Proof.
  intros st. unfold callNativeWriteSync.
  destruct (nativeWriteSync _ _) as [[e|fd] w']; by apply cacheProvenance_same.
Qed.

Lemma keepsProvenance_close fd : keepsProvenance (callNativeCloseSync fd).
Proof.
  intros st. unfold callNativeCloseSync.
  destruct (nativeCloseSync _ _) as [[e|[]] w']; by apply cacheProvenance_same.
Qed.

Lemma keepsProvenance_compile code opts :
  keepsProvenance (callCompileVueSFC code opts).
Proof.
  intros st. unfold callCompileVueSFC.
  destruct (compileVueSFC _ _ _) as [[e|r] w']; by apply cacheProvenance_same.
Qed.

(** The one place where the cache grows. *)
Lemma keepsProvenance_getTsConfigPaths p : keepsProvenance (getTsConfigPaths p).
Proof.
  intros st Hst. rewrite getTsConfigPaths_cases.
  destruct (findTsConfig (world st) p) as [tp|]; [|done].
  destruct (tsconfigCache st !! tp) as [r|]; [done|].
  destruct (settingsOf (world st) tp) as [e|r] eqn:Hs; [done|].
  intros tp' r'. simpl. destruct (decide (tp = tp')) as [<-|Hne].
  - rewrite lookup_insert_eq. intros [= <-]. eauto.
  - rewrite lookup_insert_ne by done. apply Hst.
Qed.

Hint Resolve keepsProvenance_ret keepsProvenance_throw keepsProvenance_gets
  keepsProvenance_consoleError keepsProvenance_ofHost keepsProvenance_setTable
  keepsProvenance_open keepsProvenance_write keepsProvenance_close
  keepsProvenance_compile keepsProvenance_getTsConfigPaths : provenance.

Ltac provenance :=
  repeat first
    [ progress (intros)
    | solve [eauto with provenance]
    | match goal with
      | |- keepsProvenance (mbind _ _) => apply keepsProvenance_bind
      | |- keepsProvenance (tryCatch _ _) => apply keepsProvenance_tryCatch
      | |- keepsProvenance (match ?x with _ => _ end) => destruct x
      | |- keepsProvenance (if ?b then _ else _) => destruct b
      end ].

Lemma keepsProvenance_forEach {A} (f : A -> M unit) l :
  (forall a, keepsProvenance (f a)) -> keepsProvenance (forEach f l).
Proof. intros Hf. induction l as [|a l IH]; simpl; provenance. Qed.

Lemma keepsProvenance_writeSync args : keepsProvenance (writeSync args).
Proof.
  unfold writeSync, intercept, unresolved, catchBlock, tryBody, afterCompile,
    emitJs, resolveVueFilePath, shouldGenerateSourceMap, callReadFileSync.
  provenance; apply keepsProvenance_forEach; intros;
    unfold emitCss, writeFileNatively; provenance.
Qed.

Lemma keepsProvenance_openSync args : keepsProvenance (openSync args).
Proof. unfold openSync. provenance. Qed.

Lemma keepsProvenance_closeSync fd : keepsProvenance (closeSync fd).
Proof. unfold closeSync. provenance. Qed.

(** Along every run of wrapped calls from a state whose cache is empty,
    every cached record was computed from its configuration file. *)
Lemma runCalls_provenance calls st :
  cacheProvenance st -> cacheProvenance (runCalls calls st).2.
Proof.
  revert st; induction calls as [|c calls IH]; intros st Hst; [done|].
  simpl. assert (Hstep : cacheProvenance (stepCall c st).2).
  { destruct c as [a|fd|a]; simpl.
    - pose proof (keepsProvenance_openSync a st Hst) as Ho.
      by destruct (openSync a st) as [[e|fd] st'].
    - by apply keepsProvenance_closeSync.
    - by apply keepsProvenance_writeSync. }
  destruct (stepCall c st) as [o st']. specialize (IH st' Hstep).
  by destruct (runCalls calls st') as [os st''].
Qed.

(** The source-map policy in any state whose cached records come from
    configuration files, stale or not: the answer is [true] exactly when
    no record is obtained, or the record obtained was computed from a
    configuration whose [compilerOptions.sourceMap] was [true]. *)
Lemma sourceMaps_policy_of_record st p :
  cacheProvenance st ->
  exists b st',
    shouldGenerateSourceMap p st = (inr b, st')
    /\ (b = true <->
        (getTsConfigPaths p st).1 = inr None
        \/ exists r w tp content,
             (getTsConfigPaths p st).1 = inr (Some r)
             /\ findTsConfig (world st) p = Some tp
             /\ settingsOf w tp = inr r
             /\ readFileSync w tp = inr content
             /\ declaredSourceMap content = Some (Json.JBool true)).
Proof.
  intros Hst. pose proof (keepsProvenance_getTsConfigPaths p st Hst) as Hafter.
  unfold shouldGenerateSourceMap. unfoldM.
  pose proof (getTsConfigPaths_cases p st) as Hcases.
  destruct (getTsConfigPaths p st) as [[e|[r|]] st'] eqn:Hcfg; simpl in *.
  - destruct (findTsConfig (world st) p) as [tp|]; [|done].
    destruct (tsconfigCache st !! tp); [done|].
    destruct (settingsOf (world st) tp); done.
  - assert (Hfrom : exists w tp, findTsConfig (world st) p = Some tp
                                 /\ settingsOf w tp = inr r).
    { destruct (findTsConfig (world st) p) as [tp|]; [|done].
      destruct (tsconfigCache st !! tp) as [r'|] eqn:Hc.
      - injection Hcases as -> _. destruct (Hst _ _ Hc) as [w Hw]. eauto.
      - destruct (settingsOf (world st) tp) as [e|r'] eqn:Hs; [done|].
        injection Hcases as -> _. eauto. }
    destruct Hfrom as (w & tp & Hfind & Hw).
    destruct (settingsOf_sourceMap _ _ _ Hw) as (content & Hread & Hiff).
    eexists _, _. split; [reflexivity|]. rewrite Hiff. split.
    + intros Hd. right. by exists r, w, tp, content.
    + intros [[=] | (r' & w' & tp' & c' & [= <-] & Hfind' & Hw' & Hread' & Hd)].
      destruct (settingsOf_sourceMap _ _ _ Hw') as (c'' & Hread'' & Hiff').
      apply Hiff. apply Hiff'. congruence.
  - eexists _, _. split; [reflexivity|]. split; [by left | done].
Qed.

(** Claim C7.  With a cache that is not stale, [shouldGenerateSourceMap]
    never throws, and it answers [true] exactly when no settings record is
    obtained (no [tsconfig.json] on the walk, or the one found fails to
    load) or the record comes from a configuration whose
    [compilerOptions.sourceMap] is the boolean [true]; with a record and
    any other value of the option, or none, the answer is [false]. *)
Theorem sourceMaps_policy (st : State) (jsFilePath : string) :
  cacheConsistent st ->
  exists b st',
    shouldGenerateSourceMap jsFilePath st = (inr b, st')
    /\ (b = true <->
        findTsConfig (world st) jsFilePath = None
        \/ (exists tp e,
               findTsConfig (world st) jsFilePath = Some tp
               /\ settingsOf (world st) tp = inl e)
        \/ (exists tp content r,
               findTsConfig (world st) jsFilePath = Some tp
               /\ settingsOf (world st) tp = inr r
               /\ readFileSync (world st) tp = inr content
               /\ declaredSourceMap content = Some (Json.JBool true))).
Proof.
  intros Hcons. unfold shouldGenerateSourceMap. unfoldM.
  rewrite getTsConfigPaths_cases.
  destruct (findTsConfig (world st) jsFilePath) as [tp|] eqn:Hfind.
  - assert (Hrecord : forall r,
               settingsOf (world st) tp = inr r ->
               sourceMap r = true <->
               findTsConfig (world st) jsFilePath = None
               \/ (exists tp' e, Some tp = Some tp' /\ settingsOf (world st) tp' = inl e)
               \/ (exists tp' content r', Some tp = Some tp'
                      /\ settingsOf (world st) tp' = inr r'
                      /\ readFileSync (world st) tp' = inr content
                      /\ declaredSourceMap content = Some (Json.JBool true))).
    { intros r Hr.
      destruct (settingsOf_sourceMap _ _ _ Hr) as (content & Hread & Hiff).
      rewrite Hiff. split.
      - intros Hd. right; right. by exists tp, content, r.
      - intros [Hn | [(tp' & e & [= <-] & He) | (tp' & c' & r' & [= <-] & _ & Hc & Hd)]].
        + congruence.
        + congruence.
        + congruence. }
    rewrite Hfind in Hrecord.
    destruct (tsconfigCache st !! tp) as [r|] eqn:Hcache.
    + eexists _, _. split; [reflexivity|]. apply Hrecord. by apply Hcons.
    + destruct (settingsOf (world st) tp) as [e|r] eqn:Hs.
      * eexists _, _. split; [reflexivity|]. split; [|done].
        intros _. right; left. by exists tp, e.
      * eexists _, _. split; [reflexivity|]. by apply Hrecord.
  - eexists _, _. split; [reflexivity|]. split; [|done]. intros _. by left.
Qed.

(** Claim C10, as amended.  For every placeholder write,
    [resolveVueFilePath] returns a string, never [null], and never throws.
    On the branch without a configuration and on the branch of a path that
    does not begin with [outDir] the string is the placeholder path less
    three code units, which is not empty.  The wrapper goes on to the
    [try] block, hence to the existence check, whenever the string is not
    empty, and takes the branch that logs the unresolved path exactly when
    the string is empty. *)
Theorem unresolved_branch_only_for_empty_path
    (st : State) (args : WriteArgs) (filePath : string) :
  placeholderPath (fdToPath st !! w_fd args) (w_data args) = Some filePath ->
  exists vue st1,
    resolveVueFilePath filePath st = (inr (Some vue), st1)
    /\ ((getTsConfigPaths filePath st).1 = inr None
        \/ (exists paths,
               (getTsConfigPaths filePath st).1 = inr (Some paths)
               /\ JsString.startsWith filePath (outDir paths) = false) ->
        vue = JsString.slice_0_m3 filePath /\ JsString.truthy vue = true)
    /\ (JsString.truthy vue = true ->
        intercept args filePath st
        = tryCatch (tryBody args filePath vue) catchBlock st1)
    /\ (JsString.truthy vue = false ->
        intercept args filePath st = unresolved args filePath st1).
Proof.
  intros Hp. apply placeholderPath_Some in Hp as (_ & Hends & _).
  destruct (resolveVueFilePath_frame filePath st) as (vue & st1 & Hres & _).
  exists vue, st1. split; [exact Hres|]. split; [|split].
  - rewrite resolveVueFilePath_cases in Hres.
    destruct (getTsConfigPaths filePath st) as [[e|[paths|]] st'] eqn:Hcfg; simpl.
    + intros [[=] | (paths & [=] & _)].
    + intros [[=] | (paths' & [= <-] & Hstart)]. rewrite Hstart in Hres.
      injection Hres as <- <-. split; [done|]. by apply placeholder_stem_truthy.
    + intros _. injection Hres as <- <-. split; [done|].
      by apply placeholder_stem_truthy.
  - intros Ht. unfold intercept. unfoldM. by rewrite Hres, Ht.
  - intros Ht. unfold intercept. unfoldM. by rewrite Hres, Ht.
Qed.

(** * Further properties of the module *)

(** ** The directory and the base name of a path *)

Lemma slashAt_append_r a b j :
  JsString.slashAt (a ++ b) (String.length a + j) = JsString.slashAt b j.
Proof.
  unfold JsString.slashAt. induction a as [|c a IH]; [reflexivity|].
  rewrite append_cons. exact IH.
Qed.

Lemma slashAt_child a name k :
  noSlash name ->
  JsString.slashAt (a ++ "/" ++ name) (String.length a + S k) = false.
Proof.
  intros Hn. rewrite slashAt_append_r.
  change ("/" ++ name) with (String "/" name).
  unfold JsString.slashAt. simpl.
  by apply (noSlash_slashAt name k).
Qed.

Lemma slashAt_separator a name :
  JsString.slashAt (a ++ "/" ++ name) (String.length a) = true.
Proof.
  rewrite <- (Nat.add_0_r (String.length a)) at 1. by rewrite slashAt_append_r.
Qed.

Lemma dirnameScan_child a name k :
  noSlash name -> (1 <= String.length a)%nat ->
  Path.dirnameScan (a ++ "/" ++ name) (String.length a + k) false
  = Some (String.length a).
Proof.
  intros Hn Ha. induction k as [|k IH].
  - rewrite Nat.add_0_r. destruct (String.length a) as [|la] eqn:Hla; [lia|].
    simpl. rewrite <- Hla, slashAt_separator. reflexivity.
  - rewrite Nat.add_succ_r. simpl. rewrite <- Nat.add_succ_r.
    by rewrite slashAt_child.
Qed.

Lemma dirname_child a name :
  (2 <= String.length a)%nat -> noSlash name -> name <> "" ->
  Path.dirname (a ++ "/" ++ name) = a.
Proof.
  intros Ha Hn Hne. unfold Path.dirname.
  assert (Hlen : String.length (a ++ "/" ++ name)
                 = S (String.length a + String.length name)).
  { rewrite !length_append. simpl. lia. }
  rewrite Hlen. simpl Nat.eqb. cbv beta iota.
  replace (S (String.length a + String.length name) - 1)%nat
    with (String.length a + String.length name)%nat by lia.
  destruct name as [|c name]; [done|]. simpl String.length.
  rewrite Nat.add_succ_r. simpl Path.dirnameScan.
  rewrite <- Nat.add_succ_r, slashAt_child by done.
  rewrite dirnameScan_child by (done || lia).
  replace (String.length a =? 1)%nat with false by (symmetry; apply Nat.eqb_neq; lia).
  rewrite andb_false_r. apply take_append.
Qed.

Lemma dirnameScan_root name i m :
  noSlash name -> Path.dirnameScan (String "/" name) i m = None.
Proof.
  intros Hn. revert m; induction i as [|i IH]; intros m; [reflexivity|].
  simpl. change (JsString.slashAt (String "/" name) (S i))
    with (JsString.slashAt name i).
  by rewrite noSlash_slashAt.
Qed.

(** The directory of a path in normal form is the path of the segments
    before the last. *)
Lemma dirname_absPath dirs name :
  Forall cleanSegment dirs -> cleanSegment name ->
  Path.dirname (absPath (dirs ++ [name])) = absPath dirs.
Proof.
  intros Hd (Hn & Hne & _). destruct dirs as [|d dirs].
  - change (absPath ([] ++ [name])) with (String "/" name).
    change (absPath []) with "/".
    unfold Path.dirname. simpl Nat.eqb. cbv beta iota zeta.
    by rewrite dirnameScan_root.
  - unfold absPath. rewrite joinSegs_app by done.
    change (Path.joinSegs [name]) with name.
    rewrite <- append_assoc.
    apply dirname_child; [|done..].
    assert (Hj : Path.joinSegs (d :: dirs) <> "") by by apply joinSegs_nonEmpty.
    unfold absPath. destruct (Path.joinSegs (d :: dirs)); [done|].
    simpl. lia.
Qed.

Lemma take_all s : JsString.take (String.length s) s = s.
Proof. induction s as [|c s IH]; simpl; by rewrite ?IH. Qed.

Lemma drop_append a b : JsString.drop (String.length a) (a ++ b) = b.
Proof. induction a as [|c a IH]; [by destruct b|]. by rewrite append_cons. Qed.

Lemma basenameScan_child a name k e :
  noSlash name ->
  Path.basenameScan (a ++ "/" ++ name) (String.length a + S k) false (Some e)
  = (S (String.length a), Some e).
Proof.
  intros Hn. induction k as [|k IH].
  - rewrite Nat.add_1_r. simpl. by rewrite slashAt_separator.
  - rewrite Nat.add_succ_r. simpl. by rewrite slashAt_child.
Qed.

Lemma basename_child a name :
  noSlash name -> name <> "" -> Path.basename (a ++ "/" ++ name) = name.
Proof.
  intros Hn Hne. unfold Path.basename.
  assert (Hlen : String.length (a ++ "/" ++ name)
                 = (String.length a + S (String.length name))%nat).
  { rewrite !length_append. simpl. lia. }
  destruct name as [|c name]; [done|].
  rewrite Hlen at 1. simpl String.length at 2.
  rewrite Nat.add_succ_r. simpl Path.basenameScan.
  rewrite slashAt_child by done.
  rewrite basenameScan_child by done.
  replace (S (String.length a + S (String.length name)))
    with (String.length (a ++ "/" ++ String c name)) by (rewrite Hlen; simpl; lia).
  rewrite take_all.
  change (JsString.drop (S (String.length a)) (a ++ "/" ++ String c name))
    with (JsString.drop (String.length (String "/" "") + String.length a)
            (a ++ "/" ++ String c name)).
  rewrite Nat.add_comm, <- length_append.
  rewrite <- (append_assoc a "/"). apply drop_append.
Qed.

Lemma basename_absPath dirs name :
  cleanSegment name -> Path.basename (absPath (dirs ++ [name])) = name.
Proof.
  intros (Hn & Hne & _). unfold absPath. destruct dirs as [|d dirs].
  - change ("/" ++ Path.joinSegs ([] ++ [name])) with ("" ++ "/" ++ name).
    by apply basename_child.
  - rewrite joinSegs_app by done. change (Path.joinSegs [name]) with name.
    rewrite <- append_assoc. by apply basename_child.
Qed.

(** A clean name resolved against a directory in normal form. *)
Lemma resolve_child cwd dirs name :
  Forall cleanSegment dirs -> cleanSegment name ->
  Path.resolve cwd [absPath dirs; name] = absPath (dirs ++ [name]).
Proof.
  intros Hd Hname. pose proof Hname as (Hn & Hne & _).
  assert (Hl : (String.length name =? 0)%nat = false) by (by destruct name).
  assert (Hrel : Path.isAbsolute name = false).
  { unfold Path.isAbsolute. by apply noSlash_slashAt. }
  unfold Path.resolve. cbn [rev app Path.resolveLoop]. rewrite Hl. cbv zeta.
  rewrite Hrel.
  change (String.length (absPath dirs) =? 0)%nat with false. cbv beta iota.
  change (Path.isAbsolute (absPath dirs)) with true. cbv beta iota.
  assert (Hplain : plainPath (absPath dirs ++ "/" ++ name ++ "/" ++ "")).
  { apply plainPath_append; [by apply plainPath_absPath|].
    apply plainPath_append; [|apply plainPath_empty].
    unfold plainPath. rewrite split_noSlash by done.
    constructor; [by right | constructor]. }
  rewrite normalizeString_plain by done.
  rewrite !segmentsOf_append, segmentsOf_absPath, segmentsOf_clean by done.
  reflexivity.
Qed.

(** Appending to a path appends to its last segment. *)
Lemma map_path dirs name ext :
  absPath (dirs ++ [name]) ++ ext = absPath (dirs ++ [name ++ ext]).
Proof. unfold absPath. by rewrite joinSegs_snoc_append, append_assoc. Qed.

(** ** The walk of [findTsConfig] *)

Lemma findTsConfigLoop_walk w fuel dir r :
  findTsConfigLoop fuel w dir = Some r ->
  forall tp,
    r = Some tp <->
    exists n,
      tp = candidate (Nat.iter n Path.dirname dir)
      /\ Path.dirname (Nat.iter n Path.dirname dir) <> Nat.iter n Path.dirname dir
      /\ existsSync w tp = true
      /\ forall k, (k < n)%nat ->
           existsSync w (candidate (Nat.iter k Path.dirname dir)) = false.
Proof.
  revert dir r; induction fuel as [|fuel IH]; intros dir r; simpl; [discriminate|].
  destruct (String.eqb_spec dir (Path.dirname dir)) as [Hfix|Hmove]; simpl.
  - intros [= <-] tp. split; [discriminate|].
    intros (n & _ & Hne & _). exfalso. apply Hne.
    clear Hne. induction n as [|n IHn]; simpl; [by symmetry|].
    by rewrite IHn.
  - fold (candidate dir). destruct (existsSync w (candidate dir)) eqn:Hex.
    + intros [= <-] tp. split.
      * intros [= <-]. exists 0%nat. simpl. repeat split; [congruence | done | lia].
      * intros (n & -> & _ & _ & Hnearer). destruct n as [|n]; [reflexivity|].
        specialize (Hnearer 0%nat ltac:(lia)). simpl in Hnearer. congruence.
    + intros Hloop tp. rewrite (IH _ _ Hloop tp). split.
      * intros (n & -> & Hne & Hthere & Hnearer). exists (S n).
        rewrite Nat.iter_succ_r. repeat split; [done.. |].
        intros [|k] Hk; [exact Hex|]. rewrite Nat.iter_succ_r. apply Hnearer. lia.
      * intros (n & -> & Hne & Hthere & Hnearer). destruct n as [|n].
        { simpl in Hthere. congruence. }
        rewrite Nat.iter_succ_r in Hne, Hthere. exists n.
        rewrite Nat.iter_succ_r. repeat split; [done.. |].
        intros k Hk. specialize (Hnearer (S k) ltac:(lia)).
        by rewrite Nat.iter_succ_r in Hnearer.
Qed.

(** Property X1.  [findTsConfig] returns the [tsconfig.json] of the
    nearest directory above the file that holds one, the walk going from
    the directory of the file upwards and leaving out the directory that
    is its own parent (the root, or [.] for a relative path); it returns
    [null] when none of the directories looked into holds one. *)
Theorem findTsConfig_nearest_configuration (w : World) (filePath : string) :
  let dirAt n := Nat.iter (S n) Path.dirname filePath in
  (forall tp,
      findTsConfig w filePath = Some tp <->
      exists n,
        tp = Path.join [dirAt n; "tsconfig.json"]
        /\ Path.dirname (dirAt n) <> dirAt n
        /\ existsSync w tp = true
        /\ forall k, (k < n)%nat ->
             existsSync w (Path.join [dirAt k; "tsconfig.json"]) = false)
  /\ (findTsConfig w filePath = None <->
      forall n, Path.dirname (dirAt n) <> dirAt n ->
                existsSync w (Path.join [dirAt n; "tsconfig.json"]) = false).
Proof.
  intros dirAt.
  pose proof (findTsConfigLoop_walk _ _ _ _ (findTsConfig_loop w filePath)) as Hwalk.
  assert (Hat : forall n, Nat.iter n Path.dirname (Path.dirname filePath) = dirAt n).
  { intros n. unfold dirAt. by rewrite Nat.iter_succ_r. }
  assert (Hsome : forall tp,
             findTsConfig w filePath = Some tp <->
             exists n,
               tp = Path.join [dirAt n; "tsconfig.json"]
               /\ Path.dirname (dirAt n) <> dirAt n
               /\ existsSync w tp = true
               /\ forall k, (k < n)%nat ->
                    existsSync w (Path.join [dirAt k; "tsconfig.json"]) = false).
  { intros tp. rewrite (Hwalk tp). unfold candidate.
    split; intros (n & Htp & Hne & Hthere & Hnearer); exists n.
    - rewrite Hat in Htp, Hne. repeat split; [done.. |].
      intros k Hk. rewrite <- Hat. by apply Hnearer.
    - rewrite Hat. repeat split; [done.. |].
      intros k Hk. rewrite Hat. by apply Hnearer. }
  split; [exact Hsome|]. split.
  - intros Hnone n Hne.
    induction n as [n IHn] using lt_wf_ind.
    destruct (existsSync w (Path.join [dirAt n; "tsconfig.json"])) eqn:Hex;
      [|reflexivity].
    exfalso.
    assert (Hmoves : forall k, (k <= n)%nat -> Path.dirname (dirAt k) <> dirAt k).
    { intros k Hk Hfix. apply Hne.
      replace n with ((n - k) + k)%nat by lia.
      clear - Hfix. induction (n - k)%nat as [|m IHm]; [exact Hfix|].
      unfold dirAt in *. simpl in *. by rewrite IHm. }
    assert (Hfound : exists tp, findTsConfig w filePath = Some tp).
    { eexists. apply Hsome. exists n. repeat split; [done | done |].
      intros k Hk. apply IHn; [lia|]. apply Hmoves. lia. }
    destruct Hfound as [tp Htp]. congruence.
  - intros Hall. destruct (findTsConfig w filePath) as [tp|] eqn:Hfind; [|reflexivity].
    destruct (proj1 (Hsome tp) eq_refl) as (n & -> & Hne & Hthere & _).
    rewrite (Hall n Hne) in Hthere. discriminate.
Qed.

(** *** The walk from a path in normal form *)

Lemma length_absPath l : (length l <= String.length (absPath l))%nat.
Proof.
  unfold absPath. change ("/" ++ Path.joinSegs l) with (String "/" (Path.joinSegs l)).
  simpl String.length.
  assert (length l <= S (String.length (Path.joinSegs l)))%nat; [|lia].
  induction l as [|x l IH]; [simpl; lia|].
  destruct l as [|y l]; [simpl; lia|].
  rewrite joinSegs_cons by done. rewrite !length_append. simpl in *. lia.
Qed.

Lemma absPath_snoc_neq ds d :
  Forall cleanSegment ds -> cleanSegment d -> absPath (ds ++ [d]) <> absPath ds.
Proof.
  intros Hds Hd Heq%absPath_inj; [| by apply Forall_app_2; [|constructor] | done].
  apply (f_equal length) in Heq. rewrite length_app in Heq. simpl in Heq. lia.
Qed.

Lemma ancestors_absPath fuel reversed :
  Forall cleanSegment reversed -> (length reversed < fuel)%nat ->
  ancestors fuel (absPath (rev reversed)) = map absPath (upward reversed).
Proof.
  revert fuel; induction reversed as [|d above IH]; intros fuel Hclean Hfuel;
    (destruct fuel as [|fuel]; [simpl in Hfuel; lia|]).
  - reflexivity.
  - apply Forall_cons in Hclean as [Hd Habove].
    assert (Hrev : Forall cleanSegment (rev above)) by by apply Forall_rev.
    cbn [ancestors upward map]. simpl rev.
    rewrite dirname_absPath by done.
    destruct (String.eqb_spec (absPath (rev above ++ [d])) (absPath (rev above)))
      as [Heq|_]; [by apply absPath_snoc_neq in Heq|].
    cbn [negb]. f_equal. apply IH; [done | simpl in Hfuel; lia].
Qed.

Lemma candidate_absPath ds :
  Forall cleanSegment ds -> candidate (absPath ds) = absPath (ds ++ ["tsconfig.json"]).
Proof.
  intros Hds. unfold candidate.
  change "tsconfig.json" with (Path.joinSegs ["tsconfig.json"]) at 1.
  apply join_below; [done | | done].
  constructor; [|constructor]. by repeat split.
Qed.

Lemma candidates_upward reversed :
  Forall cleanSegment reversed ->
  map candidate (map absPath (upward reversed))
  = map (fun d => absPath (d ++ ["tsconfig.json"])) (upward reversed).
Proof.
  induction 1 as [|d above Hd Habove IH]; [reflexivity|].
  cbn [upward map]. rewrite IH. f_equal.
  apply candidate_absPath. apply Forall_rev. by constructor.
Qed.

(** Property X2.  For a file path in normal form, [findTsConfig] looks
    into the directory of the file and then into each directory above it,
    and returns the first [tsconfig.json] that exists; the last directory
    it looks into is the top-level one, not the root directory.  A file
    that stands in the root directory has no configuration. *)
Theorem findTsConfig_walks_up_to_the_top_directory
    (w : World) (dirs : list string) (name : string) :
  Forall cleanSegment dirs ->
  cleanSegment name ->
  findTsConfig w (absPath (dirs ++ [name]))
  = head (filter (fun c => existsSync w c = true)
            (map (fun d => absPath (d ++ ["tsconfig.json"])) (upward (rev dirs)))).
Proof.
  intros Hdirs Hname. rewrite findTsConfig_ancestors.
  rewrite dirname_absPath by done.
  rewrite <- (rev_involutive dirs) at 2.
  rewrite ancestors_absPath.
  - by rewrite candidates_upward by by apply Forall_rev.
  - by apply Forall_rev.
  - rewrite length_rev. pose proof (length_absPath (dirs ++ [name])) as Hl.
    rewrite length_app in Hl. cbn [length] in Hl. lia.
Qed.

(** ** The cache of [getTsConfigPaths] *)

(** Property X3.  Once a configuration was loaded, every later lookup that
    finds the same [tsconfig.json] returns the record of that load and
    changes nothing: the file is not read again, whatever became of it.
    The later state is any state whose cache still holds what it held
    after the load, as every state reached through the wrapped operations
    does. *)
Theorem getTsConfigPaths_memoises
    (st st1 st2 : State) (filePath otherPath : string) (r : TsPaths) :
  getTsConfigPaths filePath st = (inr (Some r), st1) ->
  tsconfigCache st1 ⊆ tsconfigCache st2 ->
  findTsConfig (world st2) otherPath = findTsConfig (world st) filePath ->
  getTsConfigPaths otherPath st2 = (inr (Some r), st2).
Proof.
  intros Hfirst Hcache Hsame.
  rewrite getTsConfigPaths_cases in Hfirst. rewrite getTsConfigPaths_cases, Hsame.
  destruct (findTsConfig (world st) filePath) as [tp|]; [|discriminate].
  assert (Hkept : tsconfigCache st1 !! tp = Some r).
  { destruct (tsconfigCache st !! tp) as [r'|] eqn:Hc.
    - injection Hfirst as -> <-. exact Hc.
    - destruct (settingsOf (world st) tp) as [e|r']; [discriminate|].
      injection Hfirst as -> <-. simpl. apply lookup_insert_eq. }
  by rewrite (lookup_weaken _ _ _ _ Hkept Hcache).
Qed.

(** Property X4.  A configuration that fails to load is not remembered:
    the lookup answers [null] and logs the error, and the next lookup
    reads and parses the file again and logs the error again. *)
Theorem failed_configuration_is_loaded_again
    (st : State) (filePath tp : string) (e : JsExn) :
  findTsConfig (world st) filePath = Some tp ->
  tsconfigCache st !! tp = None ->
  settingsOf (world st) tp = inl e ->
  let line := [LogText "Failed to parse tsconfig.json:"; LogThrown e] in
  getTsConfigPaths filePath st = (inr None, addLog line st)
  /\ getTsConfigPaths filePath (addLog line st)
     = (inr None, addLog line (addLog line st)).
Proof.
  intros Hfind Hcache Hfail line.
  rewrite !getTsConfigPaths_cases. simpl. by rewrite Hfind, Hcache, Hfail.
Qed.

(** *** Nothing is taken back *)

#[local] Instance advances_preorder : PreOrder advances.
Proof.
  split.
  - by intros st.
  - intros a b c (? & ? & ?) (? & ? & ?). repeat split; by etrans.
Qed.

Lemma advances_same st st' :
  tsconfigCache st' = tsconfigCache st -> console st' = console st ->
  nativeCalls st' = nativeCalls st -> advances st st'.
Proof. intros Hc Hl Hn. unfold advances. by rewrite Hc, Hl, Hn. Qed.

Lemma onlyAdds_ret {A} (a : A) : onlyAdds (mret a).
Proof. by intros st. Qed.

Lemma onlyAdds_throw {A} (e : JsExn) : onlyAdds (mthrow e : M A).
Proof. by intros st. Qed.

Lemma onlyAdds_bind {A B} (m : M A) (f : A -> M B) :
  onlyAdds m -> (forall a, onlyAdds (f a)) -> onlyAdds (m ≫= f).
Proof.
  intros Hm Hf st. unfoldM. specialize (Hm st).
  destruct (m st) as [[e|a] st']; simpl in *; [done|]. etrans; [exact Hm | apply Hf].
Qed.

Lemma onlyAdds_tryCatch {A} (m : M A) (h : JsExn -> M A) :
  onlyAdds m -> (forall e, onlyAdds (h e)) -> onlyAdds (tryCatch m h).
Proof.
  intros Hm Hh st. unfoldM. specialize (Hm st).
  destruct (m st) as [[e|a] st']; simpl in *; [|done]. etrans; [exact Hm | apply Hh].
Qed.

Lemma onlyAdds_gets {A} (f : State -> A) : onlyAdds (gets f).
Proof. by intros st. Qed.

Lemma onlyAdds_consoleError line : onlyAdds (consoleError line).
Proof. intros st. repeat split; simpl; [done | by apply prefix_app_r | done]. Qed.

Lemma onlyAdds_ofHost {A} (r : HostExn + A) : onlyAdds (ofHost r).
Proof. intros st. by destruct r. Qed.

Lemma onlyAdds_setTable (f : State -> gmap Z string) :
  onlyAdds (modify (fun st => setFdToPath (f st) st)).
Proof. by intros st. Qed.

Lemma onlyAdds_open a : onlyAdds (callNativeOpenSync a).
Proof.
  intros st. unfold callNativeOpenSync.
  destruct (nativeOpenSync _ _) as [[e|fd] w']; repeat split; simpl;
    by try apply prefix_app_r.
Qed.

Lemma onlyAdds_write a : onlyAdds (callNativeWriteSync a).
Proof.
  intros st. unfold callNativeWriteSync.
  destruct (nativeWriteSync _ _) as [[e|fd] w']; repeat split; simpl;
    by try apply prefix_app_r.
Qed.

Lemma onlyAdds_close fd : onlyAdds (callNativeCloseSync fd).
Proof.
  intros st. unfold callNativeCloseSync.
  destruct (nativeCloseSync _ _) as [[e|[]] w']; repeat split; simpl;
    by try apply prefix_app_r.
Qed.

Lemma onlyAdds_compile code opts : onlyAdds (callCompileVueSFC code opts).
Proof.
  intros st. unfold callCompileVueSFC.
  by destruct (compileVueSFC _ _ _) as [[e|r] w'].
Qed.

(** The one place where the cache changes: a record is added under a key
    that had none. *)
Lemma onlyAdds_getTsConfigPaths p : onlyAdds (getTsConfigPaths p).
Proof.
  intros st. rewrite getTsConfigPaths_cases.
  destruct (findTsConfig (world st) p) as [tp|]; [|done].
  destruct (tsconfigCache st !! tp) as [r|] eqn:Hc; [done|].
  destruct (settingsOf (world st) tp) as [e|r].
  - repeat split; simpl; [done | by apply prefix_app_r | done].
  - repeat split; simpl; [|done..]. by apply insert_subseteq.
Qed.

Hint Resolve onlyAdds_ret onlyAdds_throw onlyAdds_gets onlyAdds_consoleError
  onlyAdds_ofHost onlyAdds_setTable onlyAdds_open onlyAdds_write onlyAdds_close
  onlyAdds_compile onlyAdds_getTsConfigPaths : adds.

Ltac adds :=
  repeat first
    [ progress (intros)
    | solve [eauto with adds]
    | match goal with
      | |- onlyAdds (mbind _ _) => apply onlyAdds_bind
      | |- onlyAdds (tryCatch _ _) => apply onlyAdds_tryCatch
      | |- onlyAdds (match ?x with _ => _ end) => destruct x
      | |- onlyAdds (if ?b then _ else _) => destruct b
      end ].

Lemma onlyAdds_forEach {A} (f : A -> M unit) l :
  (forall a, onlyAdds (f a)) -> onlyAdds (forEach f l).
Proof. intros Hf. induction l as [|a l IH]; simpl; adds. Qed.

Lemma onlyAdds_writeSync args : onlyAdds (writeSync args).
Proof.
  unfold writeSync, intercept, unresolved, catchBlock, tryBody, afterCompile,
    emitJs, resolveVueFilePath, shouldGenerateSourceMap, callReadFileSync.
  adds; apply onlyAdds_forEach; intros;
    unfold emitCss, writeFileNatively; adds.
Qed.

Lemma onlyAdds_openSync args : onlyAdds (openSync args).
Proof. unfold openSync. adds. Qed.

Lemma onlyAdds_closeSync fd : onlyAdds (closeSync fd).
Proof. unfold closeSync. adds. Qed.

Lemma runCalls_advances calls st : advances st (runCalls calls st).2.
Proof.
  revert st; induction calls as [|c calls IH]; intros st; [done|].
  simpl. assert (Hstep : advances st (stepCall c st).2).
  { destruct c as [a|fd|a]; simpl.
    - pose proof (onlyAdds_openSync a st) as Ho.
      by destruct (openSync a st) as [[e|fd] st'].
    - apply onlyAdds_closeSync.
    - apply onlyAdds_writeSync. }
  destruct (stepCall c st) as [o st']. specialize (IH st').
  destruct (runCalls calls st') as [os st'']. simpl in *. by etrans.
Qed.

(** Property X5.  The cache has no invalidation: whatever the checker does
    through the wrapped operations afterwards, a record that is in the
    cache stays there as it is. *)
Theorem cached_records_are_never_replaced
    (calls : list FsCall) (st : State) (tp : string) (r : TsPaths) :
  tsconfigCache st !! tp = Some r ->
  tsconfigCache (runCalls calls st).2 !! tp = Some r.
Proof.
  intros Hc. destruct (runCalls_advances calls st) as (Hsub & _).
  by eapply lookup_weaken.
Qed.

(** ** The directories of a configuration *)

Lemma settingsOf_declared w tp content :
  readFileSync w tp = inr content ->
  settingsOf w tp =
  match Json.parse (CommentRegex.removeComments content) with
  | None => inl SyntaxError
  | Some tsconfig =>
      match Json.prop tsconfig "compilerOptions" with
      | inl _ => inl TypeError
      | inr _ =>
          match directoryOf w (Path.dirname tp) (inr (declaredOption content "outDir")) with
          | inl e => inl e
          | inr o =>
              match directoryOf w (Path.dirname tp)
                      (inr (declaredOption content "rootDir")) with
              | inl e => inl e
              | inr r =>
                  inr {| outDir := o; rootDir := r;
                         sourceMap := isTrue (inr (declaredOption content "sourceMap")) |}
              end
          end
      end
  end.
Proof.
  intros Hread. unfold settingsOf, declaredOption. rewrite Hread.
  destruct (Json.parse _) as [tsconfig|]; [|reflexivity].
  unfold settingsOfJson.
  destruct (Json.prop tsconfig "compilerOptions") as [[]|co] eqn:Hco; [reflexivity|].
  assert (Hobj : forall key, exists o,
             Json.prop (compilerOptionsOf tsconfig) key = inr o).
  { intros key. unfold compilerOptionsOf. rewrite Hco.
    destruct co as [v|]; [|simpl; eauto].
    destruct (Json.truthy (Some v)) eqn:Ht; [|simpl; eauto].
    destruct v; simpl; eauto; discriminate Ht. }
  destruct (Hobj "outDir") as [od ->], (Hobj "rootDir") as [rd ->],
    (Hobj "sourceMap") as [sm ->].
  reflexivity.
Qed.

Lemma directoryOf_inr w projectRoot option d :
  directoryOf w projectRoot (inr option) = inr d ->
  d = match option with
      | Some (Json.JStr s) =>
          if JsString.truthy s then Path.resolve (cwd w) [projectRoot; s]
          else projectRoot
      | _ => projectRoot
      end
  /\ (Json.truthy option = true -> exists s, option = Some (Json.JStr s)).
Proof.
  unfold directoryOf.
  destruct option as [v|]; [|by intros [= <-]].
  destruct (Json.truthy (Some v)) eqn:Ht.
  - destruct v as [| b | m e | s | l | l]; try discriminate.
    intros [= <-]. simpl in Ht. rewrite Ht. eauto.
  - intros [= <-]. split; [|discriminate].
    destruct v as [| b | m e | s | l | l]; try reflexivity.
    simpl in Ht. by rewrite Ht.
Qed.

(** Property X6.  The record of a configuration that loads: an [outDir] or
    [rootDir] that is a non-empty string is resolved against the directory
    of the configuration file, and any other value stands for that
    directory itself (such a value is then absent or falsy: [null],
    [false], [0] or the empty string). *)
Theorem configured_directories
    (st st' : State) (filePath tp content : string) (r : TsPaths) :
  findTsConfig (world st) filePath = Some tp ->
  tsconfigCache st !! tp = None ->
  readFileSync (world st) tp = inr content ->
  getTsConfigPaths filePath st = (inr (Some r), st') ->
  let projectRoot := Path.dirname tp in
  let directory (option : option Json.JValue) :=
    match option with
    | Some (Json.JStr s) =>
        if JsString.truthy s then Path.resolve (cwd (world st)) [projectRoot; s]
        else projectRoot
    | _ => projectRoot
    end in
  outDir r = directory (declaredOption content "outDir")
  /\ rootDir r = directory (declaredOption content "rootDir")
  /\ (forall key, key = "outDir" \/ key = "rootDir" ->
        Json.truthy (declaredOption content key) = true ->
        exists s, declaredOption content key = Some (Json.JStr s)).
Proof.
  intros Hfind Hcache Hread Hget projectRoot directory.
  rewrite getTsConfigPaths_cases, Hfind, Hcache in Hget.
  rewrite (settingsOf_declared _ _ _ Hread) in Hget.
  destruct (Json.parse _) as [tsconfig|]; [|discriminate].
  destruct (Json.prop tsconfig "compilerOptions") as [[]|co]; [discriminate|].
  destruct (directoryOf _ _ (inr (declaredOption content "outDir")))
    as [e|o] eqn:Ho; [discriminate|].
  destruct (directoryOf _ _ (inr (declaredOption content "rootDir")))
    as [e|d] eqn:Hd; [discriminate|].
  injection Hget as <- _. simpl.
  apply directoryOf_inr in Ho as [-> Hos], Hd as [-> Hds].
  repeat split; [done.. |]. by intros key [-> | ->].
Qed.

(** Property X7.  An [outDir] or [rootDir] that is truthy and not a string
    ([true], a non-zero number, an array, an object) makes [path.resolve]
    throw: the error is logged, no record is cached, and the lookup
    answers [null], as it does for a file that is not JSON. *)
Theorem directory_that_is_not_a_string
    (st : State) (filePath tp content key : string) (v : Json.JValue) :
  findTsConfig (world st) filePath = Some tp ->
  tsconfigCache st !! tp = None ->
  readFileSync (world st) tp = inr content ->
  key = "outDir" \/ key = "rootDir" ->
  declaredOption content key = Some v ->
  Json.truthy (Some v) = true ->
  (forall s, v <> Json.JStr s) ->
  getTsConfigPaths filePath st
  = (inr None,
     addLog [LogText "Failed to parse tsconfig.json:"; LogThrown TypeError] st).
Proof.
  intros Hfind Hcache Hread Hkey Hdecl Htruthy Hnot.
  rewrite getTsConfigPaths_cases, Hfind, Hcache.
  rewrite (settingsOf_declared _ _ _ Hread).
  assert (Hbad : directoryOf (world st) (Path.dirname tp) (inr (Some v))
                 = inl TypeError).
  { unfold directoryOf. rewrite Htruthy.
    destruct v; try reflexivity. by destruct (Hnot s). }
  assert (Htype : forall option,
             match directoryOf (world st) (Path.dirname tp) (inr option) with
             | inl e => e = TypeError
             | inr _ => True
             end).
  { intros [o|]; unfold directoryOf; [|done].
    destruct (Json.truthy (Some o)); [|done]. by destruct o. }
  unfold declaredOption in Hdecl.
  destruct (Json.parse _) as [tsconfig|] eqn:Hparse; [|discriminate].
  destruct (Json.prop tsconfig "compilerOptions") as [[]|co] eqn:Hco.
  { unfold compilerOptionsOf in Hdecl. rewrite Hco in Hdecl.
    destruct key; discriminate. }
  assert (Hdecl' : declaredOption content key = Some v).
  { unfold declaredOption. by rewrite Hparse. }
  destruct Hkey as [-> | ->].
  - by rewrite Hdecl', Hbad.
  - rewrite Hdecl', Hbad.
    pose proof (Htype (declaredOption content "outDir")) as Hout.
    destruct (directoryOf _ _ (inr (declaredOption content "outDir"))) as [e|o];
      [by rewrite Hout | reflexivity].
Qed.

(** ** The path mapper *)

Lemma take_drop_string n s : JsString.take n s ++ JsString.drop n s = s.
Proof.
  revert s; induction n as [|n IH]; intros [|c s]; simpl; try reflexivity.
  by rewrite append_cons, IH.
Qed.

Lemma endsWith_split s p :
  JsString.endsWith s p = true -> exists stem, s = stem ++ p.
Proof.
  unfold JsString.endsWith. intros [_ Heq%String.eqb_eq]%andb_true_iff.
  exists (JsString.take (String.length s - String.length p) s).
  symmetry. etrans; [|apply (take_drop_string (String.length s - String.length p) s)].
  by rewrite Heq.
Qed.

Lemma endsWith_append a b : JsString.endsWith (a ++ b) b = true.
Proof.
  unfold JsString.endsWith. rewrite length_append. apply andb_true_iff. split.
  - apply Nat.leb_le. lia.
  - replace (String.length a + String.length b - String.length b)%nat
      with (String.length a) by lia.
    apply String.eqb_eq.
    induction a as [|c a IH]; [by destruct b|]. by rewrite append_cons.
Qed.

(** Property X8.  Where the mapper falls back (no configuration, or a path
    that does not begin with [outDir]), it gives a placeholder [X.vue.js]
    the source path [X.vue]: what it cuts off is the extension [.js] and
    nothing else. *)
Theorem fallback_cuts_the_script_extension (st : State) (jsFilePath : string) :
  JsString.endsWith jsFilePath ".vue.js" = true ->
  (getTsConfigPaths jsFilePath st).1 = inr None
  \/ (exists paths,
         (getTsConfigPaths jsFilePath st).1 = inr (Some paths)
         /\ JsString.startsWith jsFilePath (outDir paths) = false) ->
  exists vue st',
    resolveVueFilePath jsFilePath st = (inr (Some vue), st')
    /\ vue ++ ".js" = jsFilePath
    /\ JsString.endsWith vue ".vue" = true.
Proof.
  intros (stem & ->)%endsWith_split Hbranch.
  assert (Hstem : JsString.slice_0_m3 (stem ++ ".vue.js") = stem ++ ".vue").
  { change ".vue.js" with (".vue" ++ ".js"). rewrite <- append_assoc.
    apply slice_0_m3_js. }
  assert (Hback : (stem ++ ".vue") ++ ".js" = stem ++ ".vue.js").
  { by rewrite append_assoc. }
  rewrite resolveVueFilePath_cases.
  destruct (getTsConfigPaths (stem ++ ".vue.js") st) as [[e|[paths|]] st'];
    simpl in Hbranch.
  - by destruct Hbranch as [[=] | (paths & [=] & _)].
  - destruct Hbranch as [[=] | (paths' & [= <-] & ->)].
    rewrite Hstem. eexists _, _. split; [reflexivity|].
    split; [exact Hback | apply endsWith_append].
  - rewrite Hstem. eexists _, _. split; [reflexivity|].
    split; [exact Hback | apply endsWith_append].
Qed.

(** Property X9.  A project that emits in place (its [outDir] and
    [rootDir] are the same directory, as when neither is configured): an
    output path below that directory is mapped to itself less [.js], which
    is what the fallback gives. *)
Theorem in_place_output_maps_like_the_fallback
    (st st' : State) (jsFilePath : string) (paths : TsPaths)
    (dir rel : list string) :
  getTsConfigPaths jsFilePath st = (inr (Some paths), st') ->
  outDir paths = absPath dir ->
  rootDir paths = absPath dir ->
  Forall cleanSegment dir ->
  Forall cleanSegment rel ->
  rel <> [] ->
  jsFilePath = absPath (dir ++ rel) ->
  resolveVueFilePath jsFilePath st
  = (inr (Some (JsString.slice_0_m3 jsFilePath)), st').
Proof.
  intros Hget Hout Hroot Hdir Hrel Hne ->.
  rewrite resolveVueFilePath_cases, Hget, Hout, Hroot.
  destruct (absPath_app_prefix dir rel) as [x Hx].
  rewrite Hx at 1. rewrite startsWith_append.
  by rewrite relative_below, join_below.
Qed.

Lemma noSlash_append a b : noSlash a -> noSlash b -> noSlash (a ++ b).
Proof.
  intros Ha Hb. induction a as [|c a IH]; [done|].
  rewrite append_cons. destruct Ha as [Hc Ha]. split; [done | by apply IH].
Qed.

Lemma declaredOption_Some content key v :
  declaredOption content key = Some v ->
  exists tsconfig co,
    Json.parse (CommentRegex.removeComments content) = Some tsconfig
    /\ Json.prop tsconfig "compilerOptions" = inr co.
Proof.
  unfold declaredOption.
  destruct (Json.parse _) as [tsconfig|]; [|discriminate].
  destruct (Json.prop tsconfig "compilerOptions") as [[]|co] eqn:Hco; [|eauto].
  unfold compilerOptionsOf. rewrite Hco. simpl. discriminate.
Qed.

(** Property X10.  From the configuration file to the source path.  A
    project stands in a directory in normal form, its [tsconfig.json]
    names the output directory [o] and the source directory [r], and the
    checker emits the placeholder of a component below the output
    directory: on the first lookup the placeholder
    [<project>/o/.../X.vue.js] is mapped to [<project>/r/.../X.vue]. *)
Theorem project_output_maps_to_its_source
    (st : State) (project : list string) (o r : string) (rel : list string)
    (name content : string) :
  Forall cleanSegment project ->
  cleanSegment o ->
  cleanSegment r ->
  Forall cleanSegment rel ->
  noSlash name ->
  let tp := absPath (project ++ ["tsconfig.json"]) in
  let jsFilePath := absPath (project ++ [o] ++ rel ++ [name ++ ".vue.js"]) in
  findTsConfig (world st) jsFilePath = Some tp ->
  tsconfigCache st !! tp = None ->
  readFileSync (world st) tp = inr content ->
  declaredOption content "outDir" = Some (Json.JStr o) ->
  declaredOption content "rootDir" = Some (Json.JStr r) ->
  (resolveVueFilePath jsFilePath st).1
  = inr (Some (absPath (project ++ [r] ++ rel ++ [name ++ ".vue"]))).
Proof.
  intros Hproject Ho Hr Hrel Hname tp jsFilePath Hfind Hcache Hread Hout Hroot.
  assert (Hfile : cleanSegment (name ++ ".vue.js")).
  { change ".vue.js" with (".vue" ++ ".js"). rewrite <- append_assoc.
    apply cleanSegment_js, noSlash_append; [done | by repeat split]. }
  assert (Hroot' : Path.dirname tp = absPath project).
  { apply dirname_absPath; [done | by repeat split]. }
  rewrite resolveVueFilePath_cases, getTsConfigPaths_cases, Hfind, Hcache.
  rewrite (settingsOf_declared _ _ _ Hread).
  destruct (declaredOption_Some _ _ _ Hout) as (tsconfig & co & -> & ->).
  rewrite Hout, Hroot. unfold directoryOf. simpl Json.truthy.
  rewrite !cleanSegment_nonEmpty by done. rewrite Hroot'.
  rewrite !resolve_child by done. cbn [outDir rootDir fst snd].
  subst jsFilePath.
  rewrite (app_assoc project [o]).
  destruct (absPath_app_prefix (project ++ [o]) (rel ++ [name ++ ".vue.js"])) as [x Hx].
  rewrite Hx at 1. rewrite startsWith_append.
  assert (Hbelow : Forall cleanSegment (rel ++ [name ++ ".vue.js"])).
  { apply Forall_app_2; [done | by constructor]. }
  assert (Hout' : Forall cleanSegment (project ++ [o])).
  { apply Forall_app_2; [done | by constructor]. }
  assert (Hsrc : Forall cleanSegment (project ++ [r])).
  { apply Forall_app_2; [done | by constructor]. }
  rewrite relative_below by (done || by destruct rel).
  rewrite join_below by (done || by destruct rel).
  simpl fst. do 2 f_equal.
  rewrite (app_assoc project [r]), !(app_assoc _ rel).
  change ".vue.js" with (".vue" ++ ".js"). rewrite <- append_assoc, <- map_path.
  apply slice_0_m3_js.
Qed.

(** ** The write wrapper *)

Lemma runCalls_writes_table writes st :
  fdToPath (runCalls (map DoWrite writes) st).2 = fdToPath st.
Proof.
  revert st; induction writes as [|a writes IH]; intros st; [reflexivity|].
  simpl. specialize (IH (writeSync a st).2).
  destruct (runCalls (map DoWrite writes) (writeSync a st).2) as [os st''].
  simpl in *. rewrite IH. apply keepsTable_writeSync.
Qed.

(** Property X11.  Once [closeSync] was called on a descriptor, its writes
    are no longer intercepted, whether the real close succeeded or threw
    and whatever was written through the wrapper in between: a write on it
    is the real write. *)
Theorem write_after_close_is_not_intercepted
    (st : State) (writes : list WriteArgs) (args : WriteArgs) :
  let closed := (closeSync (w_fd args) st).2 in
  let st1 := (runCalls (map DoWrite writes) closed).2 in
  writeSync args st1 =
  let '(r, w') := nativeWriteSync (world st1) args in
  (seenBy r, addCall (CallWrite args) (setWorld w' st1)).
Proof.
  intros closed st1. rewrite <- callNativeWriteSync_eq.
  apply writeSync_not_placeholder.
  assert (Hgone : fdToPath st1 !! w_fd args = None).
  { subst st1 closed. rewrite runCalls_writes_table, closeSync_table.
    apply lookup_delete_eq. }
  by rewrite Hgone.
Qed.

(** Property X12.  A placeholder whose source file does not exist is
    written as the checker wrote it: the compiler is not called, nothing
    more is logged, and the one native call is the real write of the
    original arguments. *)
Theorem missing_source_keeps_payload
    (st st1 : State) (args : WriteArgs) (filePath payload vue : string) :
  fdToPath st !! w_fd args = Some filePath ->
  JsString.endsWith filePath ".vue.js" = true ->
  w_data args = TextData payload ->
  resolveVueFilePath filePath st = (inr (Some vue), st1) ->
  JsString.truthy vue = true ->
  existsSync (world st1) vue = false ->
  writeSync args st =
  let '(r, w') := nativeWriteSync (world st1) args in
  (seenBy r, addCall (CallWrite args) (setWorld w' st1)).
Proof.
  intros Hfd Hends Hdata Hres Htruthy Hmissing.
  assert (Hp : placeholderPath (fdToPath st !! w_fd args) (w_data args)
               = Some filePath).
  { apply placeholderPath_Some. eauto. }
  rewrite (writeSync_intercepted _ _ _ _ _ Hp Hres Htruthy).
  unfold tryBody. unfoldM. rewrite Hmissing.
  apply callNativeWriteSync_eq.
Qed.

(** The [try] block up to the result of the compiler. *)
Lemma tryBody_compiled args filePath vue st1 code sm st2 result w3 :
  existsSync (world st1) vue = true ->
  readFileSync (world st1) vue = inr code ->
  shouldGenerateSourceMap filePath st1 = (inr sm, st2) ->
  compileVueSFC (world st2) code
    (compileOptions (Path.dirname vue) (Path.basename vue) sm) = (inr result, w3) ->
  tryBody args filePath vue st1
  = afterCompile args filePath vue sm result (setWorld w3 st2).
Proof.
  intros Hex Hread Hsm Hcomp.
  unfold tryBody, callReadFileSync, callCompileVueSFC. unfoldM.
  by rewrite Hex, Hread, Hsm, Hcomp.
Qed.

(** The script of a result without source map to write. *)
Lemma emitJs_plain filePath sm js st :
  sm = false \/ js_sourceMap js = None ->
  emitJs filePath sm js st = (inr (js_code js), st).
Proof.
  unfold emitJs. intros [-> | ->]; [|reflexivity].
  by destruct (js_sourceMap js).
Qed.

(** Property X13.  When the component compiles without diagnostics, styles
    and source map, the wrapper makes one native call: the real write on
    the descriptor of the call, with the compiled script in place of the
    payload and the other arguments (position, encoding) as given.  That
    call stands inside the [try] block: if it throws, the error is logged
    and the original payload is written after all. *)
Theorem compiled_script_replaces_payload
    (st : State) (args : WriteArgs) (filePath payload vue code : string)
    (st1 st2 : State) (sm : bool) (result : CompileResult) (w3 : World) :
  fdToPath st !! w_fd args = Some filePath ->
  JsString.endsWith filePath ".vue.js" = true ->
  w_data args = TextData payload ->
  resolveVueFilePath filePath st = (inr (Some vue), st1) ->
  JsString.truthy vue = true ->
  existsSync (world st1) vue = true ->
  readFileSync (world st1) vue = inr code ->
  shouldGenerateSourceMap filePath st1 = (inr sm, st2) ->
  compileVueSFC (world st2) code
    (compileOptions (Path.dirname vue) (Path.basename vue) sm) = (inr result, w3) ->
  r_errors result = [] ->
  r_css result = [] ->
  sm = false \/ js_sourceMap (r_js result) = None ->
  let compiled :=
    {| w_fd := w_fd args; w_data := TextData (js_code (r_js result));
       w_rest := w_rest args |} in
  writeSync args st =
    match nativeWriteSync w3 compiled with
    | (inr n, w4) => (inr n, addCall (CallWrite compiled) (setWorld w4 st2))
    | (inl e, w4) =>
        let caught :=
          addLog (failedToCompile (HostThrown e))
            (addCall (CallWrite compiled) (setWorld w4 st2)) in
        let '(r, w5) := nativeWriteSync w4 args in
        (seenBy r, addCall (CallWrite args) (setWorld w5 caught))
    end.
Proof.
  intros Hfd Hends Hdata Hres Htruthy Hex Hread Hsm Hcomp Herr Hcss Hmap compiled.
  assert (Hp : placeholderPath (fdToPath st !! w_fd args) (w_data args)
               = Some filePath).
  { apply placeholderPath_Some. eauto. }
  rewrite (writeSync_intercepted _ _ _ _ _ Hp Hres Htruthy).
  rewrite (tryBody_compiled _ _ _ _ _ _ _ _ _ Hex Hread Hsm Hcomp).
  unfold afterCompile. rewrite Herr, Hcss. unfoldM.
  change (0 <? length [])%nat with false. cbv beta iota.
  rewrite (emitJs_plain _ _ _ _ Hmap). cbv beta iota.
  simpl forEach. unfoldM.
  fold compiled. rewrite callNativeWriteSync_eq. simpl world.
  destruct (nativeWriteSync w3 compiled) as [[e|n] w4]; simpl; [|reflexivity].
  rewrite callNativeWriteSync_eq. reflexivity.
Qed.

(** *** The files written beside the script *)

(** Writing a source map: open, stringify, write, close. *)
Lemma write_map (path : string) (map : SourceMap) (text : string) {A} (k : M A) st :
  stringify map = inr text ->
  (mapFd ← callNativeOpenSync {| o_path := PathString path; o_rest := [ArgString "w"] |};
   text' ← ofHost (stringify map);
   callNativeWriteSync {| w_fd := mapFd; w_data := TextData text'; w_rest := [] |};;
   callNativeCloseSync mapFd;;
   k) st
  = (writeFileNatively path text;; k) st.
Proof.
  intros Hs. unfold writeFileNatively. unfoldM. rewrite Hs.
  destruct (callNativeOpenSync _ st) as [[e|mapFd] st1]; [reflexivity|].
  destruct (callNativeWriteSync _ st1) as [[e|n] st2]; [reflexivity|].
  destruct (callNativeCloseSync mapFd st2) as [[e|[]] st3]; reflexivity.
Qed.

(** Property X14.  One turn of the loop over the styles of a result, for
    an output file and a style name in normal form: the style is written,
    by an open with the flag [w], a write and a close, to the file of that
    name in the directory of the output file.  When source maps are on and
    the style has one, the map is first written in the same way to that
    path with [.map] appended, and the style text ends with a comment that
    names the map file. *)
Theorem style_is_written_beside_the_output
    (st : State) (filePath : string) (dirs : list string) (name : string)
    (sm : bool) (css : CompiledCss) :
  filePath = absPath (dirs ++ [name]) ->
  Forall cleanSegment dirs ->
  cleanSegment name ->
  cleanSegment (css_filename css) ->
  let cssPath := absPath (dirs ++ [css_filename css]) in
  (sm = false \/ css_sourceMap css = None ->
   emitCss filePath sm css st = writeFileNatively cssPath (css_code css) st)
  /\ (forall map text,
        sm = true -> css_sourceMap css = Some map -> stringify map = inr text ->
        emitCss filePath sm css st
        = (writeFileNatively (cssPath ++ ".map") text;;
           writeFileNatively cssPath
             (css_code css
              ++ String "010" "/*# sourceMappingURL=" ++ css_filename css ++ ".map */"))
            st).
Proof.
  intros -> Hdirs Hname Hcss cssPath.
  assert (Hpath : forall w,
             Path.resolve (cwd w)
               [Path.dirname (absPath (dirs ++ [name])); css_filename css]
             = cssPath).
  { intros w. by rewrite dirname_absPath, resolve_child. }
  assert (Hbase : Path.basename cssPath = css_filename css).
  { by apply basename_absPath. }
  split.
  - intros Hplain. unfold emitCss. unfoldM. rewrite Hpath.
    destruct Hplain as [-> | ->]; [|reflexivity].
    by destruct (css_sourceMap css).
  - intros map text -> Hmap Htext. unfold emitCss. unfoldM.
    rewrite Hpath, Hbase, Hmap. unfold writeFileNatively. unfoldM. rewrite Htext.
    destruct (callNativeOpenSync _ st) as [[e|mapFd] st1]; [reflexivity|].
    destruct (callNativeWriteSync _ st1) as [[e|n] st2]; [reflexivity|].
    destruct (callNativeCloseSync mapFd st2) as [[e|[]] st3]; reflexivity.
Qed.

(** Property X15.  A style whose name is an absolute path is written
    there, wherever the output file stands: [path.resolve] drops the
    directory of the output file.  When source maps are on and the style
    has one, the map is written first, to that path with [.map] appended,
    and the style text ends with the comment that names it. *)
Theorem style_with_an_absolute_name_is_written_there
    (st : State) (filePath : string) (segs : list string)
    (sm : bool) (css : CompiledCss) :
  css_filename css = absPath segs ->
  Forall cleanSegment segs ->
  (sm = false \/ css_sourceMap css = None ->
   emitCss filePath sm css st = writeFileNatively (absPath segs) (css_code css) st)
  /\ (forall map text,
        sm = true -> css_sourceMap css = Some map -> stringify map = inr text ->
        emitCss filePath sm css st
        = (writeFileNatively (absPath segs ++ ".map") text;;
           writeFileNatively (absPath segs)
             (css_code css
              ++ String "010" "/*# sourceMappingURL="
              ++ Path.basename (absPath segs) ++ ".map */"))
            st).
Proof.
  intros Hname Hsegs.
  assert (Hpath : Path.resolve (cwd (world st)) [Path.dirname filePath; absPath segs]
                  = absPath segs).
  { change (Path.resolve (cwd (world st)) [Path.dirname filePath; absPath segs])
      with (Path.resolve (cwd (world st)) [absPath segs]).
    by apply resolve_absPath. }
  split.
  - intros Hplain. unfold emitCss. unfoldM. rewrite Hname, Hpath.
    destruct Hplain as [-> | ->]; [|reflexivity].
    by destruct (css_sourceMap css).
  - intros map text -> Hmap Htext. unfold emitCss. unfoldM.
    rewrite Hname, Hpath, Hmap. unfold writeFileNatively. unfoldM. rewrite Htext.
    destruct (callNativeOpenSync _ st) as [[e|mapFd] st1]; [reflexivity|].
    destruct (callNativeWriteSync _ st1) as [[e|n] st2]; [reflexivity|].
    destruct (callNativeCloseSync mapFd st2) as [[e|[]] st3]; reflexivity.
Qed.

(** Property X16.  When source maps are on and the compiled script has
    one, the wrapper makes four native calls, all of which succeed here:
    it opens the file of the placeholder path with [.map] appended, with
    the flag [w], writes the stringified map to it and closes it; then it
    writes, on the descriptor of the call and with its other arguments,
    the compiled script followed by a comment that names the map by the
    base name of the placeholder path.  The handle table, the cache and
    the console are as the mapper and the source-map policy left them. *)
Theorem script_map_is_written_beside_the_script
    (st : State) (args : WriteArgs) (filePath payload vue code : string)
    (st1 st2 : State) (result : CompileResult)
    (dirs : list string) (name : string) (map : SourceMap) (text : string)
    (mapFd k n : Z) (w3 w4 w5 w6 w7 : World) :
  fdToPath st !! w_fd args = Some filePath ->
  JsString.endsWith filePath ".vue.js" = true ->
  w_data args = TextData payload ->
  resolveVueFilePath filePath st = (inr (Some vue), st1) ->
  JsString.truthy vue = true ->
  existsSync (world st1) vue = true ->
  readFileSync (world st1) vue = inr code ->
  shouldGenerateSourceMap filePath st1 = (inr true, st2) ->
  compileVueSFC (world st2) code
    (compileOptions (Path.dirname vue) (Path.basename vue) true) = (inr result, w3) ->
  r_errors result = [] ->
  r_css result = [] ->
  js_sourceMap (r_js result) = Some map ->
  filePath = absPath (dirs ++ [name]) ->
  cleanSegment name ->
  let mapFile :=
    {| o_path := PathString (absPath (dirs ++ [name ++ ".map"]));
       o_rest := [ArgString "w"] |} in
  let mapWrite := {| w_fd := mapFd; w_data := TextData text; w_rest := [] |} in
  let compiled :=
    {| w_fd := w_fd args;
       w_data := TextData (js_code (r_js result)
                           ++ String "010" "//# sourceMappingURL=" ++ name ++ ".map");
       w_rest := w_rest args |} in
  nativeOpenSync w3 mapFile = (inr mapFd, w4) ->
  stringify map = inr text ->
  nativeWriteSync w4 mapWrite = (inr k, w5) ->
  nativeCloseSync w5 mapFd = (inr tt, w6) ->
  nativeWriteSync w6 compiled = (inr n, w7) ->
  writeSync args st
  = (inr n,
     {| fdToPath := fdToPath st2; tsconfigCache := tsconfigCache st2; world := w7;
        console := console st2;
        nativeCalls := nativeCalls st2
                       ++ [CallOpen mapFile; CallWrite mapWrite; CallClose mapFd;
                           CallWrite compiled] |}).
Proof.
  intros Hfd Hends Hdata Hres Htruthy Hex Hread Hsm Hcomp Herr Hcss Hmap Hpath Hname
    mapFile mapWrite compiled Hopen Htext Hwrite Hclose Hfinal.
  assert (Hp : placeholderPath (fdToPath st !! w_fd args) (w_data args)
               = Some filePath).
  { apply placeholderPath_Some. eauto. }
  rewrite (writeSync_intercepted _ _ _ _ _ Hp Hres Htruthy).
  rewrite (tryBody_compiled _ _ _ _ _ _ _ _ _ Hex Hread Hsm Hcomp).
  unfold afterCompile. rewrite Herr, Hcss.
  change (0 <? length [])%nat with false. cbv beta iota.
  unfold emitJs. rewrite Hmap, Hpath, basename_absPath, map_path by done.
  fold mapFile. simpl forEach.
  unfold callNativeOpenSync, callNativeWriteSync, callNativeCloseSync. unfoldM.
  simpl world. rewrite Hopen. cbv beta iota. rewrite Htext. cbv beta iota.
  simpl world. fold mapWrite. rewrite Hwrite. cbv beta iota.
  simpl world. rewrite Hclose. cbv beta iota.
  simpl world. fold compiled. rewrite Hfinal. cbv beta iota.
  unfold addCall, setWorld. simpl. by rewrite <- !app_assoc.
Qed.

(** Property X17.  No [finally] closes what the wrapper opens.  When the
    real write of the source map throws, the map file stays open: the
    error is logged, the original payload is written, and the native calls
    of the wrapper are the open of the map file, the failed write and the
    write of the payload, without any close. *)
Theorem failed_map_write_leaves_the_map_open
    (st : State) (args : WriteArgs) (filePath payload vue code : string)
    (st1 st2 : State) (result : CompileResult)
    (map : SourceMap) (text : string) (mapFd : Z) (e : HostExn)
    (w3 w4 w5 : World) :
  fdToPath st !! w_fd args = Some filePath ->
  JsString.endsWith filePath ".vue.js" = true ->
  w_data args = TextData payload ->
  resolveVueFilePath filePath st = (inr (Some vue), st1) ->
  JsString.truthy vue = true ->
  existsSync (world st1) vue = true ->
  readFileSync (world st1) vue = inr code ->
  shouldGenerateSourceMap filePath st1 = (inr true, st2) ->
  compileVueSFC (world st2) code
    (compileOptions (Path.dirname vue) (Path.basename vue) true) = (inr result, w3) ->
  r_errors result = [] ->
  js_sourceMap (r_js result) = Some map ->
  let mapFile :=
    {| o_path := PathString (filePath ++ ".map"); o_rest := [ArgString "w"] |} in
  let mapWrite := {| w_fd := mapFd; w_data := TextData text; w_rest := [] |} in
  nativeOpenSync w3 mapFile = (inr mapFd, w4) ->
  stringify map = inr text ->
  nativeWriteSync w4 mapWrite = (inl e, w5) ->
  writeSync args st
  = let '(r, w6) := nativeWriteSync w5 args in
    (seenBy r,
     {| fdToPath := fdToPath st2; tsconfigCache := tsconfigCache st2; world := w6;
        console := console st2 ++ [failedToCompile (HostThrown e)];
        nativeCalls := nativeCalls st2
                       ++ [CallOpen mapFile; CallWrite mapWrite; CallWrite args] |}).
Proof.
  intros Hfd Hends Hdata Hres Htruthy Hex Hread Hsm Hcomp Herr Hmap
    mapFile mapWrite Hopen Htext Hwrite.
  assert (Hp : placeholderPath (fdToPath st !! w_fd args) (w_data args)
               = Some filePath).
  { apply placeholderPath_Some. eauto. }
  rewrite (writeSync_intercepted _ _ _ _ _ Hp Hres Htruthy).
  rewrite (tryBody_compiled _ _ _ _ _ _ _ _ _ Hex Hread Hsm Hcomp).
  unfold afterCompile. rewrite Herr.
  change (0 <? length [])%nat with false. cbv beta iota.
  unfold emitJs. rewrite Hmap. fold mapFile.
  unfold callNativeOpenSync, callNativeWriteSync, callNativeCloseSync. unfoldM.
  simpl world. rewrite Hopen. cbv beta iota. rewrite Htext. cbv beta iota.
  simpl world. fold mapWrite. rewrite Hwrite. cbv beta iota.
  simpl world. destruct (nativeWriteSync w5 args) as [[e'|r] w6];
    unfold addCall, setWorld, addLog; simpl; by rewrite <- !app_assoc.
Qed.

(** *** The files the wrapper opens *)

Lemma opensOnly_quiet {A} Q (m : M A) :
  (forall st, nativeCalls (m st).2 = nativeCalls st) -> opensOnly Q m.
Proof.
  intros Hm st. exists []. rewrite Hm, app_nil_r. split; [done|].
  by intros a ?%elem_of_nil.
Qed.

Lemma opensOnly_ret {A} Q (a : A) : opensOnly Q (mret a).
Proof. by apply opensOnly_quiet. Qed.

Lemma opensOnly_throw {A} Q (e : JsExn) : opensOnly Q (mthrow e : M A).
Proof. by apply opensOnly_quiet. Qed.

Lemma opensOnly_gets {A} Q (f : State -> A) : opensOnly Q (gets f).
Proof. by apply opensOnly_quiet. Qed.

Lemma opensOnly_consoleError Q line : opensOnly Q (consoleError line).
Proof. by apply opensOnly_quiet. Qed.

Lemma opensOnly_ofHost {A} Q (r : HostExn + A) : opensOnly Q (ofHost r).
Proof. apply opensOnly_quiet. intros st. by destruct r. Qed.

Lemma opensOnly_bind {A B} Q (m : M A) (f : A -> M B) :
  opensOnly Q m -> (forall a, opensOnly Q (f a)) -> opensOnly Q (m ≫= f).
Proof.
  intros Hm Hf st. unfoldM. destruct (Hm st) as (new & Hnew & Hq).
  destruct (m st) as [[e|a] st']; simpl in *; [by exists new|].
  destruct (Hf a st') as (new' & Hnew' & Hq').
  exists (new ++ new')%list. rewrite Hnew', Hnew, app_assoc. split; [done|].
  intros x [Hx|Hx]%elem_of_app; auto.
Qed.

Lemma opensOnly_open (Q : OpenArgs -> Prop) a :
  Q a -> opensOnly Q (callNativeOpenSync a).
Proof.
  intros Ha st. exists [CallOpen a]. unfold callNativeOpenSync.
  destruct (nativeOpenSync _ _) as [[e|fd] w']; (split; [done|]);
    by intros x [= ->]%list_elem_of_singleton.
Qed.

Lemma opensOnly_write Q a : opensOnly Q (callNativeWriteSync a).
Proof.
  intros st. exists [CallWrite a]. unfold callNativeWriteSync.
  destruct (nativeWriteSync _ _) as [[e|fd] w']; (split; [done|]);
    by intros x [=]%list_elem_of_singleton.
Qed.

Lemma opensOnly_close Q fd : opensOnly Q (callNativeCloseSync fd).
Proof.
  intros st. exists [CallClose fd]. unfold callNativeCloseSync.
  destruct (nativeCloseSync _ _) as [[e|[]] w']; (split; [done|]);
    by intros x [=]%list_elem_of_singleton.
Qed.

Hint Resolve opensOnly_ret opensOnly_throw opensOnly_gets opensOnly_consoleError
  opensOnly_ofHost opensOnly_write opensOnly_close : opens.

Lemma opensOnly_forEach {A} Q (f : A -> M unit) l :
  (forall x, x ∈ l -> opensOnly Q (f x)) -> opensOnly Q (forEach f l).
Proof.
  induction l as [|x l IH]; intros Hf; simpl; [apply opensOnly_ret|].
  apply opensOnly_bind.
  - apply Hf, elem_of_cons. by left.
  - intros _. apply IH. intros y Hy. apply Hf, elem_of_cons. by right.
Qed.

Ltac opens :=
  repeat first
    [ progress (intros)
    | solve [eauto with opens]
    | match goal with
      | |- opensOnly _ (mbind _ _) => apply opensOnly_bind
      | |- opensOnly _ (callNativeOpenSync _) => apply opensOnly_open
      end ].

Lemma write_opens_nothing Q a st0 st new :
  nativeCalls st = (nativeCalls st0 ++ new)%list ->
  (forall x, CallOpen x ∈ new -> Q x) ->
  exists new',
    nativeCalls (callNativeWriteSync a st).2 = (nativeCalls st0 ++ new')%list
    /\ forall x : OpenArgs, CallOpen x ∈ new' -> Q x.
Proof.
  intros Hnew Hq. exists (new ++ [CallWrite a])%list.
  rewrite callNativeWriteSync_eq.
  destruct (nativeWriteSync (world st) a) as [r w']. simpl.
  rewrite Hnew, app_assoc. split; [done|].
  intros x [Hx|Hx%list_elem_of_singleton]%elem_of_app; [auto | discriminate].
Qed.

Lemma opensOnly_emitJs filePath sm result :
  opensOnly (opensScriptMap filePath sm result) (emitJs filePath sm (r_js result)).
Proof.
  unfold emitJs. destruct (js_sourceMap (r_js result)) as [map|] eqn:Hmap;
    [destruct sm|]; opens.
  split; [done|]. by rewrite Hmap.
Qed.

Lemma gets_bind {A B} (f : State -> A) (k : A -> M B) st :
  (gets f ≫= k) st = k (f st) st.
Proof. reflexivity. Qed.

(** One turn of the loop opens the file of its style and, at most, the
    map of that style, the name resolved in the world in which the turn
    starts. *)
Lemma emitCss_opens filePath sm css st :
  exists new,
    nativeCalls (emitCss filePath sm css st).2 = (nativeCalls st ++ new)%list
    /\ forall a, CallOpen a ∈ new -> opensStyle filePath sm (world st) css a.
Proof.
  unfold emitCss. rewrite gets_bind.
  match goal with
  | |- exists new, nativeCalls (?m st).2 = _ /\ _ =>
      assert (Hturn : opensOnly (opensStyle filePath sm (world st) css) m);
      [|exact (Hturn st)]
  end.
  cbv beta zeta. unfold writeFileNatively.
  assert (Hstyle : opensStyle filePath sm (world st) css
                     {| o_path := PathString
                                    (Path.resolve (cwd (world st))
                                       [Path.dirname filePath; css_filename css]);
                        o_rest := [ArgString "w"] |}).
  { split; [done|]. by left. }
  destruct (css_sourceMap css) as [map|] eqn:Hmap; [destruct sm|]; opens.
  split; [done|]. right. by rewrite Hmap.
Qed.

(** The opens of a loop are those of its turns, each in the state in which
    the turn starts. *)
Lemma forEach_opens {A} (f : A -> M unit) (Q : State -> A -> OpenArgs -> Prop) l :
  (forall x st, exists new,
      nativeCalls (f x st).2 = (nativeCalls st ++ new)%list
      /\ forall a, CallOpen a ∈ new -> Q st x a) ->
  forall st, exists new,
    nativeCalls (forEach f l st).2 = (nativeCalls st ++ new)%list
    /\ forall a, CallOpen a ∈ new ->
         exists k x, l !! k = Some x /\ Q (forEach f (take k l) st).2 x a.
Proof.
  intros Hf. induction l as [|x l IH]; intros st.
  - exists []. simpl. rewrite app_nil_r. split; [done|]. by intros a ?%elem_of_nil.
  - destruct (Hf x st) as (new1 & Hnew1 & Hq1).
    assert (Hfirst : forall a, CallOpen a ∈ new1 ->
               exists k y, (x :: l) !! k = Some y
                           /\ Q (forEach f (take k (x :: l)) st).2 y a).
    { intros a Ha. exists 0%nat, x. split; [done|]. by apply Hq1. }
    cbn [forEach]. unfoldM.
    destruct (f x st) as [[e|[]] st1] eqn:Hfx; simpl in Hnew1.
    + exists new1. split; [done|]. exact Hfirst.
    + destruct (IH st1) as (new2 & Hnew2 & Hq2).
      exists (new1 ++ new2)%list. rewrite Hnew2, Hnew1, app_assoc. split; [done|].
      intros a [Ha|Ha]%elem_of_app; [by apply Hfirst|].
      destruct (Hq2 a Ha) as (k & y & Hk & Hy).
      exists (S k), y. split; [done|].
      cbn [take forEach]. unfoldM. by rewrite Hfx.
Qed.

(** What follows the compiler opens no file but those of the result;
    with diagnostics in the result it opens nothing. *)
Lemma afterCompile_opens args filePath vue sm result st :
  exists new,
    nativeCalls (afterCompile args filePath vue sm result st).2
    = (nativeCalls st ++ new)%list
    /\ (forall a, CallOpen a ∈ new ->
          r_errors result = [] /\ opensFileOf filePath sm result st a).
Proof.
  set (Q := fun a => r_errors result = [] /\ opensFileOf filePath sm result st a).
  assert (HQ : r_errors result = [] ->
               forall a, opensFileOf filePath sm result st a -> Q a)
    by (intros; by split).
  change (exists new,
             nativeCalls (afterCompile args filePath vue sm result st).2
             = (nativeCalls st ++ new)%list
             /\ forall a, CallOpen a ∈ new -> Q a).
  clearbody Q.
  destruct (r_errors result) as [|d errs] eqn:Herr.
  - specialize (HQ eq_refl).
    unfold afterCompile. rewrite Herr.
    change (0 <? length [])%nat with false. cbv beta iota. unfoldM.
    destruct (opensOnly_emitJs filePath sm result st) as (new1 & Hnew1 & Hq1).
    assert (Hscript : forall a, CallOpen a ∈ new1 -> Q a).
    { intros a Ha. apply HQ. left. by apply Hq1. }
    destruct (forEach_opens (emitCss filePath sm)
                (fun s css a => opensStyle filePath sm (world s) css a)
                (r_css result) (emitCss_opens filePath sm)
                (emitJs filePath sm (r_js result) st).2) as (new2 & Hnew2 & Hq2).
    assert (Hstyles : forall a, CallOpen a ∈ new2 -> Q a).
    { intros a Ha. apply HQ. right. exact (Hq2 a Ha). }
    clear Hq1 Hq2 HQ.
    destruct (emitJs filePath sm (r_js result) st) as [[e|jsCode] st1];
      simpl in Hnew1, Hnew2; [by exists new1|].
    destruct (forEach (emitCss filePath sm) (r_css result) st1) as [[e|[]] st2];
      simpl in Hnew2.
    + exists (new1 ++ new2)%list. simpl. rewrite Hnew2, Hnew1, app_assoc.
      split; [done|]. intros a [Ha|Ha]%elem_of_app; auto.
    + destruct (write_opens_nothing Q
                  {| w_fd := w_fd args; w_data := TextData jsCode;
                     w_rest := w_rest args |} st st2 (new1 ++ new2)%list)
        as (new & Hnew & Hq).
      * by rewrite Hnew2, Hnew1, app_assoc.
      * intros a [Ha|Ha]%elem_of_app; auto.
      * exists new. split; [|done].
        by destruct (callNativeWriteSync _ st2) as [[e|r] st3].
  - assert (Hnone : opensOnly (fun _ => False)
                      (afterCompile args filePath vue sm result)).
    { unfold afterCompile. rewrite Herr.
      change (0 <? length (d :: errs))%nat with true. cbv beta iota.
      apply opensOnly_bind; [apply opensOnly_consoleError|]. intros _.
      apply opensOnly_bind;
        [apply opensOnly_forEach; intros; apply opensOnly_consoleError|].
      opens. }
    destruct (Hnone st) as (new & Hnew & Hq). exists new. split; [done|].
    intros a Ha. destruct (Hq a Ha).
Qed.

(** Property X18.  A wrapped write opens files only while it intercepts
    a placeholder whose source exists and compiled without diagnostics,
    and then only the files of the compilation result, each with the
    flag [w].  With [sm] the answer that [shouldGenerateSourceMap] gave
    for the placeholder and [result] what the compiler returned for the
    source when called with that answer, a file it opens is the map of
    the script at the placeholder path with [.map] appended, a style at
    its name resolved against the directory of the placeholder, or the
    map of a style; a map only when [sm] is [true] and the compiler
    returned one. *)
Theorem only_maps_and_styles_are_opened (st : State) (args : WriteArgs) :
  exists new,
    nativeCalls (writeSync args st).2 = (nativeCalls st ++ new)%list
    /\ forall a, CallOpen a ∈ new ->
         exists filePath vue st1 code sm st2 result w3,
           fdToPath st !! w_fd args = Some filePath
           /\ JsString.endsWith filePath ".vue.js" = true
           /\ resolveVueFilePath filePath st = (inr (Some vue), st1)
           /\ existsSync (world st1) vue = true
           /\ readFileSync (world st1) vue = inr code
           /\ shouldGenerateSourceMap filePath st1 = (inr sm, st2)
           /\ compileVueSFC (world st2) code
                (compileOptions (Path.dirname vue) (Path.basename vue) sm)
              = (inr result, w3)
           /\ r_errors result = []
           /\ opensFileOf filePath sm result (setWorld w3 st2) a.
Proof.
  assert (Hquiet : forall (P : OpenArgs -> Prop) (s : State),
             exists new,
               nativeCalls s = (nativeCalls s ++ new)%list
               /\ forall a, CallOpen a ∈ new -> P a).
  { intros P s. exists []. rewrite app_nil_r. split; [done|].
    by intros a ?%elem_of_nil. }
  destruct (placeholderPath (fdToPath st !! w_fd args) (w_data args))
    as [filePath|] eqn:Hp.
  - pose proof Hp as (Hfd & Hends & _)%placeholderPath_Some.
    destruct (resolveVueFilePath_frame filePath st)
      as (vue & st1 & Hres & _ & _ & Hn1 & _).
    destruct (JsString.truthy vue) eqn:Htruthy.
    + rewrite (writeSync_intercepted _ _ _ _ _ Hp Hres Htruthy).
      assert (Hbody : exists new,
                 nativeCalls (tryBody args filePath vue st1).2
                 = (nativeCalls st ++ new)%list
                 /\ forall a, CallOpen a ∈ new ->
                      exists code sm st2 result w3,
                        existsSync (world st1) vue = true
                        /\ readFileSync (world st1) vue = inr code
                        /\ shouldGenerateSourceMap filePath st1 = (inr sm, st2)
                        /\ compileVueSFC (world st2) code
                             (compileOptions (Path.dirname vue) (Path.basename vue) sm)
                           = (inr result, w3)
                        /\ r_errors result = []
                        /\ opensFileOf filePath sm result (setWorld w3 st2) a).
      { rewrite <- Hn1. unfold tryBody, callReadFileSync, callCompileVueSFC. unfoldM.
        destruct (existsSync (world st1) vue) eqn:Hex; [|apply Hquiet].
        destruct (readFileSync (world st1) vue) as [e|code] eqn:Hread;
          [apply Hquiet|].
        cbv beta iota.
        destruct (shouldGenerateSourceMap_frame filePath st1)
          as (sm & st2 & Hsm & _ & _ & Hn2).
        rewrite Hsm.
        destruct (compileVueSFC (world st2) code _) as [[e|result] w3] eqn:Hcomp;
          cbv beta iota.
        - simpl. rewrite Hn2. apply Hquiet.
        - destruct (afterCompile_opens args filePath vue sm result (setWorld w3 st2))
            as (new & Hnew & Hq).
          exists new. simpl in Hnew. rewrite Hn2 in Hnew. split; [exact Hnew|].
          intros a Ha. destruct (Hq a Ha) as [Herr Hfile].
          exists code, sm, st2, result, w3. done. }
      destruct Hbody as (new & Hnew & Hq).
      assert (Hq' : forall a, CallOpen a ∈ new ->
                 exists filePath' vue' st1' code sm st2 result w3,
                   fdToPath st !! w_fd args = Some filePath'
                   /\ JsString.endsWith filePath' ".vue.js" = true
                   /\ resolveVueFilePath filePath' st = (inr (Some vue'), st1')
                   /\ existsSync (world st1') vue' = true
                   /\ readFileSync (world st1') vue' = inr code
                   /\ shouldGenerateSourceMap filePath' st1' = (inr sm, st2)
                   /\ compileVueSFC (world st2) code
                        (compileOptions (Path.dirname vue') (Path.basename vue') sm)
                      = (inr result, w3)
                   /\ r_errors result = []
                   /\ opensFileOf filePath' sm result (setWorld w3 st2) a).
      { intros a Ha.
        destruct (Hq a Ha)
          as (code & sm & st2 & result & w3 & ? & ? & ? & ? & ? & ?).
        exists filePath, vue, st1, code, sm, st2, result, w3. done. }
      destruct (tryBody args filePath vue st1) as [[e|[r|]] st2]; simpl in Hnew.
      * by eapply write_opens_nothing.
      * by exists new.
      * by eapply write_opens_nothing.
    + assert (vue = "") as -> by (destruct vue; [reflexivity | discriminate]).
      rewrite (writeSync_unresolved _ _ _ _ Hp Hres).
      eapply write_opens_nothing.
      * simpl. rewrite Hn1. symmetry. apply app_nil_r.
      * by intros a ?%elem_of_nil.
  - rewrite (writeSync_not_placeholder _ _ Hp).
    eapply write_opens_nothing.
    + symmetry. apply app_nil_r.
    + by intros a ?%elem_of_nil.
Qed.

(** *** Every call ends with a real write *)

Lemma onlyAdds_emitJs p sm js : onlyAdds (emitJs p sm js).
Proof. unfold emitJs. adds. Qed.

Lemma onlyAdds_emitCss p sm css : onlyAdds (emitCss p sm css).
Proof. unfold emitCss, writeFileNatively. adds. Qed.

Lemma onlyAdds_resolveVueFilePath p : onlyAdds (resolveVueFilePath p).
Proof. unfold resolveVueFilePath. adds. Qed.

Lemma onlyAdds_shouldGenerateSourceMap p : onlyAdds (shouldGenerateSourceMap p).
Proof. unfold shouldGenerateSourceMap. adds. Qed.

Lemma callNativeWriteSync_ends args a st0 st :
  w_fd a = w_fd args -> w_rest a = w_rest args ->
  w_data a = w_data args \/ (exists script, w_data a = TextData script) ->
  nativeCalls st0 `prefix_of` nativeCalls st ->
  endsWithRealWrite args st0 (callNativeWriteSync a st).
Proof.
  intros Hfd Hrest Hdata [calls Hcalls]. rewrite callNativeWriteSync_eq.
  destruct (nativeWriteSync (world st) a) as [r w'] eqn:Hw.
  exists calls, a, (world st), r. simpl. rewrite Hcalls, <- app_assoc.
  repeat split; done.
Qed.

(** What follows the compiler either throws or returns what a real write
    on the descriptor of the call returned. *)
Lemma afterCompile_ends args filePath vue sm result st0 st :
  nativeCalls st0 `prefix_of` nativeCalls st ->
  match afterCompile args filePath vue sm result st with
  | (inr (Some r), st') =>
      endsWithRealWrite args st0 (inr r, st')
  | (inr None, _) => False
  | (inl _, st') => nativeCalls st0 `prefix_of` nativeCalls st'
  end.
Proof.
  intros Hpre. unfold afterCompile.
  assert (Hlast : forall a st1,
             w_fd a = w_fd args -> w_rest a = w_rest args ->
             w_data a = w_data args \/ (exists script, w_data a = TextData script) ->
             nativeCalls st0 `prefix_of` nativeCalls st1 ->
             match (r ← callNativeWriteSync a; mret (Some r)) st1 with
             | (inr (Some r), st') => endsWithRealWrite args st0 (inr r, st')
             | (inr None, _) => False
             | (inl _, st') => nativeCalls st0 `prefix_of` nativeCalls st'
             end).
  { intros a st1 Hfd Hrest Hdata Hst1. unfoldM.
    pose proof (callNativeWriteSync_ends args a st0 st1 Hfd Hrest Hdata Hst1) as Hends.
    pose proof (onlyAdds_write a st1) as (_ & _ & Hadds).
    destruct (callNativeWriteSync a st1) as [[e|r] st'] eqn:Hw; simpl in *.
    - by etrans.
    - destruct Hends as (calls & a' & w & r' & Hc & ? & ? & ? & Hn & Hr).
      exists calls, a', w, r'. simpl in *. repeat split; done. }
  destruct (0 <? length (r_errors result))%nat.
  - unfoldM. pose proof (forEach_log (r_errors result)) as Hlog.
    unfold consoleError, modify in Hlog. rewrite Hlog.
    set (logged := fold_left _ _ _).
    assert (Hsame : nativeCalls logged = nativeCalls st).
    { subst logged.
      by destruct (fold_addLog_frame (r_errors result)
                     (addLog [LogText "Errors compiling Vue SFC:"; LogText vue] st))
        as (_ & _ & -> & _). }
    apply (Hlast args logged); [done | done | by left | by rewrite Hsame].
  - unfoldM. pose proof (onlyAdds_emitJs filePath sm (r_js result) st) as (_ & _ & Hjs).
    destruct (emitJs filePath sm (r_js result) st) as [[e|jsCode] st1]; simpl in Hjs;
      [by etrans|].
    pose proof (onlyAdds_forEach (emitCss filePath sm) (r_css result)
                  (onlyAdds_emitCss filePath sm) st1) as (_ & _ & Hcss).
    destruct (forEach (emitCss filePath sm) (r_css result) st1) as [[e|[]] st2];
      simpl in Hcss; [by etrans; [|exact Hcss]; etrans|].
    apply (Hlast {| w_fd := w_fd args; w_data := TextData jsCode;
                    w_rest := w_rest args |} st2);
      [done | done | right; eauto | by etrans; [|exact Hcss]; etrans].
Qed.

Lemma tryBody_ends args filePath vue st :
  match tryBody args filePath vue st with
  | (inr (Some r), st') => endsWithRealWrite args st (inr r, st')
  | (_, st') => nativeCalls st `prefix_of` nativeCalls st'
  end.
Proof.
  unfold tryBody, callReadFileSync, callCompileVueSFC. unfoldM.
  destruct (existsSync (world st) vue); [|done].
  destruct (readFileSync (world st) vue) as [e|code]; [done|]. cbv beta iota.
  destruct (shouldGenerateSourceMap_frame filePath st) as (sm & st2 & -> & _ & _ & Hn).
  destruct (compileVueSFC (world st2) code _) as [[e|result] w3]; cbv beta iota.
  - simpl. by rewrite Hn.
  - pose proof (afterCompile_ends args filePath vue sm result st (setWorld w3 st2)) as H1.
    simpl in H1. rewrite Hn in H1. specialize (H1 ltac:(done)).
    destruct (afterCompile args filePath vue sm result (setWorld w3 st2))
      as [[e|[r|]] st']; done.
Qed.

(** Property X19.  The wrapper never returns without the real write:
    whatever the state and the arguments, and whatever the interception
    did before, the last native call of a wrapped write is a real write
    on the descriptor of the call, with its optional arguments, and the
    call returns what that write returned and throws what it threw.  The
    payload of that write is the payload of the call, or a string when
    the payload of the call is one.  The handle table is left as it
    was. *)
Theorem every_write_ends_with_a_real_write (st : State) (args : WriteArgs) :
  (exists calls a w r,
      nativeCalls (writeSync args st).2
      = (nativeCalls st ++ calls ++ [CallWrite a])%list
      /\ w_fd a = w_fd args /\ w_rest a = w_rest args
      /\ (w_data a = w_data args
          \/ exists payload script,
               w_data args = TextData payload /\ w_data a = TextData script)
      /\ nativeWriteSync w a = (r, world (writeSync args st).2)
      /\ (writeSync args st).1 = seenBy r)
  /\ fdToPath (writeSync args st).2 = fdToPath st.
Proof.
  split; [|apply keepsTable_writeSync].
  assert (Hends : endsWithRealWrite args st (writeSync args st)).
  { destruct (placeholderPath (fdToPath st !! w_fd args) (w_data args))
      as [filePath|] eqn:Hp.
    - destruct (resolveVueFilePath_frame filePath st)
        as (vue & st1 & Hres & _ & _ & Hn1 & _).
      destruct (JsString.truthy vue) eqn:Htruthy.
      + rewrite (writeSync_intercepted _ _ _ _ _ Hp Hres Htruthy).
        pose proof (tryBody_ends args filePath vue st1) as Hbody.
        rewrite Hn1 in Hbody.
        destruct (tryBody args filePath vue st1) as [[e|[r|]] st2].
        * apply callNativeWriteSync_ends; [done | done | by left | exact Hbody].
        * destruct Hbody as (calls & a & w & r' & Hc & ? & ? & ? & Hw & Hr).
          exists calls, a, w, r'. rewrite <- Hn1. repeat split; done.
        * apply callNativeWriteSync_ends; [done | done | by left | exact Hbody].
      + assert (vue = "") as -> by (destruct vue; [reflexivity | discriminate]).
        rewrite (writeSync_unresolved _ _ _ _ Hp Hres).
        apply callNativeWriteSync_ends;
          [done | done | by left | simpl; by rewrite Hn1].
    - rewrite (writeSync_not_placeholder _ _ Hp).
      by apply callNativeWriteSync_ends; [| | left |]. }
  destruct (w_data args) as [payload|bytes] eqn:Hdata.
  - destruct Hends as (calls & a & w & r & Hc & Hfd & Hrest & Hpayload & Hw & Hr).
    exists calls, a, w, r. repeat split; try done.
    destruct Hpayload as [Ha | [script Ha]]; [left; congruence | right; eauto].
  - assert (Hp : placeholderPath (fdToPath st !! w_fd args) (w_data args) = None).
    { rewrite Hdata. unfold placeholderPath. by destruct (fdToPath st !! w_fd args). }
    rewrite (writeSync_not_placeholder _ _ Hp), callNativeWriteSync_eq.
    destruct (nativeWriteSync (world st) args) as [r w'] eqn:Hw.
    exists [], args, (world st), r. simpl. repeat split; try done. by left.
Qed.

(** ** Paths that are not strings *)

(** Property X20.  [openSync] records the path only when it is a string.
    A file opened with a [Buffer] or a [URL] is not tracked, so a write on
    its descriptor is the real write even when the path ends in [.vue.js]. *)
Theorem paths_that_are_not_strings_are_not_tracked
    (st st1 : State) (a : OpenArgs) (fd : Z) (args : WriteArgs) :
  (forall s, o_path a <> PathString s) ->
  fdToPath st !! fd = None ->
  openSync a st = (inr fd, st1) ->
  w_fd args = fd ->
  writeSync args st1 =
  let '(r, w') := nativeWriteSync (world st1) args in
  (seenBy r, addCall (CallWrite args) (setWorld w' st1)).
Proof.
  intros Hnot Hfresh Hopen Hfd. rewrite <- callNativeWriteSync_eq.
  apply writeSync_not_placeholder.
  pose proof (openSync_table a st) as Htable. rewrite Hopen in Htable.
  assert (Hsame : fdToPath st1 = fdToPath st).
  { rewrite Htable. destruct (o_path a) as [s|b|u]; [by destruct (Hnot s) | done..]. }
  by rewrite Hsame, Hfd, Hfresh.
Qed.

(** ** The wrappers as seen by a program without placeholders *)

Lemma sameButTable_open a st st' :
  sameButTable st st' ->
  (callNativeOpenSync a st).1 = (callNativeOpenSync a st').1
  /\ sameButTable (callNativeOpenSync a st).2 (callNativeOpenSync a st').2
  /\ fdToPath (callNativeOpenSync a st).2 = fdToPath st.
Proof.
  intros (Hw & Hl & Hn & Hc). unfold callNativeOpenSync. rewrite <- Hw.
  destruct (nativeOpenSync (world st) a) as [[e|fd] w']; simpl;
    unfold sameButTable; simpl; by rewrite Hl, Hn, Hc.
Qed.

Lemma sameButTable_write a st st' :
  sameButTable st st' ->
  (callNativeWriteSync a st).1 = (callNativeWriteSync a st').1
  /\ sameButTable (callNativeWriteSync a st).2 (callNativeWriteSync a st').2
  /\ fdToPath (callNativeWriteSync a st).2 = fdToPath st.
Proof.
  intros (Hw & Hl & Hn & Hc). unfold callNativeWriteSync. rewrite <- Hw.
  destruct (nativeWriteSync (world st) a) as [[e|fd] w']; simpl;
    unfold sameButTable; simpl; by rewrite Hl, Hn, Hc.
Qed.

Lemma sameButTable_close fd st st' :
  sameButTable st st' ->
  (callNativeCloseSync fd st).1 = (callNativeCloseSync fd st').1
  /\ sameButTable (callNativeCloseSync fd st).2 (callNativeCloseSync fd st').2
  /\ fdToPath (callNativeCloseSync fd st).2 = fdToPath st.
Proof.
  intros (Hw & Hl & Hn & Hc). unfold callNativeCloseSync. rewrite <- Hw.
  destruct (nativeCloseSync (world st) fd) as [[e|[]] w']; simpl;
    unfold sameButTable; simpl; by rewrite Hl, Hn, Hc.
Qed.

Lemma noPlaceholder_guard table fd data :
  noPlaceholder table -> placeholderPath (table !! fd) data = None.
Proof.
  intros Hno. unfold placeholderPath.
  destruct (table !! fd) as [p|] eqn:Hp; [|reflexivity].
  rewrite (Hno _ _ Hp), andb_false_r. by destruct data.
Qed.

(** One call: the wrapped operation and the native one give back the
    same, and the table still holds no placeholder path. *)
Lemma wrapped_step c st st' :
  sameButTable st st' ->
  noPlaceholder (fdToPath st) ->
  (forall a p, c = DoOpen a -> o_path a = PathString p ->
               JsString.endsWith p ".vue.js" = false) ->
  (wrapped c st).1 = (unwrapped c st').1
  /\ sameButTable (wrapped c st).2 (unwrapped c st').2
  /\ noPlaceholder (fdToPath (wrapped c st).2).
Proof.
  intros Hsame Hno Hopen. destruct c as [a|fd|a]; cbn [wrapped unwrapped].
  - unfold openSync. unfoldM.
    destruct (sameButTable_open a st st' Hsame) as (Hr & Hs & Ht).
    destruct (callNativeOpenSync a st) as [[e|fd] st1],
      (callNativeOpenSync a st') as [[e'|fd'] st1']; simpl in *; try done.
    + injection Hr as <-. by rewrite Ht.
    + injection Hr as <-.
      destruct (o_path a) as [p|b|u] eqn:Hpath; simpl;
        (split; [done|]); (split; [exact Hs|]); rewrite ?Ht; try done.
      intros fd' q. destruct (decide (fd = fd')) as [<-|Hne].
      * rewrite lookup_insert_eq. intros [= <-]. by eapply Hopen.
      * rewrite lookup_insert_ne by done. apply Hno.
  - unfold closeSync. unfoldM.
    set (forgotten := setFdToPath (delete fd (fdToPath st)) st).
    assert (Hsame' : sameButTable forgotten st') by exact Hsame.
    destruct (sameButTable_close fd forgotten st' Hsame') as (Hr & Hs & Ht).
    destruct (callNativeCloseSync fd forgotten) as [[e|[]] st1],
      (callNativeCloseSync fd st') as [[e'|[]] st1']; simpl in *; try done;
      (split; [by try injection Hr as ->|]); (split; [exact Hs|]); rewrite Ht;
      intros fd' q [_ Hq]%lookup_delete_Some; by eapply Hno.
  - unfoldM.
    rewrite (writeSync_not_placeholder a st (noPlaceholder_guard _ _ _ Hno)).
    destruct (sameButTable_write a st st' Hsame) as (Hr & Hs & Ht).
    destruct (callNativeWriteSync a st) as [[e|n] st1],
      (callNativeWriteSync a st') as [[e'|n'] st1']; simpl in *; try done.
    + injection Hr as <-. by rewrite Ht.
    + injection Hr as <-. by rewrite Ht.
Qed.

Lemma wrapped_run calls st st' :
  sameButTable st st' ->
  noPlaceholder (fdToPath st) ->
  (forall a p, DoOpen a ∈ calls -> o_path a = PathString p ->
               JsString.endsWith p ".vue.js" = false) ->
  (runWith wrapped calls st).1 = (runWith unwrapped calls st').1
  /\ sameButTable (runWith wrapped calls st).2 (runWith unwrapped calls st').2.
Proof.
  revert st st'; induction calls as [|c calls IH]; intros st st' Hsame Hno Hopen;
    [done|].
  simpl.
  destruct (wrapped_step c st st' Hsame Hno) as (Hr & Hs & Ht).
  { intros a p -> Hp. eapply Hopen; [apply elem_of_cons; by left | exact Hp]. }
  destruct (wrapped c st) as [r st1], (unwrapped c st') as [r' st1']. simpl in *.
  destruct (IH st1 st1' Hs Ht) as (Hrs & Hss).
  { intros a p Hin. apply Hopen. apply elem_of_cons. by right. }
  destruct (runWith wrapped calls st1) as [rs st2],
    (runWith unwrapped calls st1') as [rs' st2']. simpl in *.
  by rewrite Hr, Hrs.
Qed.

(** Property X21.  A program that opens no path ending in [.vue.js] cannot
    tell the wrapped operations from the native ones: in any run of opens,
    closes and writes, every call gives back the same value or exception,
    the same native calls are made in the same order on the same
    arguments, the world ends up the same, and nothing is logged. *)
Theorem wrappers_are_invisible_without_placeholders
    (calls : list FsCall) (st : State) :
  noPlaceholder (fdToPath st) ->
  (forall a p, DoOpen a ∈ calls -> o_path a = PathString p ->
               JsString.endsWith p ".vue.js" = false) ->
  let wrappedRun := runWith wrapped calls st in
  let nativeRun := runWith unwrapped calls st in
  wrappedRun.1 = nativeRun.1
  /\ world wrappedRun.2 = world nativeRun.2
  /\ nativeCalls wrappedRun.2 = nativeCalls nativeRun.2
  /\ console wrappedRun.2 = console st
  /\ tsconfigCache wrappedRun.2 = tsconfigCache st.
Proof.
  intros Hno Hopen wrappedRun nativeRun.
  destruct (wrapped_run calls st st) as (Hr & Hw & Hl & Hn & Hc); [done.. |].
  fold wrappedRun nativeRun in Hr, Hw, Hl, Hn, Hc.
  assert (Hquiet : forall calls' st',
             console (runWith unwrapped calls' st').2 = console st'
             /\ tsconfigCache (runWith unwrapped calls' st').2 = tsconfigCache st').
  { induction calls' as [|c calls' IH]; intros st'; [done|]. simpl.
    assert (Hstep : console (unwrapped c st').2 = console st'
                    /\ tsconfigCache (unwrapped c st').2 = tsconfigCache st').
    { destruct c as [a|fd|a]; simpl; unfoldM;
        unfold callNativeOpenSync, callNativeCloseSync, callNativeWriteSync.
      - by destruct (nativeOpenSync _ _) as [[e|n] w'].
      - by destruct (nativeCloseSync _ _) as [[e|[]] w'].
      - by destruct (nativeWriteSync _ _) as [[e|n] w']. }
    destruct (unwrapped c st') as [r st1]. specialize (IH st1).
    destruct (runWith unwrapped calls' st1) as [rs st2]. simpl in *.
    destruct IH as [-> ->]. exact Hstep. }
  destruct (Hquiet calls st) as [Hl' Hc']. fold nativeRun in Hl', Hc'.
  repeat split; congruence.
Qed.

(** ** The comments of a configuration *)

Lemma replaceGo_unfold a r :
  CommentRegex.replaceGo 0 (String a r)
  = match CommentRegex.matchLength (String a r) with
    | Some (S k) => CommentRegex.replaceGo k r
    | _ => String a (CommentRegex.replaceGo 0 r)
    end.
Proof. reflexivity. Qed.

(** Up to its first comment a text is kept as it is. *)
Lemma replaceGo_before before x rest :
  noCommentStart (before ++ String x "") ->
  CommentRegex.replaceGo 0 (before ++ String x rest)
  = before ++ CommentRegex.replaceGo 0 (String x rest).
Proof.
  induction before as [|a before IH]; [reflexivity|].
  rewrite !append_cons. intros [Hhead Hrest].
  assert (Hnone : CommentRegex.matchLength (String a (before ++ String x rest)) = None).
  { assert (Hnext : exists b r r', before ++ String x "" = String b r
                                   /\ before ++ String x rest = String b r').
    { destruct before as [|b before]; [by exists x, "", rest|].
      exists b, (before ++ String x ""), (before ++ String x rest). by rewrite !append_cons. }
    destruct Hnext as (b & r & r' & Hr & Hr'). rewrite Hr in Hhead. rewrite Hr'.
    unfold CommentRegex.matchLength.
    destruct (Ascii.eqb_spec a "/") as [->|Ha]; simpl; [|reflexivity].
    destruct (Ascii.eqb_spec b "*") as [->|Hb1]; [exfalso; apply Hhead; auto|].
    destruct (Ascii.eqb_spec b "/") as [->|Hb2]; [exfalso; apply Hhead; auto|].
    reflexivity. }
  rewrite replaceGo_unfold, Hnone, IH by done. reflexivity.
Qed.

Lemma replaceGo_skip x y :
  CommentRegex.replaceGo (String.length x) (x ++ y) = CommentRegex.replaceGo 0 y.
Proof.
  induction x as [|c x IH]; [by destruct y|]. rewrite append_cons. exact IH.
Qed.

Lemma blockEnd_first body rest :
  noBlockEnd body ->
  CommentRegex.blockEnd (body ++ "*/" ++ rest) = Some (String.length body + 2)%nat.
Proof.
  induction body as [|a body IH]; [reflexivity|]. intros [Hhead Hrest].
  rewrite append_cons. simpl String.length.
  destruct body as [|b body].
  - change ("" ++ "*/" ++ rest) with (String "*" (String "/" rest)).
    change (CommentRegex.blockEnd (String a (String "*" (String "/" rest))))
      with (if Ascii.eqb a "*" && Ascii.eqb "*" "/" then Some 2%nat
            else option_map S (CommentRegex.blockEnd (String "*" (String "/" rest)))).
    by rewrite andb_false_r.
  - specialize (IH Hrest). rewrite append_cons in IH |- *.
    change (CommentRegex.blockEnd (String a (String b (body ++ "*/" ++ rest))))
      with (if Ascii.eqb a "*" && Ascii.eqb b "/" then Some 2%nat
            else option_map S (CommentRegex.blockEnd (String b (body ++ "*/" ++ rest)))).
    rewrite IH.
    destruct (Ascii.eqb_spec a "*") as [->|Ha]; [|reflexivity].
    destruct (Ascii.eqb_spec b "/") as [->|Hb]; [exfalso; by apply Hhead|].
    reflexivity.
Qed.

Lemma lineLength_line body rest :
  noLineTerminator body -> atLineEnd rest ->
  CommentRegex.lineLength (body ++ rest) = String.length body.
Proof.
  intros Hbody Hrest. induction body as [|c body IH].
  - destruct rest as [|c rest]; [reflexivity|]. simpl in *. by rewrite Hrest.
  - destruct Hbody as [Hc Hbody]. rewrite append_cons. simpl. by rewrite Hc, IH.
Qed.

(** Property X22.  What the replacement removes.  In a text that holds no
    [//] and no [/*] before it, a block comment is removed from its [/*]
    to the first [*/] after it, line breaks included, and a line comment
    from its [//] to the end of its line, the line terminator staying;
    what follows is treated in the same way. *)
Theorem comments_are_cut_out (before body after : string) :
  noCommentStart (before ++ "/") ->
  (noBlockEnd body ->
   CommentRegex.removeComments (before ++ "/*" ++ body ++ "*/" ++ after)
   = before ++ CommentRegex.removeComments after)
  /\ (noLineTerminator body -> atLineEnd after ->
      CommentRegex.removeComments (before ++ "//" ++ body ++ after)
      = before ++ CommentRegex.removeComments after).
Proof.
  intros Hbefore. unfold CommentRegex.removeComments. split.
  - intros Hbody.
    change ("/*" ++ body ++ "*/" ++ after)
      with (String "/" (String "*" (body ++ "*/" ++ after))).
    rewrite replaceGo_before by done. f_equal.
    rewrite replaceGo_unfold. unfold CommentRegex.matchLength. simpl andb.
    cbv beta iota. rewrite blockEnd_first by done. simpl option_map. cbv beta iota.
    change (String "*" (body ++ "*/" ++ after)) with ("*" ++ (body ++ "*/" ++ after)).
    rewrite <- (append_assoc body "*/" after), <- (append_assoc "*" (body ++ "*/") after).
    etrans; [|apply (replaceGo_skip ("*" ++ body ++ "*/") after)].
    f_equal. rewrite !length_append. simpl. lia.
  - intros Hbody Hafter.
    change ("//" ++ body ++ after) with (String "/" (String "/" (body ++ after))).
    rewrite replaceGo_before by done. f_equal.
    rewrite replaceGo_unfold. unfold CommentRegex.matchLength. simpl andb.
    cbv beta iota. rewrite lineLength_line by done.
    change (String "/" (body ++ after)) with ("/" ++ (body ++ after)).
    rewrite <- (append_assoc "/" body after).
    etrans; [|apply (replaceGo_skip ("/" ++ body) after)].
    f_equal.
Qed.

End Properties.

(** ** The module on concrete inputs *)

Import MemHost Scenario.

(** Settles a goal about concrete, closed terms by evaluation. *)
Ltac evaluate := first [reflexivity | discriminate | done].

(** Proves that the segments of a concrete list are clean. *)
Ltac cleanSegments :=
  repeat first
    [ apply Forall_nil_2
    | apply Forall_cons_2
    | split
    | discriminate
    | exact I ].

(** A computation is known by its result and the state it leaves. *)
Lemma outcome_of {A B} (x : A * B) (a : A) : x.1 = a -> x = (a, x.2).
Proof. destruct x as [a' b]. simpl. by intros ->. Qed.

Lemma result_of {A B} (x : A * B) (a : A) (b : B) : x = (a, b) -> x.1 = a.
Proof. by intros ->. Qed.

(** A run of claim C1: the checker writes to [/proj/dist/main.js]. *)
Lemma writeSync_passes_through_witness :
  (exists p, fdToPath scriptOpened !! w_fd (textWrite 3 "console.log(1)") = Some p
             /\ JsString.endsWith p ".vue.js" = false)
  /\ writeSync (textWrite 3 "console.log(1)") scriptOpened
     = let '(r, w') := nativeWriteSync (world scriptOpened)
                         (textWrite 3 "console.log(1)") in
       (seenBy r,
        addCall (CallWrite (textWrite 3 "console.log(1)")) (setWorld w' scriptOpened)).
Proof.
  assert (Hrecorded :
            exists p, fdToPath scriptOpened !! w_fd (textWrite 3 "console.log(1)") = Some p
                      /\ JsString.endsWith p ".vue.js" = false).
  { exists "/proj/dist/main.js". split; evaluate. }
  exact (conj Hrecorded
           (writeSync_passes_through scriptOpened (textWrite 3 "console.log(1)")
              (or_intror (or_introl Hrecorded)))).
Defined.

(** A run of claim C2: the component has no template, the compiler
    reports it, and the only native call is the write of the placeholder
    text. *)
Lemma compile_errors_keep_payload_witness :
  exists n, (n = 1 \/ n = 2)%nat
    /\ nativeCalls (writeSync placeholderWrite (placeholderOpened badSource)).2
       = (nativeCalls (placeholderOpened badSource)
          ++ replicate n (CallWrite placeholderWrite))%list.
Proof.
  refine (proj2 (compile_errors_keep_payload
                   (placeholderOpened badSource) placeholderWrite placeholder
                   "placeholder" "/proj/src/Foo.vue" badSource
                   (resolveVueFilePath placeholder (placeholderOpened badSource)).2
                   (shouldGenerateSourceMap placeholder
                      (resolveVueFilePath placeholder (placeholderOpened badSource)).2).2
                   false
                   {| r_js := {| js_code := ""; js_sourceMap := None |};
                      r_css := []; r_errors := ["missing template"] |}
                   (compileVueSFC
                      (world (shouldGenerateSourceMap placeholder
                                (resolveVueFilePath placeholder
                                   (placeholderOpened badSource)).2).2)
                      badSource
                      (compileOptions (Path.dirname "/proj/src/Foo.vue")
                         (Path.basename "/proj/src/Foo.vue") false)).2
                   _ _ _ _ _ _ _ _ _ _));
    first [apply outcome_of; evaluate | evaluate].
Defined.

(** A run of claim C3: the example of the specification, the project
    standing in [/proj]. *)
Lemma mapToSource_reroots_witness :
  resolveVueFilePath "/proj/dist/a/b/Foo.vue.js" (project goodSource)
  = (inr (Some (absPath (["proj"; "src"] ++ ["a"; "b"] ++ ["Foo.vue"]))),
     (getTsConfigPaths "/proj/dist/a/b/Foo.vue.js" (project goodSource)).2)
  /\ absPath (["proj"; "src"] ++ ["a"; "b"] ++ ["Foo.vue"]) = "/proj/src/a/b/Foo.vue".
Proof.
  split; [|reflexivity].
  refine (proj2 (proj2 (mapToSource_reroots
                          (project goodSource) "/proj/dist/a/b/Foo.vue.js"
                          {| outDir := "/proj/dist"; rootDir := "/proj/src";
                             sourceMap := false |}
                          (getTsConfigPaths "/proj/dist/a/b/Foo.vue.js"
                             (project goodSource)).2 _))
            ["proj"; "dist"] ["proj"; "src"] ["a"; "b"] "Foo.vue" _ _ _ _ _ _ _);
    first [apply outcome_of; evaluate | cleanSegments | evaluate].
Defined.

(** A run of claim C4: the compiler crashes on the component, the crash
    is caught, and the real write returns the eleven code units of the
    placeholder text. *)
Lemma pipeline_exceptions_are_caught_witness :
  (writeSync placeholderWrite (placeholderOpened crashingSource)).1 = inr 11%Z.
Proof.
  pose proof (proj1 (pipeline_exceptions_are_caught
                       (placeholderOpened crashingSource) placeholderWrite)
                placeholder "placeholder" "/proj/src/Foo.vue"
                (resolveVueFilePath placeholder (placeholderOpened crashingSource)).2
                (HostThrown CompilerCrash)
                (tryBody placeholderWrite placeholder "/proj/src/Foo.vue"
                   (resolveVueFilePath placeholder
                      (placeholderOpened crashingSource)).2).2) as Hcaught.
  specialize (Hcaught ltac:(evaluate) ltac:(evaluate) ltac:(evaluate)).
  specialize (Hcaught ltac:(apply outcome_of; evaluate) ltac:(evaluate)).
  specialize (Hcaught ltac:(apply outcome_of; evaluate)).
  apply (f_equal fst) in Hcaught.
  refine (eq_trans Hcaught _). reflexivity.
Defined.

(** A run of claim C7: the configuration sets [sourceMap] to [true], a
    comment after it. *)
Lemma sourceMaps_policy_witness :
  exists st', shouldGenerateSourceMap placeholder projectWithMaps = (inr true, st').
Proof.
  assert (Hcache : cacheConsistent projectWithMaps).
  { intros tp r Hlookup.
    change ((∅ : gmap string TsPaths) !! tp = Some r) in Hlookup.
    by rewrite lookup_empty in Hlookup. }
  destruct (sourceMaps_policy projectWithMaps placeholder Hcache)
    as (b & st' & Heq & Hiff).
  assert (Hb : b = true).
  { apply Hiff. right; right.
    exists "/proj/tsconfig.json",
      (jsonText "{'compilerOptions':{'outDir':'dist','sourceMap':true /* maps */}}"),
      {| outDir := "/proj/dist"; rootDir := "/proj"; sourceMap := true |}.
    repeat split; evaluate. }
  exists st'. exact (eq_ind b (fun b' => _ = (inr b', st')) Heq true Hb).
Defined.

(** A run of claim C9: descriptor [3] is opened for [/proj/dist/main.js],
    closed, and handed out again for the placeholder; the write on it is
    intercepted for the placeholder, so the compiled component is
    written.  The other way round, the write on it is the real write of
    the text. *)
Lemma handle_table_tracks_open_handles_witness :
  fdToPath (runCalls reuse (setFdToPath ∅ (project goodSource))).2 !! 3%Z
  = Some placeholder
  /\ nativeCalls
       (writeSync placeholderWrite
          (runCalls reuse (setFdToPath ∅ (project goodSource))).2).2
     = (nativeCalls (runCalls reuse (setFdToPath ∅ (project goodSource))).2
        ++ [CallWrite (textWrite 3 "export default {}")])%list
  /\ writeSync placeholderWrite
       (runCalls reuseForScript (setFdToPath ∅ (project goodSource))).2
     = callNativeWriteSync placeholderWrite
         (runCalls reuseForScript (setFdToPath ∅ (project goodSource))).2.
Proof.
  pose proof (proj2 (proj2 (handle_table_tracks_open_handles
                              (project goodSource) reuse 3))
                [Opened (PathString "/proj/dist/main.js") 3] [] [] placeholder
                ltac:(evaluate) ltac:(apply Forall_nil_2)) as [Htable Hwrites].
  pose proof (proj1 (Hwrites placeholderWrite eq_refl) eq_refl
                (ex_intro _ "placeholder" eq_refl)) as Hwrite.
  pose proof (proj2 (proj2 (handle_table_tracks_open_handles
                              (project goodSource) reuseForScript 3))
                [Opened (PathString placeholder) 3] [] [] "/proj/dist/main.js"
                ltac:(evaluate) ltac:(apply Forall_nil_2)) as [_ Hscript].
  split; [exact Htable|]. split.
  - apply (f_equal (fun x => nativeCalls x.2)) in Hwrite.
    refine (eq_trans Hwrite _). reflexivity.
  - exact (proj2 (Hscript placeholderWrite eq_refl) (or_introl eq_refl)).
Defined.

(** A run of claim C10 as amended: the ordinary placeholder write goes on
    to the [try] block. *)
Lemma unresolved_branch_only_for_empty_path_witness :
  exists st1,
    resolveVueFilePath placeholder (placeholderOpened goodSource)
    = (inr (Some "/proj/src/Foo.vue"), st1)
    /\ intercept placeholderWrite placeholder (placeholderOpened goodSource)
       = tryCatch (tryBody placeholderWrite placeholder "/proj/src/Foo.vue")
           catchBlock st1.
Proof.
  assert (Hplaceholder :
            placeholderPath
              (fdToPath (placeholderOpened goodSource) !! w_fd placeholderWrite)
              (w_data placeholderWrite) = Some placeholder) by evaluate.
  assert (Hmapped : (resolveVueFilePath placeholder (placeholderOpened goodSource)).1
                    = inr (Some "/proj/src/Foo.vue")) by evaluate.
  destruct (unresolved_branch_only_for_empty_path
              (placeholderOpened goodSource) placeholderWrite placeholder Hplaceholder)
    as (vue & st1 & Hres & _ & Htry & _).
  assert (Hvue : vue = "/proj/src/Foo.vue").
  { apply result_of in Hres. congruence. }
  subst vue. exists st1. split; [exact Hres|]. apply Htry. evaluate.
Defined.

(** Claim C10 as stated fails: with a configuration whose [outDir] is the
    placeholder path and whose [rootDir] is the root directory, the write
    of the placeholder is intercepted, the mapped path is the empty
    string, and the wrapper takes the branch that logs the unresolved
    path, which the [try] block entered with that path would not log. *)
Lemma placeholder_write_can_be_unresolved :
  placeholderPath (fdToPath degenerateOpened !! w_fd placeholderWrite)
    (w_data placeholderWrite) = Some degeneratePlaceholder
  /\ (resolveVueFilePath degeneratePlaceholder degenerateOpened).1 = inr (Some "")
  /\ console (intercept placeholderWrite degeneratePlaceholder degenerateOpened).2
     = [[LogText "Could not resolve Vue file path for:";
         LogText degeneratePlaceholder]]
  /\ console (tryCatch (tryBody placeholderWrite degeneratePlaceholder "") catchBlock
                (resolveVueFilePath degeneratePlaceholder degenerateOpened).2).2
     = []
  /\ console (writeSync placeholderWrite degenerateOpened).2
     = [[LogText "Could not resolve Vue file path for:";
         LogText degeneratePlaceholder]].
Proof. repeat split; evaluate. Qed.

(** Claim C5, where the code departs from it.  The configuration of
    [/proj] sets the output directory to [/proj/dist];
    [/proj/dist-app/Foo.vue.js] does not lie under it, yet it begins with
    the same characters, so the path is re-rooted, to [/dist-app/Foo.vue],
    where the fallback would have given [/proj/dist-app/Foo.vue]. *)
Theorem prefix_sibling_is_rerooted :
  (getTsConfigPaths siblingOutput projectWithSibling).1
  = inr (Some {| outDir := "/proj/dist"; rootDir := "/proj"; sourceMap := false |})
  /\ Path.segmentsOf "/proj/dist" = ["proj"; "dist"]
  /\ Path.segmentsOf siblingOutput = ["proj"; "dist-app"; "Foo.vue.js"]
  /\ JsString.startsWith siblingOutput "/proj/dist" = true
  /\ (resolveVueFilePath siblingOutput projectWithSibling).1
     = inr (Some "/dist-app/Foo.vue")
  /\ JsString.slice_0_m3 siblingOutput = "/proj/dist-app/Foo.vue".
Proof. repeat split; evaluate. Qed.

(** Claim C6, where the code departs from it.  [/tsconfig.json] exists
    and [/] is an ancestor of [/a/Foo.vue.js], but the loop ends when it
    reaches [/], before looking there: nothing is found, neither for a
    file in [/a] nor for a file in the root directory itself. *)
Theorem root_configuration_is_not_examined :
  existsSync rootProject "/tsconfig.json" = true
  /\ Path.dirname "/a/Foo.vue.js" = "/a"
  /\ Path.dirname "/a" = "/"
  /\ Path.dirname "/" = "/"
  /\ findTsConfig rootProject "/a/Foo.vue.js" = None
  /\ findTsConfig rootProject "/Foo.vue.js" = None.
Proof. repeat split; evaluate. Qed.

(** Claim C8, where the code departs from it.  The configuration holds
    no comment and is valid JSON, but the [//] of the URL in it is taken
    for a line comment: what is left does not parse, no settings record
    is returned, and the placeholder is mapped by the fallback, to
    [/proj/dist/Foo.vue] instead of [/proj/src/Foo.vue]. *)
Theorem url_in_configuration_is_cut :
  Json.parse schemaConfig
  = Some (Json.JObj
            [("$schema", Json.JStr "https://json.schemastore.org/tsconfig");
             ("compilerOptions",
              Json.JObj [("outDir", Json.JStr "dist"); ("rootDir", Json.JStr "src")])])
  /\ CommentRegex.removeComments schemaConfig = jsonText "{'$schema':'https:"
  /\ Json.parse (CommentRegex.removeComments schemaConfig) = None
  /\ (getTsConfigPaths placeholder projectWithSchema).1 = inr None
  /\ console (getTsConfigPaths placeholder projectWithSchema).2
     = [[LogText "Failed to parse tsconfig.json:"; LogThrown SyntaxError]]
  /\ (resolveVueFilePath placeholder projectWithSchema).1
     = inr (Some "/proj/dist/Foo.vue").
Proof. repeat split; evaluate. Qed.

(** ** Further runs on concrete inputs *)

(** The walk from [/proj/dist/Foo.vue.js] looks into [/proj/dist] and
    [/proj]. *)
Lemma findTsConfig_walks_up_to_the_top_directory_witness :
  findTsConfig (world (project goodSource)) (absPath (["proj"; "dist"] ++ ["Foo.vue.js"]))
  = Some "/proj/tsconfig.json".
Proof.
  refine (eq_trans
            (findTsConfig_walks_up_to_the_top_directory
               (world (project goodSource)) ["proj"; "dist"] "Foo.vue.js" _ _) _);
    first [cleanSegments | evaluate].
Defined.

(** The second component of the project gets the record loaded for the
    first, after a run of opens and closes in between. *)
Lemma getTsConfigPaths_memoises_witness :
  getTsConfigPaths otherPlaceholder
    (runCalls reuse (getTsConfigPaths placeholder (project goodSource)).2).2
  = (inr (Some {| outDir := "/proj/dist"; rootDir := "/proj/src"; sourceMap := false |}),
     (runCalls reuse (getTsConfigPaths placeholder (project goodSource)).2).2).
Proof.
  refine (getTsConfigPaths_memoises (project goodSource)
            (getTsConfigPaths placeholder (project goodSource)).2
            (runCalls reuse (getTsConfigPaths placeholder (project goodSource)).2).2
            placeholder otherPlaceholder _ _ _ _).
  - apply outcome_of; evaluate.
  - evaluate.
  - evaluate.
Defined.

(** The configuration with a URL fails to load on every lookup. *)
Lemma failed_configuration_is_loaded_again_witness :
  console (getTsConfigPaths placeholder
             (getTsConfigPaths placeholder projectWithSchema).2).2
  = [[LogText "Failed to parse tsconfig.json:"; LogThrown SyntaxError];
     [LogText "Failed to parse tsconfig.json:"; LogThrown SyntaxError]].
Proof.
  pose proof (failed_configuration_is_loaded_again projectWithSchema placeholder
                "/proj/tsconfig.json" SyntaxError
                ltac:(evaluate) ltac:(evaluate) ltac:(evaluate)) as [Hfirst Hsecond].
  apply (f_equal snd) in Hfirst. cbn [snd] in Hfirst.
  refine (eq_trans (f_equal (fun s => console (getTsConfigPaths placeholder s).2) Hfirst) _).
  exact (f_equal (fun x => console x.2) Hsecond).
Defined.

(** The record of the project survives a run of opens and closes. *)
Lemma cached_records_are_never_replaced_witness :
  tsconfigCache
    (runCalls reuse (getTsConfigPaths placeholder (project goodSource)).2).2
  !! "/proj/tsconfig.json"
  = Some {| outDir := "/proj/dist"; rootDir := "/proj/src"; sourceMap := false |}.
Proof.
  apply (cached_records_are_never_replaced reuse
           (getTsConfigPaths placeholder (project goodSource)).2
           "/proj/tsconfig.json").
  evaluate.
Defined.

(** The directories of the project: [dist] and [src] below [/proj]. *)
Lemma configured_directories_witness :
  outDir {| outDir := "/proj/dist"; rootDir := "/proj/src"; sourceMap := false |}
  = Path.resolve "/work" ["/proj"; "dist"]
  /\ rootDir {| outDir := "/proj/dist"; rootDir := "/proj/src"; sourceMap := false |}
     = Path.resolve "/work" ["/proj"; "src"].
Proof.
  pose proof (configured_directories (project goodSource)
                (getTsConfigPaths placeholder (project goodSource)).2
                placeholder "/proj/tsconfig.json" projectConfig
                {| outDir := "/proj/dist"; rootDir := "/proj/src"; sourceMap := false |}
                ltac:(evaluate) ltac:(evaluate) ltac:(evaluate)
                ltac:(apply outcome_of; evaluate)) as (Hout & Hroot & _).
  exact (conj Hout Hroot).
Defined.

(** An [outDir] that is the number [1]. *)
Lemma directory_that_is_not_a_string_witness :
  getTsConfigPaths placeholder numericOutDirProject
  = (inr None,
     addLog [LogText "Failed to parse tsconfig.json:"; LogThrown TypeError]
       numericOutDirProject).
Proof.
  refine (directory_that_is_not_a_string numericOutDirProject placeholder
            "/proj/tsconfig.json" (jsonText "{'compilerOptions':{'outDir':1}}")
            "outDir" (Json.JNum 1 0) _ _ _ _ _ _ _);
    first [by left | by intros s | evaluate].
Defined.

(** Without any configuration [/x/Foo.vue.js] is mapped to [/x/Foo.vue]. *)
Lemma fallback_cuts_the_script_extension_witness :
  exists vue st',
    resolveVueFilePath "/x/Foo.vue.js" (initial []) = (inr (Some vue), st')
    /\ vue ++ ".js" = "/x/Foo.vue.js"
    /\ JsString.endsWith vue ".vue" = true.
Proof.
  refine (fallback_cuts_the_script_extension (initial []) "/x/Foo.vue.js" _ _);
    first [by left | evaluate].
Defined.

(** A project whose configuration is [{}] emits in place. *)
Lemma in_place_output_maps_like_the_fallback_witness :
  resolveVueFilePath "/proj/a/Foo.vue.js" inPlaceProject
  = (inr (Some (JsString.slice_0_m3 "/proj/a/Foo.vue.js")),
     (getTsConfigPaths "/proj/a/Foo.vue.js" inPlaceProject).2).
Proof.
  refine (in_place_output_maps_like_the_fallback inPlaceProject
            (getTsConfigPaths "/proj/a/Foo.vue.js" inPlaceProject).2
            "/proj/a/Foo.vue.js"
            {| outDir := "/proj"; rootDir := "/proj"; sourceMap := false |}
            ["proj"] ["a"; "Foo.vue.js"] _ _ _ _ _ _ _);
    first [apply outcome_of; evaluate | cleanSegments | evaluate].
Defined.

(** The example of the specification, from the configuration file on. *)
Lemma project_output_maps_to_its_source_witness :
  (resolveVueFilePath
     (absPath (["proj"] ++ ["dist"] ++ ["a"; "b"] ++ ["Foo" ++ ".vue.js"]))
     (project goodSource)).1
  = inr (Some (absPath (["proj"] ++ ["src"] ++ ["a"; "b"] ++ ["Foo" ++ ".vue"]))).
Proof.
  refine (project_output_maps_to_its_source (project goodSource)
            ["proj"] "dist" "src" ["a"; "b"] "Foo" projectConfig _ _ _ _ _ _ _ _ _ _);
    first [cleanSegments | evaluate].
Defined.

(** The component of the project has no source file: the placeholder
    text is written. *)
Lemma missing_source_keeps_payload_witness :
  nativeCalls (writeSync placeholderWrite sourcelessOpened).2
  = (nativeCalls sourcelessOpened ++ [CallWrite placeholderWrite])%list.
Proof.
  pose proof (missing_source_keeps_payload sourcelessOpened
                (resolveVueFilePath placeholder sourcelessOpened).2
                placeholderWrite placeholder "placeholder" "/proj/Foo.vue"
                ltac:(evaluate) ltac:(evaluate) ltac:(evaluate)
                ltac:(apply outcome_of; evaluate) ltac:(evaluate) ltac:(evaluate))
    as Hwrite.
  apply (f_equal (fun x => nativeCalls x.2)) in Hwrite.
  refine (eq_trans Hwrite _). reflexivity.
Defined.

(** The component compiles: the script is written in place of the
    placeholder text. *)
Lemma compiled_script_replaces_payload_witness :
  nativeCalls (writeSync placeholderWrite (placeholderOpened goodSource)).2
  = (nativeCalls (placeholderOpened goodSource)
     ++ [CallWrite (textWrite 3 "export default {}")])%list.
Proof.
  pose proof (compiled_script_replaces_payload
                (placeholderOpened goodSource) placeholderWrite placeholder
                "placeholder" "/proj/src/Foo.vue" goodSource
                (resolveVueFilePath placeholder (placeholderOpened goodSource)).2
                (shouldGenerateSourceMap placeholder
                   (resolveVueFilePath placeholder (placeholderOpened goodSource)).2).2
                false
                {| r_js := {| js_code := "export default {}"; js_sourceMap := None |};
                   r_css := []; r_errors := [] |}
                (world (placeholderOpened goodSource))) as Hwrite.
  specialize (Hwrite ltac:(evaluate) ltac:(evaluate) ltac:(evaluate)).
  specialize (Hwrite ltac:(apply outcome_of; evaluate) ltac:(evaluate)).
  specialize (Hwrite ltac:(evaluate) ltac:(evaluate)).
  specialize (Hwrite ltac:(apply outcome_of; evaluate) ltac:(evaluate)).
  specialize (Hwrite ltac:(evaluate) ltac:(evaluate) ltac:(by left)).
  apply (f_equal (fun x => nativeCalls x.2)) in Hwrite.
  refine (eq_trans Hwrite _). reflexivity.
Defined.

(** A style named [Foo.vue.css] is written beside [/proj/dist/Foo.vue.js]. *)
Lemma style_is_written_beside_the_output_witness :
  emitCss placeholder false style (placeholderOpened goodSource)
  = writeFileNatively (absPath (["proj"; "dist"] ++ ["Foo.vue.css"])) "p{color:red}"
      (placeholderOpened goodSource).
Proof.
  refine (proj1 (style_is_written_beside_the_output (placeholderOpened goodSource)
                   placeholder ["proj"; "dist"] "Foo.vue.js" false style _ _ _ _)
            (or_introl eq_refl));
    first [cleanSegments | evaluate].
Defined.

(** A program that writes [/proj/dist/main.js] sees the native results. *)
Lemma wrappers_are_invisible_without_placeholders_witness :
  (runWith wrapped ordinaryRun (project goodSource)).1
  = (runWith unwrapped ordinaryRun (project goodSource)).1.
Proof.
  refine (proj1 (wrappers_are_invisible_without_placeholders ordinaryRun
                   (project goodSource) _ _)).
  - intros fd p Hfd. change ((∅ : gmap Z string) !! fd = Some p) in Hfd.
    by rewrite lookup_empty in Hfd.
  - intros a p Hin Hp. unfold ordinaryRun in Hin.
    apply elem_of_cons in Hin as [Heq | Hin].
    + injection Heq as ->. injection Hp as <-. reflexivity.
    + apply elem_of_cons in Hin as [Heq | Hin]; [discriminate|].
      apply elem_of_cons in Hin as [Heq | Hin]; [discriminate|].
      by apply elem_of_nil in Hin.
Defined.

(** A block comment between the braces of a configuration. *)
Lemma comments_are_cut_out_witness :
  CommentRegex.removeComments ("{" ++ "/*" ++ " maps " ++ "*/" ++ "}")
  = "{" ++ CommentRegex.removeComments "}".
Proof.
  refine (proj1 (comments_are_cut_out "{" " maps " "}" _) _).
  - split; [|split; exact I]. intros [Hbrace _]. discriminate Hbrace.
  - repeat split; intros [Hstar _]; discriminate Hstar.
Defined.

(** With source maps on and a compiler that returns a map: the map is
    written to [/proj/dist/Foo.vue.js.map] on descriptor [4], and the
    script ends with the comment that names it. *)
Lemma script_map_is_written_beside_the_script_witness :
  nativeCalls (writeSync (H0 := mappingCompiler) placeholderWrite mappedOpened).2
  = (nativeCalls mappedOpened
     ++ [CallOpen mapFile; CallWrite (textWrite 4 "{}"); CallClose 4;
         CallWrite mappedWrite])%list.
Proof.
  pose proof (script_map_is_written_beside_the_script (H0 := mappingCompiler)
                mappedOpened placeholderWrite placeholder
                "placeholder" "/proj/src/Foo.vue" goodSource
                (resolveVueFilePath placeholder mappedOpened).2
                (shouldGenerateSourceMap placeholder
                   (resolveVueFilePath placeholder mappedOpened).2).2
                mappedResult ["proj"; "dist"] "Foo.vue.js" "{}" "{}" 4 2 53
                (world mappedOpened) mapOpened mapWritten mapClosed scriptWritten)
    as Hwrite.
  specialize (Hwrite ltac:(evaluate) ltac:(evaluate) ltac:(evaluate)).
  specialize (Hwrite ltac:(apply outcome_of; evaluate) ltac:(evaluate)).
  specialize (Hwrite ltac:(evaluate) ltac:(evaluate)).
  specialize (Hwrite ltac:(apply outcome_of; evaluate) ltac:(evaluate)).
  specialize (Hwrite ltac:(evaluate) ltac:(evaluate) ltac:(evaluate)).
  specialize (Hwrite ltac:(evaluate) ltac:(cleanSegments)).
  specialize (Hwrite ltac:(evaluate) ltac:(evaluate)).
  specialize (Hwrite ltac:(evaluate) ltac:(evaluate) ltac:(evaluate)).
  apply (f_equal (fun x => nativeCalls x.2)) in Hwrite.
  refine (eq_trans Hwrite _). reflexivity.
Defined.

(** On a disk that is full the write of the map throws: descriptor [9]
    of the map file is never closed. *)
Lemma failed_map_write_leaves_the_map_open_witness :
  nativeCalls
    (writeSync (H := FullDisk.fullDiskHost) (H0 := FullDisk.fullDiskCompiler)
       (textWrite 3 "x") FullDisk.opened).2
  = [CallOpen {| o_path := PathString "/p/Foo.vue.js.map"; o_rest := [ArgString "w"] |};
     CallWrite (textWrite 9 "{}");
     CallWrite (textWrite 3 "x")].
Proof.
  pose proof (failed_map_write_leaves_the_map_open
                (H := FullDisk.fullDiskHost) (H0 := FullDisk.fullDiskCompiler)
                FullDisk.opened (textWrite 3 "x") "/p/Foo.vue.js" "x" "/p/Foo.vue"
                FullDisk.configuration
                (resolveVueFilePath (H := FullDisk.fullDiskHost) "/p/Foo.vue.js"
                   FullDisk.opened).2
                (shouldGenerateSourceMap (H := FullDisk.fullDiskHost) "/p/Foo.vue.js"
                   (resolveVueFilePath (H := FullDisk.fullDiskHost) "/p/Foo.vue.js"
                      FullDisk.opened).2).2
                FullDisk.fullDiskResult "{}" "{}" 9 FullDisk.ENOSPC tt tt tt)
    as Hwrite.
  specialize (Hwrite ltac:(evaluate) ltac:(evaluate) ltac:(evaluate)).
  specialize (Hwrite ltac:(apply outcome_of; evaluate) ltac:(evaluate)).
  specialize (Hwrite ltac:(evaluate) ltac:(evaluate)).
  specialize (Hwrite ltac:(apply outcome_of; evaluate) ltac:(evaluate)).
  specialize (Hwrite ltac:(evaluate) ltac:(evaluate)).
  specialize (Hwrite ltac:(evaluate) ltac:(evaluate) ltac:(evaluate)).
  apply (f_equal (fun x => nativeCalls x.2)) in Hwrite.
  refine (eq_trans Hwrite _). reflexivity.
Defined.

(** A style named [/tmp/Foo.css] is written to [/tmp]. *)
Lemma style_with_an_absolute_name_is_written_there_witness :
  emitCss placeholder false strayStyle (placeholderOpened goodSource)
  = writeFileNatively (absPath ["tmp"; "Foo.css"]) "p{color:red}"
      (placeholderOpened goodSource).
Proof.
  refine (proj1 (style_with_an_absolute_name_is_written_there
                   (placeholderOpened goodSource) placeholder ["tmp"; "Foo.css"]
                   false strayStyle _ _)
            (or_introl eq_refl));
    first [cleanSegments | evaluate].
Defined.

(** The placeholder opened with a [Buffer]: its write is not intercepted. *)
Lemma paths_that_are_not_strings_are_not_tracked_witness :
  nativeCalls (writeSync placeholderWrite
                 (openSync bufferOpen (project goodSource)).2).2
  = [CallOpen bufferOpen; CallWrite placeholderWrite].
Proof.
  pose proof (paths_that_are_not_strings_are_not_tracked (project goodSource)
                (openSync bufferOpen (project goodSource)).2 bufferOpen 3
                placeholderWrite
                ltac:(by intros s) ltac:(evaluate)
                ltac:(apply outcome_of; evaluate) ltac:(evaluate)) as Hwrite.
  apply (f_equal (fun x => nativeCalls x.2)) in Hwrite.
  refine (eq_trans Hwrite _). reflexivity.
Defined.
